(** * Tour Guide: live navigation and points-of-interest engine

    A shallow embedding of the navigation core of
    [src/components/TourGuide.tsx]: the haversine distance, the Overpass
    place finder, the OSRM route planner and the live guidance loop that the
    [TourGuide] component runs on top of the browser's geolocation watch.

    Modelling conventions.
    - A JavaScript [number] that holds a measurement (a latitude, a distance,
      a zoom level) is a real number: arithmetic is exact and every value is
      finite.  The only non-finite constant of the code, the [Infinity] that
      initialises [bestDist], is kept as a constructor of [number].
    - [Math.round] yields an integer; rounded distances are in [Z].
    - An optional field ([x?: T], [T | null], [T | undefined]) is an
      [option].
    - React state ([useState]) and refs ([useRef]) are fields of one record;
      a handler is a function on that record, followed by the effects React
      runs at the commit of its state changes.
    - The browser, Leaflet and the two web services are the environment; what
      they answer arrives as the argument of an event. *)

From Stdlib Require Import Reals Lra Lia ZArith List String Ascii Bool.
From Stdlib Require Import Zfloor Machin Sorted Permutation DecimalString.
Import ListNotations.

Local Open Scope R_scope.
Local Open Scope string_scope.
Local Open Scope list_scope.

(** ** Values of the host language *)

(** [x && y], [x ? a : b] on a number: zero is falsy. *)
Definition truthy_num (x : R) : bool :=
  if Req_dec_T x 0 then false else true.

(** Truthiness of a string: the empty string is falsy. *)
Definition truthy_str (s : string) : bool :=
  match s with EmptyString => false | String _ _ => true end.

(** [s || d] where [s] may be undefined. *)
Definition str_or (s : option string) (d : string) : string :=
  match s with
  | Some v => if truthy_str v then v else d
  | None => d
  end.

(** [a ?? d]. *)
Definition nullish {A : Type} (a : option A) (d : A) : A :=
  match a with Some v => v | None => d end.

(** [Math.round]: the nearest integer, halves going up. *)
Definition Math_round (x : R) : Z := Zfloor (x + / 2).

(** [String(n)] for an integral number. *)
Definition String_of_Z (z : Z) : string := NilZero.string_of_int (Z.to_int z).

(** A number that may be [Infinity]. *)
Inductive number : Type :=
| Fin (r : R)
| Infinity.

(** [d < b] for a finite [d]. *)
Definition num_lt (d : R) (b : number) : bool :=
  match b with
  | Infinity => true
  | Fin r => if Rlt_dec d r then true else false
  end.

(** [Math.round] on a possibly infinite number. *)
Definition Math_round_num (b : number) : number :=
  match b with
  | Fin r => Fin (IZR (Math_round r))
  | Infinity => Infinity
  end.

(** ** GeoDistance *)

Record Coords : Type := mkCoords { lat : R; lon : R }.

Definition toRad (deg : R) : R := (deg * PI) / 180.

Definition EARTH_R : R := 6371000.

(** The [c] of [haversine]: the squared half-chord. *)
Definition haversine_c (a b : Coords) : R :=
  let dLat := toRad (lat b - lat a) in
  let dLon := toRad (lon b - lon a) in
  let lat1 := toRad (lat a) in
  let lat2 := toRad (lat b) in
  let s1 := sin (dLat / 2) in
  let s2 := sin (dLon / 2) in
  s1 * s1 + cos lat1 * cos lat2 * s2 * s2.

Definition haversine (a b : Coords) : R :=
  2 * EARTH_R * asin (Rmin 1 (sqrt (haversine_c a b))).

(** [distanceToManeuver]: the routing service gives [[lon, lat]]. *)
Definition distanceToManeuver (from : Coords) (maneuverLoc : R * R) : R :=
  let lat := snd maneuverLoc in
  let lon := fst maneuverLoc in
  haversine from (mkCoords lat lon).

(** ** PlaceFinder *)

Record Place : Type := mkPlace {
  p_id : string;
  p_name : string;
  p_category : string;
  p_lat : R;
  p_lon : R;
  distanceMeters : option Z
}.

Record OverpassCenter : Type := mkCenter {
  c_lat : option R;
  c_lon : option R
}.

Record OverpassTags : Type := mkTags {
  t_name : option string;
  t_amenity : option string;
  t_tourism : option string
}.

Record OverpassElement : Type := mkElement {
  el_id : Z;
  el_lat : option R;
  el_lon : option R;
  el_center : option OverpassCenter;
  el_tags : option OverpassTags
}.

(** The value [res.json()] resolves to.  [OJ_null] is the JSON [null], on
    which reading [.elements] raises; [OJ_value None] is any other value
    whose [elements] is not an array. *)
Inductive OverpassJson : Type :=
| OJ_null
| OJ_value (elements : option (list OverpassElement)).

(** What [fetch] settles to.  [body = None]: the body is not JSON, so
    [res.json()] rejects. *)
Record Response (J : Type) : Type := mkResponse {
  ok : bool;
  status : Z;
  body : option J
}.
Arguments mkResponse {J}.
Arguments ok {J}.
Arguments status {J}.
Arguments body {J}.

Inductive Fetched (J : Type) : Type :=
| NetworkError
| Answer (res : Response J).
Arguments NetworkError {J}.
Arguments Answer {J}.

Inductive Error : Type :=
| Err (msg : string)
| SyntaxError
| TypeError
| FetchFailed.

Inductive RoutingMode : Type := walking | driving | cycling.

(** The requests the component sends, as the data their URL is built
    from. *)
Inductive Request : Type :=
| OverpassRequest (radiusMeters : R) (center : Coords) (category : string)
| OSRMRequest (mode : RoutingMode) (from : Coords) (to_lon to_lat : R).

(** Stable insertion: [x] goes before the first element it does not
    compare greater than. *)
Fixpoint sort_insert {A : Type} (cmp : A -> A -> Z) (x : A) (l : list A)
  : list A :=
  match l with
  | [] => [x]
  | y :: l' =>
      if (cmp x y <=? 0)%Z then x :: y :: l'
      else y :: sort_insert cmp x l'
  end.

(** [Array.prototype.sort(cmp)]: a stable sort. *)
Fixpoint Array_sort {A : Type} (cmp : A -> A -> Z) (l : list A) : list A :=
  match l with
  | [] => []
  | x :: l' => sort_insert cmp x (Array_sort cmp l')
  end.

Definition el_coord (own : option R) (center : option OverpassCenter)
  (field : OverpassCenter -> option R) : R :=
  match own with
  | Some v => v
  | None =>
      nullish (match center with Some c => field c | None => None end) 0
  end.

Definition el_tag (el : OverpassElement) (field : OverpassTags -> option string)
  : option string :=
  match el_tags el with Some t => field t | None => None end.

(** The callback of [elements.map]. *)
Definition place_of_element (coords : Coords) (category : string)
  (el : OverpassElement) : Place :=
  let lat := el_coord (el_lat el) (el_center el) c_lat in
  let lon := el_coord (el_lon el) (el_center el) c_lon in
  let name := str_or (el_tag el t_name) "Unknown" in
  let categoryResolved :=
    str_or (el_tag el t_amenity) (str_or (el_tag el t_tourism) category) in
  {| p_id := String_of_Z (el_id el);
     p_name := name;
     p_category := categoryResolved;
     p_lat := lat;
     p_lon := lon;
     distanceMeters :=
       if truthy_num lat && truthy_num lon
       then Some (Math_round (haversine coords (mkCoords lat lon)))
       else None |}.

Definition place_located (p : Place) : bool :=
  truthy_num (p_lat p) && truthy_num (p_lon p).

Definition by_distance (a b : Place) : Z :=
  (nullish (distanceMeters a) 0 - nullish (distanceMeters b) 0)%Z.

(** Lines 60 to 78 of [fetchOverpassPlaces]: from the parsed elements to the
    returned list. *)
Definition places_of_elements (coords : Coords) (category : string)
  (elements : list OverpassElement) : list Place :=
  Array_sort by_distance
    (filter place_located (map (place_of_element coords category) elements)).

(** ** Asynchronous code: a request log and an outcome *)

Inductive Outcome (A : Type) : Type :=
| Resolved (a : A)
| Rejected (e : Error).
Arguments Resolved {A}.
Arguments Rejected {A}.

(** An async function over the log of the requests sent so far. *)
Definition Async (A : Type) : Type := list Request -> Outcome A * list Request.

Definition ret {A : Type} (a : A) : Async A := fun log => (Resolved a, log).

Definition throw {A : Type} (e : Error) : Async A :=
  fun log => (Rejected e, log).

Definition bind {A B : Type} (m : Async A) (k : A -> Async B) : Async B :=
  fun log =>
    match m log with
    | (Resolved a, log') => k a log'
    | (Rejected e, log') => (Rejected e, log')
    end.

Notation "x <- m ;; k" := (bind m (fun x => k))
  (at level 61, m at next level, right associativity).
Notation "m ;;; k" := (bind m (fun _ => k))
  (at level 61, right associativity).

(** [await fetch(url)]: one request leaves, the environment's answer comes
    back. *)
Definition fetch {J : Type} (req : Request) (answer : Fetched J)
  : Async (Response J) :=
  fun log =>
    match answer with
    | NetworkError => (Rejected FetchFailed, log ++ [req])
    | Answer res => (Resolved res, log ++ [req])
    end.

(** [await res.json()]. *)
Definition res_json {J : Type} (res : Response J) : Async J :=
  match body res with
  | Some j => ret j
  | None => throw SyntaxError
  end.

Definition fetchOverpassPlaces (coords : Coords) (category : string)
  (radiusMeters : R) (answer : Fetched OverpassJson) : Async (list Place) :=
  res <- fetch (OverpassRequest radiusMeters coords category) answer ;;
  (if negb (ok res)
   then throw (Err ("Overpass error: " ++ String_of_Z (status res)))
   else ret tt) ;;;
  json <- res_json res ;;
  match json with
  | OJ_null => throw TypeError
  | OJ_value elements =>
      ret (places_of_elements coords category (nullish elements []))
  end.

(** ** Routes *)

(** [location] is [[lon, lat]], as the routing service sends it. *)
Record Maneuver : Type := mkManeuver {
  m_type : option string;
  m_modifier : option string;
  location : R * R
}.

Record RouteStep : Type := mkStep {
  name : string;
  distance : R;
  duration : R;
  maneuver : option Maneuver
}.

Record Leg : Type := mkLeg { steps : option (list RouteStep) }.

(** One element of [routes]: [geometry.coordinates] and [legs]. *)
Record OSRMRoute : Type := mkRoute {
  coordinates : list (R * R);
  legs : option (list Leg)
}.

(** The parsed routing answer: [OSRM_null] is the JSON [null], on which
    reading [.routes] raises. *)
Inductive OSRMRouteResponse : Type :=
| OSRM_null
| OSRM_value (routes : option (list OSRMRoute)).

(** ** The guidance computation *)

(** The [for] loop of the position callback, from index [i] on. *)
Fixpoint nearest_loop (c : Coords) (rest : list RouteStep) (i : Z)
  (bestIdx : Z) (bestDist : number) : Z * number :=
  match rest with
  | [] => (bestIdx, bestDist)
  | s :: rest' =>
      match maneuver s with
      | None => nearest_loop c rest' (i + 1) bestIdx bestDist
      | Some m =>
          let d := distanceToManeuver c (location m) in
          if num_lt d bestDist
          then nearest_loop c rest' (i + 1) i (Fin d)
          else nearest_loop c rest' (i + 1) bestIdx bestDist
      end
  end.

Definition nearest (c : Coords) (steps : list RouteStep) : Z * number :=
  nearest_loop c steps 0 (-1) Infinity.

Definition step_action (s : RouteStep) : string :=
  str_or (match maneuver s with Some m => m_type m | None => None end)
    "Proceed".

Definition step_modifier (s : RouteStep) : string :=
  match maneuver s with
  | Some m =>
      match m_modifier m with
      | Some v => if truthy_str v then " " ++ v else ""
      | None => ""
      end
  | None => ""
  end.

Definition step_road (s : RouteStep) : string :=
  if truthy_str (name s) then " on " ++ name s else "".

(** The template literal given to [setNextTurnText]. *)
Definition turn_text (s : RouteStep) : string :=
  step_action s ++ step_modifier s ++ step_road s.

(** ** The component's state *)

Inductive Role : Type := user | assistant.

Record ChatMessage : Type := mkMsg { role : Role; content : string }.

(** Leaflet's [[lat, lon]]. *)
Definition LatLng : Type := (R * R)%type.

Record LMap : Type := mkMap { map_center : LatLng; map_zoom : R }.

Record CircleMarker : Type := mkMarker {
  cm_at : LatLng;
  cm_color : string;
  cm_popup : string
}.

(** A running [watchPosition]: its id and the [routeSteps] its success
    callback closed over. *)
Record Watch : Type := mkWatch { w_id : nat; w_steps : list RouteStep }.

Record State : Type := mkState {
  (* useState *)
  messages : list ChatMessage;
  coords : option Coords;
  locError : option string;
  loadingPOI : bool;
  places : list Place;
  poiCategory : string;
  routingMode : RoutingMode;
  routeSteps : list RouteStep;
  nextTurnText : option string;
  nextTurnDistance : option number;
  (* useRef *)
  mapRef : option LMap;
  markersLayerRef : option (list CircleMarker);
  routePolylineRef : option (list LatLng);
  watchIdRef : option nat;
  nextTurnMarkerRef : option CircleMarker;
  (* React: the guidance effect left a cleanup function *)
  guidanceCleanup : bool;
  (* environment *)
  geo_watches : list Watch;
  geo_next : nat;
  requests : list Request;
  console : list string
}.

Definition initial : State :=
  {| messages :=
       [mkMsg assistant
          "Hi! I can use your location and camera to suggest nearby spots and identify landmarks. Share your location to begin."];
     coords := None; locError := None; loadingPOI := false; places := [];
     poiCategory := "restaurant"; routingMode := walking; routeSteps := [];
     nextTurnText := None; nextTurnDistance := None;
     mapRef := None; markersLayerRef := None; routePolylineRef := None;
     watchIdRef := None; nextTurnMarkerRef := None;
     guidanceCleanup := false;
     geo_watches := []; geo_next := 1%nat; requests := []; console := [] |}.

Definition push_message (m : ChatMessage) (st : State) : State :=
  mkState (messages st ++ [m]) (coords st) (locError st) (loadingPOI st)
    (places st) (poiCategory st) (routingMode st) (routeSteps st)
    (nextTurnText st) (nextTurnDistance st) (mapRef st) (markersLayerRef st)
    (routePolylineRef st) (watchIdRef st) (nextTurnMarkerRef st)
    (guidanceCleanup st) (geo_watches st) (geo_next st) (requests st)
    (console st).

Definition setCoords (c : option Coords) (st : State) : State :=
  mkState (messages st) c (locError st) (loadingPOI st)
    (places st) (poiCategory st) (routingMode st) (routeSteps st)
    (nextTurnText st) (nextTurnDistance st) (mapRef st) (markersLayerRef st)
    (routePolylineRef st) (watchIdRef st) (nextTurnMarkerRef st)
    (guidanceCleanup st) (geo_watches st) (geo_next st) (requests st)
    (console st).

Definition setLocError (e : option string) (st : State) : State :=
  mkState (messages st) (coords st) e (loadingPOI st)
    (places st) (poiCategory st) (routingMode st) (routeSteps st)
    (nextTurnText st) (nextTurnDistance st) (mapRef st) (markersLayerRef st)
    (routePolylineRef st) (watchIdRef st) (nextTurnMarkerRef st)
    (guidanceCleanup st) (geo_watches st) (geo_next st) (requests st)
    (console st).

Definition setLoadingPOI (b : bool) (st : State) : State :=
  mkState (messages st) (coords st) (locError st) b
    (places st) (poiCategory st) (routingMode st) (routeSteps st)
    (nextTurnText st) (nextTurnDistance st) (mapRef st) (markersLayerRef st)
    (routePolylineRef st) (watchIdRef st) (nextTurnMarkerRef st)
    (guidanceCleanup st) (geo_watches st) (geo_next st) (requests st)
    (console st).

Definition setPlaces (ps : list Place) (st : State) : State :=
  mkState (messages st) (coords st) (locError st) (loadingPOI st)
    ps (poiCategory st) (routingMode st) (routeSteps st)
    (nextTurnText st) (nextTurnDistance st) (mapRef st) (markersLayerRef st)
    (routePolylineRef st) (watchIdRef st) (nextTurnMarkerRef st)
    (guidanceCleanup st) (geo_watches st) (geo_next st) (requests st)
    (console st).

Definition setPoiCategory (k : string) (st : State) : State :=
  mkState (messages st) (coords st) (locError st) (loadingPOI st)
    (places st) k (routingMode st) (routeSteps st)
    (nextTurnText st) (nextTurnDistance st) (mapRef st) (markersLayerRef st)
    (routePolylineRef st) (watchIdRef st) (nextTurnMarkerRef st)
    (guidanceCleanup st) (geo_watches st) (geo_next st) (requests st)
    (console st).

Definition setRoutingMode (m : RoutingMode) (st : State) : State :=
  mkState (messages st) (coords st) (locError st) (loadingPOI st)
    (places st) (poiCategory st) m (routeSteps st)
    (nextTurnText st) (nextTurnDistance st) (mapRef st) (markersLayerRef st)
    (routePolylineRef st) (watchIdRef st) (nextTurnMarkerRef st)
    (guidanceCleanup st) (geo_watches st) (geo_next st) (requests st)
    (console st).

Definition setRouteSteps (l : list RouteStep) (st : State) : State :=
  mkState (messages st) (coords st) (locError st) (loadingPOI st)
    (places st) (poiCategory st) (routingMode st) l
    (nextTurnText st) (nextTurnDistance st) (mapRef st) (markersLayerRef st)
    (routePolylineRef st) (watchIdRef st) (nextTurnMarkerRef st)
    (guidanceCleanup st) (geo_watches st) (geo_next st) (requests st)
    (console st).

Definition setNextTurnText (t : option string) (st : State) : State :=
  mkState (messages st) (coords st) (locError st) (loadingPOI st)
    (places st) (poiCategory st) (routingMode st) (routeSteps st)
    t (nextTurnDistance st) (mapRef st) (markersLayerRef st)
    (routePolylineRef st) (watchIdRef st) (nextTurnMarkerRef st)
    (guidanceCleanup st) (geo_watches st) (geo_next st) (requests st)
    (console st).

Definition setNextTurnDistance (d : option number) (st : State) : State :=
  mkState (messages st) (coords st) (locError st) (loadingPOI st)
    (places st) (poiCategory st) (routingMode st) (routeSteps st)
    (nextTurnText st) d (mapRef st) (markersLayerRef st)
    (routePolylineRef st) (watchIdRef st) (nextTurnMarkerRef st)
    (guidanceCleanup st) (geo_watches st) (geo_next st) (requests st)
    (console st).

Definition set_mapRef (m : option LMap) (st : State) : State :=
  mkState (messages st) (coords st) (locError st) (loadingPOI st)
    (places st) (poiCategory st) (routingMode st) (routeSteps st)
    (nextTurnText st) (nextTurnDistance st) m (markersLayerRef st)
    (routePolylineRef st) (watchIdRef st) (nextTurnMarkerRef st)
    (guidanceCleanup st) (geo_watches st) (geo_next st) (requests st)
    (console st).

Definition set_markersLayerRef (l : option (list CircleMarker)) (st : State)
  : State :=
  mkState (messages st) (coords st) (locError st) (loadingPOI st)
    (places st) (poiCategory st) (routingMode st) (routeSteps st)
    (nextTurnText st) (nextTurnDistance st) (mapRef st) l
    (routePolylineRef st) (watchIdRef st) (nextTurnMarkerRef st)
    (guidanceCleanup st) (geo_watches st) (geo_next st) (requests st)
    (console st).

Definition set_routePolylineRef (p : option (list LatLng)) (st : State)
  : State :=
  mkState (messages st) (coords st) (locError st) (loadingPOI st)
    (places st) (poiCategory st) (routingMode st) (routeSteps st)
    (nextTurnText st) (nextTurnDistance st) (mapRef st) (markersLayerRef st)
    p (watchIdRef st) (nextTurnMarkerRef st)
    (guidanceCleanup st) (geo_watches st) (geo_next st) (requests st)
    (console st).

Definition set_nextTurnMarkerRef (m : option CircleMarker) (st : State)
  : State :=
  mkState (messages st) (coords st) (locError st) (loadingPOI st)
    (places st) (poiCategory st) (routingMode st) (routeSteps st)
    (nextTurnText st) (nextTurnDistance st) (mapRef st) (markersLayerRef st)
    (routePolylineRef st) (watchIdRef st) m
    (guidanceCleanup st) (geo_watches st) (geo_next st) (requests st)
    (console st).

Definition set_guidanceCleanup (b : bool) (st : State) : State :=
  mkState (messages st) (coords st) (locError st) (loadingPOI st)
    (places st) (poiCategory st) (routingMode st) (routeSteps st)
    (nextTurnText st) (nextTurnDistance st) (mapRef st) (markersLayerRef st)
    (routePolylineRef st) (watchIdRef st) (nextTurnMarkerRef st)
    b (geo_watches st) (geo_next st) (requests st)
    (console st).

Definition set_requests (l : list Request) (st : State) : State :=
  mkState (messages st) (coords st) (locError st) (loadingPOI st)
    (places st) (poiCategory st) (routingMode st) (routeSteps st)
    (nextTurnText st) (nextTurnDistance st) (mapRef st) (markersLayerRef st)
    (routePolylineRef st) (watchIdRef st) (nextTurnMarkerRef st)
    (guidanceCleanup st) (geo_watches st) (geo_next st) l
    (console st).

Definition console_warn (line : string) (st : State) : State :=
  mkState (messages st) (coords st) (locError st) (loadingPOI st)
    (places st) (poiCategory st) (routingMode st) (routeSteps st)
    (nextTurnText st) (nextTurnDistance st) (mapRef st) (markersLayerRef st)
    (routePolylineRef st) (watchIdRef st) (nextTurnMarkerRef st)
    (guidanceCleanup st) (geo_watches st) (geo_next st) (requests st)
    (console st ++ [line]).

(** ** The geolocation service *)

(** [navigator.geolocation.clearWatch(id)] together with
    [watchIdRef.current = null]. *)
Definition clearWatch (id : nat) (st : State) : State :=
  mkState (messages st) (coords st) (locError st) (loadingPOI st)
    (places st) (poiCategory st) (routingMode st) (routeSteps st)
    (nextTurnText st) (nextTurnDistance st) (mapRef st) (markersLayerRef st)
    (routePolylineRef st) None (nextTurnMarkerRef st)
    (guidanceCleanup st)
    (filter (fun w => negb (Nat.eqb (w_id w) id)) (geo_watches st))
    (geo_next st) (requests st) (console st).

(** [watchIdRef.current = navigator.geolocation.watchPosition(...)] with a
    success callback that closed over [captured]. *)
Definition watchPosition (captured : list RouteStep) (st : State) : State :=
  mkState (messages st) (coords st) (locError st) (loadingPOI st)
    (places st) (poiCategory st) (routingMode st) (routeSteps st)
    (nextTurnText st) (nextTurnDistance st) (mapRef st) (markersLayerRef st)
    (routePolylineRef st) (Some (geo_next st)) (nextTurnMarkerRef st)
    (guidanceCleanup st)
    (geo_watches st ++ [mkWatch (geo_next st) captured])
    (S (geo_next st)) (requests st) (console st).

(** [if (watchIdRef.current !== null) { clearWatch; ... = null }]. *)
Definition stop_watch (st : State) : State :=
  match watchIdRef st with
  | Some id => clearWatch id st
  | None => st
  end.

Definition find_watch (id : nat) (ws : list Watch) : option Watch :=
  find (fun w => Nat.eqb (w_id w) id) ws.

(** ** RoutePlanner: the request half of [routeTo] *)

Definition first_route (routes : option (list OSRMRoute)) : option OSRMRoute :=
  match routes with
  | Some (r :: _) => Some r
  | _ => None
  end.

(** [route.legs?.[0]?.steps ?? []]. *)
Definition first_leg_steps (route : OSRMRoute) : list RouteStep :=
  match legs route with
  | Some (l :: _) => nullish (steps l) []
  | _ => []
  end.

(** [([lon, lat]) => [lat, lon]]. *)
Definition swap_lonlat (p : R * R) : LatLng :=
  let '(lon, lat) := p in (lat, lon).

(** Lines 227 to 232 of [routeTo]: the request, the status check, the
    parse and the choice of [routes[0]]. *)
Definition fetch_route (mode : RoutingMode) (from : Coords) (place : Place)
  (answer : Fetched OSRMRouteResponse) : Async OSRMRoute :=
  res <- fetch (OSRMRequest mode from (p_lon place) (p_lat place)) answer ;;
  (if negb (ok res)
   then throw (Err ("OSRM error: " ++ String_of_Z (status res)))
   else ret tt) ;;;
  data <- res_json res ;;
  match data with
  | OSRM_null => throw TypeError
  | OSRM_value routes =>
      match first_route routes with
      | Some route => ret route
      | None => throw (Err "No route found")
      end
  end.

(** ** Number formatting for the chat *)

Fixpoint zeros (n : nat) : string :=
  match n with O => "" | S n' => "0" ++ zeros n' end.

Definition toFixed4_abs (x : R) : string :=
  let n := Zfloor (x * 10000 + / 2) in
  let frac := String_of_Z (n mod 10000) in
  String_of_Z (n / 10000) ++ "." ++ zeros (4 - String.length frac) ++ frac.

(** [x.toFixed(4)] below the magnitude where JavaScript switches to the
    exponent notation. *)
Definition toFixed4 (x : R) : string :=
  if Rlt_dec x 0 then "-" ++ toFixed4_abs (- x) else toFixed4_abs x.

(** [`${p.name} (${p.category}, ${p.distanceMeters ?? '?'}m)`]. *)
Definition place_summary (p : Place) : string :=
  p_name p ++ " (" ++ p_category p ++ ", "
  ++ match distanceMeters p with Some d => String_of_Z d | None => "?" end
  ++ "m)".

Record Position : Type := mkPosition { latitude : R; longitude : R }.

Inductive Event : Type :=
| EvPreloadPosition (pos : Position)
| EvRequestLocation (answer : Position + option string)
| EvSelectCategory (key : string)
| EvSelectMode (mode : RoutingMode)
| EvLoadPOIs (answer : Fetched OverpassJson)
| EvRouteTo (place : Place) (answer : Fetched OSRMRouteResponse)
| EvClearRoute
| EvPosition (id : nat) (pos : Position)
| EvPositionError (id : nat) (err : string).

Section Component.

(** The centre and zoom Leaflet settles on when asked to fit the bounds of
    the given points. *)
Variable boundsView : list LatLng -> LatLng * R.

Definition setView (center : LatLng) (zoom : R) (m : LMap) : LMap :=
  mkMap center zoom.

(** [map.fitBounds(bounds)]: Leaflet raises 'Bounds are not valid.' on the
    bounds of no point. *)
Definition fitBounds (pts : list LatLng) (m : LMap) : option LMap :=
  match pts with
  | [] => None
  | _ :: _ => Some (mkMap (fst (boundsView pts)) (snd (boundsView pts)))
  end.

(** *** The effects *)

(** The function the guidance effect returned, when it returned one. *)
Definition guidance_cleanup (st : State) : State :=
  if guidanceCleanup st then set_guidanceCleanup false (stop_watch st)
  else st.

(** The guidance effect, lines 250 to 321. *)
Definition guidance_effect (st : State) : State :=
  match coords st, routeSteps st with
  | Some _, _ :: _ =>
      match watchIdRef st with
      | Some _ => st
      | None => set_guidanceCleanup true (watchPosition (routeSteps st) st)
      end
  | _, _ => stop_watch st
  end.

(** The effect that creates the map once there are coordinates. *)
Definition map_init_effect (st : State) : State :=
  match coords st with
  | None => st
  | Some c =>
      match mapRef st with
      | None =>
          set_markersLayerRef (Some [])
            (set_mapRef (Some (mkMap (lat c, lon c) 14)) st)
      | Some m => set_mapRef (Some (setView (lat c, lon c) 14 m)) st
      end
  end.

(** The effect that redraws the user and place markers. *)
Definition markers_effect (st : State) : State :=
  match mapRef st, markersLayerRef st with
  | Some m, Some _ =>
      let me :=
        match coords st with
        | Some c => [mkMarker (lat c, lon c) "#2563eb" "You are here"]
        | None => []
        end in
      let layer :=
        me ++ map (fun p => mkMarker (p_lat p, p_lon p) "#10b981"
                              (p_name p ++ " (" ++ p_category p ++ ")"))
                  (places st) in
      let points := map cm_at layer in
      let st := set_markersLayerRef (Some layer) st in
      if (2 <=? List.length points)%nat
      then match fitBounds points m with
           | Some m' => set_mapRef (Some m') st
           | None => st
           end
      else st
  | _, _ => st
  end.

(** What React runs once a handler has returned: the cleanup and body of
    every effect one of whose dependencies was set. *)
Definition commit (coords_set steps_set places_set : bool) (st : State)
  : State :=
  let st := if coords_set || steps_set
            then guidance_effect (guidance_cleanup st) else st in
  let st := if coords_set then map_init_effect st else st in
  if places_set || coords_set then markers_effect st else st.

(** *** The handlers *)

Definition clearRoute (st : State) : State :=
  let st := set_routePolylineRef None st in
  let st := setRouteSteps [] st in
  let st := setNextTurnText None st in
  let st := setNextTurnDistance None st in
  let st := set_nextTurnMarkerRef None st in
  stop_watch st.

(** Lines 233 to 243 of [routeTo]: drawing the route that was obtained. *)
Definition apply_route (route : OSRMRoute) (st : State) : Outcome unit * State :=
  let latlngs := map swap_lonlat (coordinates route) in
  match mapRef st with
  | None => (Rejected TypeError, st)
  | Some m =>
      let st := set_routePolylineRef (Some latlngs) st in
      match fitBounds latlngs m with
      | None => (Rejected (Err "Bounds are not valid."), st)
      | Some m' =>
          let st := set_mapRef (Some m') st in
          (Resolved tt, setRouteSteps (first_leg_steps route) st)
      end
  end.

Definition routeTo (place : Place) (answer : Fetched OSRMRouteResponse)
  (st : State) : State :=
  match coords st, mapRef st with
  | Some c, Some _ =>
      let '(got, log) := fetch_route (routingMode st) c place answer
                           (requests st) in
      let st := set_requests log st in
      let '(done, st) :=
        match got with
        | Resolved route => apply_route route st
        | Rejected e => (Rejected e, st)
        end in
      match done with
      | Resolved _ => commit false true false st
      | Rejected _ =>
          push_message (mkMsg assistant "Could not draw route on the map.") st
      end
  | _, _ =>
      push_message (mkMsg assistant "Share your location to draw a route.") st
  end.

Definition loadPOIs (answer : Fetched OverpassJson) (st : State) : State :=
  match coords st with
  | None =>
      push_message (mkMsg assistant "Please share your location first.") st
  | Some c =>
      let st := setLoadingPOI true st in
      let '(got, log) := fetchOverpassPlaces c (poiCategory st) 1500 answer
                           (requests st) in
      let st := set_requests log st in
      match got with
      | Resolved results =>
          let st := setPlaces results st in
          let summary :=
            String.concat ", " (map place_summary (firstn 5 results)) in
          let st :=
            push_message
              (mkMsg assistant
                 (if truthy_str summary
                  then "Nearby " ++ poiCategory st ++ ": " ++ summary
                  else "No nearby " ++ poiCategory st ++ " found."))
              st in
          commit false false true (setLoadingPOI false st)
      | Rejected _ =>
          let st :=
            push_message
              (mkMsg assistant "Could not load nearby places right now.") st in
          setLoadingPOI false st
      end
  end.

Definition coords_of (pos : Position) : Coords :=
  mkCoords (latitude pos) (longitude pos).

Definition requestLocation (answer : Position + option string) (st : State)
  : State :=
  let st := setLocError None st in
  match answer with
  | inl pos =>
      let c := coords_of pos in
      let st := setCoords (Some c) st in
      let st :=
        push_message
          (mkMsg assistant
             ("Location set to (" ++ toFixed4 (lat c) ++ ", "
              ++ toFixed4 (lon c) ++ ")."))
          st in
      commit true false false st
  | inr message => setLocError (Some (str_or message "Unable to get location")) st
  end.

(** The success callback of the watch that closed over [steps], lines 261
    to 307. *)
Definition on_position (steps : list RouteStep) (pos : Position) (st : State)
  : State :=
  let c := coords_of pos in
  let st := setCoords (Some c) st in
  let st :=
    match mapRef st with
    | Some m =>
        set_mapRef (Some (setView (lat c, lon c) (Rmax (map_zoom m) 15) m)) st
    | None => st
    end in
  let '(bestIdx, bestDist) := nearest c steps in
  if (0 <=? bestIdx)%Z then
    let st := setNextTurnDistance (Some (Math_round_num bestDist)) st in
    match nth_error steps (Z.to_nat bestIdx) with
    | None => st
    | Some s =>
        let st := setNextTurnText (Some (turn_text s)) st in
        match mapRef st, maneuver s with
        | Some _, Some m =>
            let at_ := (snd (location m), fst (location m)) in
            match nextTurnMarkerRef st with
            | Some mk =>
                set_nextTurnMarkerRef
                  (Some (mkMarker at_ (cm_color mk) (cm_popup mk))) st
            | None =>
                set_nextTurnMarkerRef
                  (Some (mkMarker at_ "#f59e0b" "Next turn")) st
            end
        | _, _ => st
        end
    end
  else setNextTurnDistance None (setNextTurnText None st).

(** The error callback of the watch, lines 308 to 311. *)
Definition on_position_error (err : string) (st : State) : State :=
  console_warn ("watchPosition error " ++ err) st.

(** One event of the environment, handled to completion.  The geolocation
    service calls back only the watches it still holds. *)
Definition handle (ev : Event) (st : State) : State :=
  match ev with
  | EvPreloadPosition pos =>
      commit true false false (setCoords (Some (coords_of pos)) st)
  | EvRequestLocation answer => requestLocation answer st
  | EvSelectCategory key => setPoiCategory key st
  | EvSelectMode mode => setRoutingMode mode st
  | EvLoadPOIs answer => loadPOIs answer st
  | EvRouteTo place answer => routeTo place answer st
  | EvClearRoute => commit false true false (clearRoute st)
  | EvPosition id pos =>
      match find_watch id (geo_watches st) with
      | Some w => commit true false false (on_position (w_steps w) pos st)
      | None => st
      end
  | EvPositionError id err =>
      match find_watch id (geo_watches st) with
      | Some _ => on_position_error err st
      | None => st
      end
  end.

Definition run (evs : list Event) (st : State) : State :=
  fold_left (fun s ev => handle ev s) evs st.

(** The states the component can be in. *)
Inductive reachable : State -> Prop :=
| reach_initial : reachable initial
| reach_step (ev : Event) (st : State) :
    reachable st -> reachable (handle ev st).

End Component.

(** ** Vocabulary of the statements *)

(** The distance from [c] to the maneuver of a step, when it has one; the
    maneuver's [[lon, lat]] is read as latitude [snd], longitude [fst]. *)
Definition maneuver_dist (c : Coords) (s : RouteStep) : option R :=
  match maneuver s with
  | Some m =>
      Some (haversine c (mkCoords (snd (location m)) (fst (location m))))
  | None => None
  end.



(** The fields no effect of [commit] writes. *)
Record effect_frame (st st' : State) : Prop := mk_effect_frame {
  fr_messages : messages st' = messages st;
  fr_coords : coords st' = coords st;
  fr_locError : locError st' = locError st;
  fr_loadingPOI : loadingPOI st' = loadingPOI st;
  fr_places : places st' = places st;
  fr_poiCategory : poiCategory st' = poiCategory st;
  fr_routingMode : routingMode st' = routingMode st;
  fr_routeSteps : routeSteps st' = routeSteps st;
  fr_nextTurnText : nextTurnText st' = nextTurnText st;
  fr_nextTurnDistance : nextTurnDistance st' = nextTurnDistance st;
  fr_routePolylineRef : routePolylineRef st' = routePolylineRef st;
  fr_nextTurnMarkerRef : nextTurnMarkerRef st' = nextTurnMarkerRef st;
  fr_requests : requests st' = requests st;
  fr_console : console st' = console st
}.


Definition plain_step : RouteStep := mkStep "Main St" 10 5 None.

Definition route_answer (steps : list RouteStep) : Fetched OSRMRouteResponse :=
  Answer (mkResponse true 200
            (Some (OSRM_value
                     (Some [mkRoute [(2, 1); (4, 3)]
                              (Some [mkLeg (Some steps)])])))).

Definition somewhere : Place := mkPlace "1" "Cafe" "cafe" 1 1 (Some 0%Z).

Definition flat_view (pts : list LatLng) : LatLng * R := ((0, 0), 14).

Definition guiding (steps : list RouteStep) : State :=
  run flat_view
    [EvPreloadPosition (mkPosition 0 0);
     EvRouteTo somewhere (route_answer steps)]
    initial.

(** The fields that belong to the position watch. *)
Record watch_frame (st st' : State) : Prop := mk_watch_frame {
  wf_watchIdRef : watchIdRef st' = watchIdRef st;
  wf_geo_watches : geo_watches st' = geo_watches st;
  wf_geo_next : geo_next st' = geo_next st;
  wf_guidanceCleanup : guidanceCleanup st' = guidanceCleanup st
}.

(** The discipline of the watch between two events: the service holds
    exactly the watch the ref names, that watch closed over the current
    steps and has its cleanup registered, and a watch runs exactly when
    there are coordinates and a step. *)
Definition watch_inv (st : State) : Prop :=
  match watchIdRef st with
  | None => geo_watches st = [] /\ (coords st = None \/ routeSteps st = [])
  | Some id =>
      geo_watches st = [mkWatch id (routeSteps st)] /\
      guidanceCleanup st = true /\
      coords st <> None /\ routeSteps st <> []
  end.

(** What is left of it inside a handler, before the effects run. *)
Definition watch_weak (st : State) : Prop :=
  match watchIdRef st with
  | None => geo_watches st = []
  | Some id =>
      (exists captured, geo_watches st = [mkWatch id captured]) /\
      guidanceCleanup st = true
  end.

(** Ascending order of two places by their populated distance. *)
Definition closer_or_equal (a b : Place) : Prop :=
  match distanceMeters a, distanceMeters b with
  | Some da, Some db => (da <= db)%Z
  | _, _ => False
  end.

(** The places of a list that are at distance [k], in the order of the
    list. *)
Definition at_distance (k : Z) (l : list Place) : list Place :=
  filter (fun p => match distanceMeters p with
                   | Some d => (d =? k)%Z
                   | None => false
                   end) l.

(** Two steps whose maneuvers are at one place, a located element and an
    element without coordinates. *)
Definition tie_a : RouteStep :=
  mkStep "First St" 10 5 (Some (mkManeuver (Some "turn") (Some "left") (0, 0))).

Definition tie_b : RouteStep :=
  mkStep "Second St" 10 5
    (Some (mkManeuver (Some "turn") (Some "right") (0, 0))).

Definition located_element : OverpassElement :=
  mkElement 7 (Some 1) (Some 1) None None.

Definition bare_element : OverpassElement := mkElement 8 None None None None.

Definition overpass_answer : Fetched OverpassJson :=
  Answer (mkResponse true 200
            (Some (OJ_value (Some [located_element; bare_element])))).

Definition located : State :=
  run flat_view [EvPreloadPosition (mkPosition 0 0)] initial.

(** ** The rest of the component's life *)

(** [App] renders the component only while its tab is the active one.  When
    it is taken away React runs the cleanup the guidance effect left, the
    only effect of the component that returns one. *)
Definition unmount (st : State) : State := guidance_cleanup st.

(** The markers the marker effect draws: the user's, then one per place. *)
Definition user_marker (c : Coords) : CircleMarker :=
  mkMarker (lat c, lon c) "#2563eb" "You are here".

Definition place_marker (p : Place) : CircleMarker :=
  mkMarker (p_lat p, p_lon p) "#10b981"
    (p_name p ++ " (" ++ p_category p ++ ")").

Definition markers_of (c : option Coords) (ps : list Place)
  : list CircleMarker :=
  match c with Some c => [user_marker c] | None => [] end
  ++ map place_marker ps.

(** Where a request starts from. *)
Definition request_origin (r : Request) : Coords :=
  match r with
  | OverpassRequest _ c _ => c
  | OSRMRequest _ c _ _ => c
  end.

(** The guidance text and distance are null together, or the text is not
    empty and the distance is a whole number of metres, not negative. *)
Definition guidance_paired (st : State) : Prop :=
  match nextTurnText st, nextTurnDistance st with
  | None, None => True
  | Some t, Some (Fin d) => t <> "" /\ exists z : Z, (0 <= z)%Z /\ d = IZR z
  | _, _ => False
  end.

(** The map exists exactly when there are coordinates, and its marker layer
    shows the user and the places. *)
Definition map_synced (st : State) : Prop :=
  match coords st with
  | None => mapRef st = None /\ markersLayerRef st = None
  | Some c =>
      mapRef st <> None /\
      markersLayerRef st = Some (markers_of (Some c) (places st))
  end.

(** The label of a place in the Nearby list:
    [p.distanceMeters ? `${p.distanceMeters}m` : 'distance unknown']. *)
Definition place_distance_label (p : Place) : string :=
  match distanceMeters p with
  | Some d => if (d =? 0)%Z then "distance unknown" else String_of_Z d ++ "m"
  | None => "distance unknown"
  end.

Local Open Scope string_scope.

(** ** The chat: strings, configuration, intent

    A string is a sequence of bytes.  [toLowerCase], [trim] and the regular
    expressions' [\s] act on the ASCII letters and the ASCII white space,
    which is what they do on ASCII text. *)

Definition is_upper (c : ascii) : bool :=
  (65 <=? nat_of_ascii c)%nat && (nat_of_ascii c <=? 90)%nat.

Definition lower_char (c : ascii) : ascii :=
  if is_upper c then ascii_of_nat (nat_of_ascii c + 32) else c.

Fixpoint toLowerCase (s : string) : string :=
  match s with
  | EmptyString => EmptyString
  | String c s' => String (lower_char c) (toLowerCase s')
  end.

(** Tab, line feed, vertical tab, form feed, carriage return, space. *)
Definition is_space (c : ascii) : bool :=
  let n := nat_of_ascii c in
  ((9 <=? n)%nat && (n <=? 13)%nat) || (n =? 32)%nat.

Fixpoint trimStart (s : string) : string :=
  match s with
  | EmptyString => EmptyString
  | String c s' => if is_space c then trimStart s' else s
  end.

Fixpoint trimEnd (s : string) : string :=
  match s with
  | EmptyString => EmptyString
  | String c s' =>
      match trimEnd s' with
      | EmptyString => if is_space c then EmptyString else String c EmptyString
      | String c' t => String c (String c' t)
      end
  end.

Definition trim (s : string) : string := trimEnd (trimStart s).

(** A run of white space. *)
Fixpoint all_space (s : string) : bool :=
  match s with
  | EmptyString => true
  | String c s' => is_space c && all_space s'
  end.

(** [/pat/.test(s)] for a literal pattern: [pat] occurs somewhere in [s]. *)
Fixpoint contains (pat s : string) : bool :=
  if String.prefix pat s then true
  else match s with
       | EmptyString => false
       | String _ s' => contains pat s'
       end.

Fixpoint drop (n : nat) (s : string) : string :=
  match n, s with
  | O, _ => s
  | S _, EmptyString => EmptyString
  | S n', String _ s' => drop n' s'
  end.

(** [post\s*office] matched at the head of [s]. *)
Definition post_office_here (s : string) : bool :=
  String.prefix "post" s && String.prefix "office" (trimStart (drop 4 s)).

(** [/post\s*office/.test(s)]. *)
Fixpoint test_post_office (s : string) : bool :=
  if post_office_here s then true
  else match s with
       | EmptyString => false
       | String _ s' => test_post_office s'
       end.

(** [s.replace(from, to)] for one-character strings: the first occurrence
    only. *)
Fixpoint replace_first (from to : ascii) (s : string) : string :=
  match s with
  | EmptyString => EmptyString
  | String c s' =>
      if Ascii.eqb c from then String to s'
      else String c (replace_first from to s')
  end.

Definition CATEGORIES : list (string * string) :=
  [("restaurant", "Restaurants"); ("cafe", "Cafes");
   ("fast_food", "Fast Food"); ("tourism", "Attractions");
   ("museum", "Museums"); ("post_office", "Post Offices")].

(** The chain of [if]s of [sendMessage] that reads a category off the
    lower-cased text. *)
Definition infer_category (lower : string) : option string :=
  if test_post_office lower || contains "mail" lower || contains "usps" lower
  then Some "post_office"
  else if contains "restaurant" lower || contains "eat" lower
          || contains "dine" lower || contains "food" lower
  then Some "restaurant"
  else if contains "coffee" lower || contains "cafe" lower
  then Some "cafe"
  else if contains "museum" lower || contains "gallery" lower
  then Some "museum"
  else if contains "attraction" lower || contains "landmark" lower
          || contains "tourist" lower
  then Some "tourism"
  else None.

(** [a || b] on strings that may be undefined or null. *)
Definition opt_or (a b : option string) : option string :=
  match a with
  | Some v => if truthy_str v then Some v else b
  | None => b
  end.

Inductive LLMProvider : Type := openai | localai.

Definition provider_name (p : LLMProvider) : string :=
  match p with openai => "openai" | localai => "localai" end.

(** [import.meta.env]. *)
Record Env : Type := mkEnv {
  VITE_OPENAI_API_KEY : option string;
  VITE_LLM_PROVIDER : option string;
  VITE_LOCALAI_BASE_URL : option string;
  VITE_LOCALAI_MODEL : option string;
  VITE_OPENAI_MODEL : option string
}.

(** [localStorage]. *)
Definition Storage : Type := string -> option string.

Definition getItem (key : string) (ls : Storage) : option string := ls key.

Definition setItem (key value : string) (ls : Storage) : Storage :=
  fun k => if String.eqb k key then Some value else ls k.

Definition removeItem (key : string) (ls : Storage) : Storage :=
  fun k => if String.eqb k key then None else ls k.

Definition getOpenAIKey (env : Env) (ls : Storage) : option string :=
  let envKey := VITE_OPENAI_API_KEY env in
  let stored := opt_or (getItem "openai_api_key" ls) None in
  opt_or envKey stored.

Definition getLLMProvider (env : Env) (ls : Storage) : LLMProvider :=
  let fromEnv := option_map toLowerCase (VITE_LLM_PROVIDER env) in
  let fromLocal := toLowerCase (str_or (getItem "llm_provider" ls) "") in
  let val :=
    if truthy_str fromLocal then fromLocal else str_or fromEnv "openai" in
  if String.eqb val "localai" then localai else openai.

Record LLMConfig : Type := mkConfig {
  cfg_provider : LLMProvider;
  cfg_baseUrl : string;
  cfg_model : string;
  cfg_apiKey : option string
}.

Definition getLLMConfig (env : Env) (ls : Storage) : LLMConfig :=
  match getLLMProvider env ls with
  | localai =>
      {| cfg_provider := localai;
         cfg_baseUrl :=
           str_or (getItem "localai_base_url" ls)
             (str_or (VITE_LOCALAI_BASE_URL env) "http://localhost:8080/v1");
         cfg_model :=
           str_or (getItem "localai_model" ls)
             (str_or (VITE_LOCALAI_MODEL env) "gpt-3.5-turbo");
         cfg_apiKey := opt_or (getItem "localai_api_key" ls) None |}
  | openai =>
      {| cfg_provider := openai;
         cfg_baseUrl := "https://api.openai.com/v1";
         cfg_model := str_or (VITE_OPENAI_MODEL env) "gpt-4o-mini";
         cfg_apiKey := getOpenAIKey env ls |}
  end.

Definition truthy_opt (o : option string) : bool :=
  match o with Some v => truthy_str v | None => false end.

Definition hasLLMConfig (env : Env) (ls : Storage) : bool :=
  let cfg := getLLMConfig env ls in
  match cfg_provider cfg with
  | localai => truthy_str (cfg_baseUrl cfg) && truthy_str (cfg_model cfg)
  | openai => truthy_opt (cfg_apiKey cfg)
  end.

(** ** The chat: the model endpoint *)

Inductive UserContent : Type :=
| UserText (text : string)
| UserImage (text : string) (image_url : string).

(** A POST to [`${cfg.baseUrl}/chat/completions`]. *)
Record LLMRequest : Type := mkLLMRequest {
  rq_url : string;
  rq_authorization : option string;
  rq_model : string;
  rq_system : string;
  rq_user : UserContent
}.

Record ChoiceMessage : Type := mkChoiceMessage { msg_content : option string }.

Record Choice : Type := mkChoice { ch_message : option ChoiceMessage }.

(** The parsed answer of the endpoint; [LLM_null] is the JSON [null]. *)
Inductive LLMJson : Type :=
| LLM_null
| LLM_value (choices : option (list Choice)).

(** [json.choices?.[0]?.message?.content]. *)
Definition first_content (choices : option (list Choice)) : option string :=
  match choices with
  | Some (ch :: _) =>
      match ch_message ch with
      | Some m => msg_content m
      | None => None
      end
  | _ => None
  end.

Definition llm_headers_authorization (cfg : LLMConfig) : option string :=
  match cfg_apiKey cfg with
  | Some k => if truthy_str k then Some ("Bearer " ++ k)%string else None
  | None => None
  end.

(** The request, the status check, the parse and the reading of the first
    choice, shared in shape by [llmChat] and [analyzeFrame]. *)
Definition llm_post (req : LLMRequest) (error_prefix fallback : string)
  (answer : Fetched LLMJson) (sent : list LLMRequest)
  : Outcome string * list LLMRequest :=
  match answer with
  | NetworkError => (Rejected FetchFailed, (sent ++ [req])%list)
  | Answer res =>
      if negb (ok res)
      then (Rejected (Err (error_prefix ++ String_of_Z (status res))),
            (sent ++ [req])%list)
      else match body res with
           | None => (Rejected SyntaxError, (sent ++ [req])%list)
           | Some LLM_null => (Rejected TypeError, (sent ++ [req])%list)
           | Some (LLM_value choices) =>
               (Resolved (nullish (first_content choices) fallback),
                (sent ++ [req])%list)
           end
  end.

Definition tour_guide_system : string :=
  "You are a friendly tour guide. Use user GPS and camera context to recommend nearby dining, attractions, and identify landmarks. Be concise and helpful.".

Section Chat.

(** [`${x}`] for a number. *)
Variable Number_toString : R -> string.

Variable boundsView : list LatLng -> LatLng * R.

Variable env : Env.

(** [contentParts] of [llmChat]. *)
Definition contentParts (prompt : string) (location : option Coords)
  (visionDescription : option string) : list string :=
  ([prompt]
   ++ match location with
      | Some l =>
          [("Location: " ++ Number_toString (lat l) ++ ", "
            ++ Number_toString (lon l))%string]
      | None => []
      end
   ++ (if truthy_opt visionDescription
       then [("Vision: " ++ nullish visionDescription "")%string]
       else []))%list.

Definition newline : string := String (ascii_of_nat 10) EmptyString.

Definition llmChat (ls : Storage) (prompt : string)
  (location : option Coords) (visionDescription : option string)
  (answer : Fetched LLMJson) (sent : list LLMRequest)
  : Outcome string * list LLMRequest :=
  let cfg := getLLMConfig env ls in
  if negb (hasLLMConfig env ls) then
    let loc :=
      match location with
      | Some l =>
          " You are near (" ++ toFixed4 (lat l) ++ ", " ++ toFixed4 (lon l)
          ++ ")."
      | None => ""
      end in
    let vis :=
      if truthy_opt visionDescription
      then " Camera sees: " ++ nullish visionDescription "" ++ "."
      else "" in
    (Resolved ("LLM not configured. " ++ loc ++ vis
               ++ " Based on nearby data, consider local restaurants, cafes, museums, and attractions.")%string,
     sent)
  else
    llm_post
      {| rq_url := cfg_baseUrl cfg ++ "/chat/completions";
         rq_authorization := llm_headers_authorization cfg;
         rq_model := cfg_model cfg;
         rq_system := tour_guide_system;
         rq_user :=
           UserText (String.concat newline
                       (contentParts prompt location visionDescription)) |}
      "LLM error: " "No response" answer sent.

(** *** The component with its chat *)

Record Session : Type := mkSession {
  component : State;
  input : string;
  apiKeyInput : string;
  provider : LLMProvider;
  localBaseUrl : string;
  localModel : string;
  cameraActive : bool;
  visionDesc : option string;
  localStorage : Storage;
  llm_sent : list LLMRequest
}.

Definition initial_session (ls : Storage) : Session :=
  {| component := initial;
     input := "";
     apiKeyInput := str_or (getItem "openai_api_key" ls) "";
     provider := getLLMProvider env ls;
     localBaseUrl :=
       str_or (getItem "localai_base_url" ls)
         (str_or (VITE_LOCALAI_BASE_URL env) "http://localhost:8080/v1");
     localModel :=
       str_or (getItem "localai_model" ls)
         (str_or (VITE_LOCALAI_MODEL env) "gpt-3.5-turbo");
     cameraActive := false;
     visionDesc := None;
     localStorage := ls;
     llm_sent := [] |}.

Definition with_component (st : State) (s : Session) : Session :=
  mkSession st (input s) (apiKeyInput s) (provider s) (localBaseUrl s)
    (localModel s) (cameraActive s) (visionDesc s) (localStorage s)
    (llm_sent s).

Definition setInput (t : string) (s : Session) : Session :=
  mkSession (component s) t (apiKeyInput s) (provider s) (localBaseUrl s)
    (localModel s) (cameraActive s) (visionDesc s) (localStorage s)
    (llm_sent s).

Definition setApiKeyInput (t : string) (s : Session) : Session :=
  mkSession (component s) (input s) t (provider s) (localBaseUrl s)
    (localModel s) (cameraActive s) (visionDesc s) (localStorage s)
    (llm_sent s).

Definition setProvider (p : LLMProvider) (s : Session) : Session :=
  mkSession (component s) (input s) (apiKeyInput s) p (localBaseUrl s)
    (localModel s) (cameraActive s) (visionDesc s) (localStorage s)
    (llm_sent s).

Definition setLocalBaseUrl (t : string) (s : Session) : Session :=
  mkSession (component s) (input s) (apiKeyInput s) (provider s) t
    (localModel s) (cameraActive s) (visionDesc s) (localStorage s)
    (llm_sent s).

Definition setLocalModel (t : string) (s : Session) : Session :=
  mkSession (component s) (input s) (apiKeyInput s) (provider s)
    (localBaseUrl s) t (cameraActive s) (visionDesc s) (localStorage s)
    (llm_sent s).

Definition setCameraActive (b : bool) (s : Session) : Session :=
  mkSession (component s) (input s) (apiKeyInput s) (provider s)
    (localBaseUrl s) (localModel s) b (visionDesc s) (localStorage s)
    (llm_sent s).

Definition setVisionDesc (d : option string) (s : Session) : Session :=
  mkSession (component s) (input s) (apiKeyInput s) (provider s)
    (localBaseUrl s) (localModel s) (cameraActive s) d (localStorage s)
    (llm_sent s).

Definition set_localStorage (ls : Storage) (s : Session) : Session :=
  mkSession (component s) (input s) (apiKeyInput s) (provider s)
    (localBaseUrl s) (localModel s) (cameraActive s) (visionDesc s) ls
    (llm_sent s).

Definition set_llm_sent (l : list LLMRequest) (s : Session) : Session :=
  mkSession (component s) (input s) (apiKeyInput s) (provider s)
    (localBaseUrl s) (localModel s) (cameraActive s) (visionDesc s)
    (localStorage s) l.

(** [setMessages((m) => [...m, { role, content }])]. *)
Definition say (r : Role) (text : string) (s : Session) : Session :=
  with_component (push_message (mkMsg r text) (component s)) s.

(** The three Save buttons of the settings. *)
Definition saveProvider (s : Session) : Session :=
  let s := set_localStorage
             (setItem "llm_provider" (provider_name (provider s))
                (localStorage s)) s in
  say assistant ("Provider set to " ++ provider_name (provider s) ++ ".") s.

Definition saveOpenAIKey (s : Session) : Session :=
  if truthy_str (trim (apiKeyInput s)) then
    let s := set_localStorage
               (setItem "openai_api_key" (trim (apiKeyInput s))
                  (localStorage s)) s in
    say assistant "OpenAI key saved locally." s
  else
    let s := set_localStorage
               (removeItem "openai_api_key" (localStorage s)) s in
    say assistant "OpenAI key cleared." s.

Definition saveLocalAI (s : Session) : Session :=
  let ls := setItem "localai_base_url" (trim (localBaseUrl s))
              (localStorage s) in
  let ls := setItem "localai_model" (trim (localModel s)) ls in
  say assistant "LocalAI settings saved." (set_localStorage ls s).

(** [toggleCamera]; [granted] is whether [getUserMedia] resolves. *)
Definition toggleCamera (granted : bool) (s : Session) : Session :=
  if cameraActive s then setCameraActive false s
  else if granted then setCameraActive true s
  else say assistant "Unable to access camera." s.

(** [analyzeFrame]; [frame] is the data URL of the captured frame, absent
    when the video, the canvas or its context is missing. *)
Definition analyzeFrame (frame : option string) (answer : Fetched LLMJson)
  (s : Session) : Session :=
  match frame with
  | None => s
  | Some dataUrl =>
      if negb (hasLLMConfig env (localStorage s)) then
        let s :=
          setVisionDesc
            (Some "Camera frame captured. Configure LocalAI/OpenAI to enable vision analysis.")
            s in
        say assistant
          "Captured a frame. Vision analysis requires an image-capable LLM model."
          s
      else
        let cfg := getLLMConfig env (localStorage s) in
        let '(got, sent) :=
          llm_post
            {| rq_url := cfg_baseUrl cfg ++ "/chat/completions";
               rq_authorization := llm_headers_authorization cfg;
               rq_model := cfg_model cfg;
               rq_system :=
                 "Describe the scene succinctly for a tour guide use-case. Identify notable objects or landmarks.";
               rq_user :=
                 UserImage
                   "What is in this photo? Focus on landmarks or notable items."
                   dataUrl |}
            "Vision error: " "No description available." answer
            (llm_sent s) in
        let s := set_llm_sent sent s in
        match got with
        | Resolved desc =>
            say assistant ("Camera analysis: " ++ desc)
              (setVisionDesc (Some desc) s)
        | Rejected _ =>
            say assistant
              "Vision analysis failed or model not multimodal. Try OCR or switch provider/model."
              s
        end
  end.

(** [sendMessage]; [poi] and [llm] are what the place service and the model
    endpoint answer, should the handler ask them. *)
Definition sendMessage (poi : Fetched OverpassJson) (llm : Fetched LLMJson)
  (s : Session) : Session :=
  let text := trim (input s) in
  if negb (truthy_str text) then s
  else
    let s := setInput "" s in
    let s := say user text s in
    let st := component s in
    if negb (hasLLMConfig env (localStorage s)) then
      let lower := toLowerCase text in
      match coords st, infer_category lower with
      | Some c, Some inferredCategory =>
          let '(got, log) :=
            fetchOverpassPlaces c inferredCategory 1500 poi (requests st) in
          let st := set_requests log st in
          match got with
          | Resolved results =>
              let st := setPlaces results st in
              let summary :=
                String.concat ", " (map place_summary (firstn 5 results)) in
              let shown :=
                replace_first "_"%char " "%char inferredCategory in
              let st :=
                push_message
                  (mkMsg assistant
                     (if truthy_str summary
                      then "Nearby " ++ shown ++ ": " ++ summary
                      else "No nearby " ++ shown ++ " found."))
                  st in
              with_component (commit boundsView false false true st) s
          | Rejected _ =>
              say assistant "Chat service is unavailable at the moment."
                (with_component st s)
          end
      | _, _ =>
          let loc :=
            match coords st with
            | Some c =>
                " You are near (" ++ toFixed4 (lat c) ++ ", "
                ++ toFixed4 (lon c) ++ ")."
            | None => ""
            end in
          say assistant
            ("LLM not configured." ++ loc
             ++ " Use the Nearby button or share location for recommendations.")
            s
      end
    else
      let '(got, sent) :=
        llmChat (localStorage s) text (coords st) (visionDesc s) llm
          (llm_sent s) in
      let s := set_llm_sent sent s in
      match got with
      | Resolved reply => say assistant reply s
      | Rejected _ =>
          say assistant "Chat service is unavailable at the moment." s
      end.

Inductive SessionEvent : Type :=
| SevComponent (ev : Event)
| SevInput (text : string)
| SevSend (poi : Fetched OverpassJson) (llm : Fetched LLMJson)
| SevSelectProvider (p : LLMProvider)
| SevSaveProvider
| SevApiKeyInput (text : string)
| SevSaveOpenAIKey
| SevLocalBaseUrl (text : string)
| SevLocalModel (text : string)
| SevSaveLocalAI
| SevToggleCamera (granted : bool)
| SevAnalyze (frame : option string) (answer : Fetched LLMJson).

Definition handle_session (ev : SessionEvent) (s : Session) : Session :=
  match ev with
  | SevComponent e => with_component (handle boundsView e (component s)) s
  | SevInput text => setInput text s
  | SevSend poi llm => sendMessage poi llm s
  | SevSelectProvider p => setProvider p s
  | SevSaveProvider => saveProvider s
  | SevApiKeyInput text => setApiKeyInput text s
  | SevSaveOpenAIKey => saveOpenAIKey s
  | SevLocalBaseUrl text => setLocalBaseUrl text s
  | SevLocalModel text => setLocalModel text s
  | SevSaveLocalAI => saveLocalAI s
  | SevToggleCamera granted => toggleCamera granted s
  | SevAnalyze frame answer => analyzeFrame frame answer s
  end.

(** The states of the whole component, chat, settings and camera
    included. *)
Inductive session_reachable : Session -> Prop :=
| sreach_initial (ls : Storage) : session_reachable (initial_session ls)
| sreach_step (ev : SessionEvent) (s : Session) :
    session_reachable s -> session_reachable (handle_session ev s).

End Chat.

Local Open Scope list_scope.

(** What holds of the component between two events. *)
Definition component_ok (st : State) : Prop :=
  watch_inv st /\ map_synced st /\ guidance_paired st /\
  loadingPOI st = false.

(** What the chat leaves alone in the component. *)
Record navigation_kept (st st' : State) : Prop := mk_navigation_kept {
  nk_coords : coords st' = coords st;
  nk_routeSteps : routeSteps st' = routeSteps st;
  nk_nextTurnText : nextTurnText st' = nextTurnText st;
  nk_nextTurnDistance : nextTurnDistance st' = nextTurnDistance st;
  nk_nextTurnMarkerRef : nextTurnMarkerRef st' = nextTurnMarkerRef st;
  nk_routePolylineRef : routePolylineRef st' = routePolylineRef st;
  nk_watchIdRef : watchIdRef st' = watchIdRef st;
  nk_geo_watches : geo_watches st' = geo_watches st;
  nk_guidanceCleanup : guidanceCleanup st' = guidanceCleanup st;
  nk_loadingPOI : loadingPOI st' = loadingPOI st;
  nk_locError : locError st' = locError st
}.

(** The description [analyzeFrame] stores when no model is configured. *)
Definition vision_placeholder : string :=
  "Camera frame captured. Configure LocalAI/OpenAI to enable vision analysis.".

(** ** Sample sessions *)

(** An environment that sets nothing, one that gives a key, an empty local
    storage, one in which LocalAI was saved, and a rendering of numbers. *)
Definition bare_env : Env := mkEnv None None None None None.

Definition keyed_env : Env := mkEnv (Some "sk-env") None None None None.

Definition empty_storage : Storage := fun _ => None.

Definition localai_storage : Storage :=
  setItem "llm_provider" "localai" empty_storage.

Definition zero_text (x : R) : string := "0".

Definition run_session (evs : list SessionEvent) (s : Session) : Session :=
  fold_left (fun s ev => handle_session zero_text flat_view bare_env ev s)
    evs s.

(** Located at the origin and guided along [tie_a], with 'coffee' typed in
    the chat. *)
Definition touring : Session :=
  run_session
    [SevComponent (EvPreloadPosition (mkPosition 0 0));
     SevComponent (EvRouteTo somewhere (route_answer [tie_a]));
     SevInput "coffee"]
    (initial_session bare_env empty_storage).

(** A frame analysed before any key is saved, then a key saved and a
    question typed. *)
Definition keyed : Session :=
  run_session
    [SevAnalyze (Some "data:image/jpeg;base64,") NetworkError;
     SevApiKeyInput " sk-1 "; SevSaveOpenAIKey; SevInput "hello"]
    (initial_session bare_env empty_storage).

(** A routing answer whose first route has steps but no geometry. *)
Definition hollow_answer : Fetched OSRMRouteResponse :=
  Answer (mkResponse true 200
            (Some (OSRM_value
                     (Some [mkRoute [] (Some [mkLeg (Some [tie_b])])])))).

(** The place [located_element] gives to a user who stands on it. *)
Definition place_underfoot : Place :=
  place_of_element (mkCoords 1 1) "cafe" located_element.

(* ------------------------------------------------------------------ *)
(** * Properties *)

(** ** GeoDistance *)

Lemma haversine_c_sym (a b : Coords) : haversine_c a b = haversine_c b a.
Proof.
  unfold haversine_c, toRad.
  replace ((lat a - lat b) * PI / 180 / 2)
    with (- ((lat b - lat a) * PI / 180 / 2)) by field.
  replace ((lon a - lon b) * PI / 180 / 2)
    with (- ((lon b - lon a) * PI / 180 / 2)) by field.
  rewrite !sin_neg. ring.
Qed.

Lemma haversine_c_refl (a : Coords) : haversine_c a a = 0.
Proof.
  unfold haversine_c, toRad.
  replace ((lat a - lat a) * PI / 180 / 2) with 0 by field.
  replace ((lon a - lon a) * PI / 180 / 2) with 0 by field.
  rewrite sin_0. ring.
Qed.

Lemma asin_nonneg (x : R) : 0 <= x -> 0 <= asin x.
Proof.
  intros Hx.
  destruct (Rle_dec 1 x) as [H1 | H1].
  - unfold asin. destruct (Rle_dec x (-1)); [lra |].
    destruct (Rle_dec 1 x); [| lra].
    pose proof PI_RGT_0. lra.
  - destruct (Req_dec x 0) as [-> | Hne]; [rewrite asin_0; lra |].
    rewrite asin_atan by lra.
    rewrite <- atan_0. left. apply atan_increasing.
    apply Rdiv_lt_0_compat; [lra |].
    apply sqrt_lt_R0. unfold Rsqr. nra.
Qed.

Lemma haversine_nonneg (a b : Coords) : 0 <= haversine a b.
Proof.
  unfold haversine, EARTH_R.
  assert (0 <= asin (Rmin 1 (sqrt (haversine_c a b)))).
  { apply asin_nonneg. apply Rmin_glb; [lra | apply sqrt_pos]. }
  nra.
Qed.

Lemma PI_lower : 3135 / 1000 < PI.
Proof.
  pose proof (PI_2_3_7_ineq 0) as [H _].
  unfold sum_f_R0, tg_alt, PI_2_3_7_tg, Ratan_seq in H.
  simpl in H. lra.
Qed.

Lemma PI_upper : PI < 3143 / 1000.
Proof.
  pose proof (PI_2_3_7_ineq 1) as [_ H].
  unfold sum_f_R0, tg_alt, PI_2_3_7_tg, Ratan_seq in H.
  simpl in H. lra.
Qed.

Lemma haversine_equator_degree :
  haversine (mkCoords 0 0) (mkCoords 0 1) = EARTH_R * PI / 180.
Proof.
  pose proof PI_RGT_0 as Hpi.
  unfold haversine, haversine_c, toRad; simpl.
  replace ((0 - 0) * PI / 180 / 2) with 0 by field.
  replace (0 * PI / 180) with 0 by field.
  replace ((1 - 0) * PI / 180 / 2) with (PI / 360) by field.
  rewrite sin_0, cos_0.
  replace (0 * 0 + 1 * 1 * sin (PI / 360) * sin (PI / 360))
    with (Rsqr (sin (PI / 360))) by (unfold Rsqr; ring).
  assert (Hs : 0 < sin (PI / 360)) by (apply sin_gt_0; lra).
  rewrite sqrt_Rsqr by lra.
  rewrite Rmin_right by (pose proof (SIN_bound (PI / 360)); lra).
  rewrite asin_sin by lra.
  field.
Qed.

(** The properties of the distance function: it is never negative, it
    vanishes between a point and itself, it is symmetric, and one degree of
    longitude on the equator measures 111,195 m to within one percent
    (claim C7). *)
Theorem C7_haversine_distance :
  EARTH_R = 6371000 /\
  (forall a b : Coords, 0 <= haversine a b) /\
  (forall a : Coords, haversine a a = 0) /\
  (forall a b : Coords, haversine a b = haversine b a) /\
  Rabs (haversine (mkCoords 0 0) (mkCoords 0 1) - 111195) <= 111195 / 100.
Proof.
  split; [reflexivity |].
  split; [exact haversine_nonneg |].
  split.
  { intros a. unfold haversine. rewrite haversine_c_refl, sqrt_0.
    rewrite Rmin_right by lra. rewrite asin_0. ring. }
  split.
  { intros a b. unfold haversine. now rewrite haversine_c_sym. }
  rewrite haversine_equator_degree. unfold EARTH_R.
  pose proof PI_lower. pose proof PI_upper.
  apply Rabs_le. lra.
Qed.

(** The half-chord is never negative, so [Math.sqrt] is applied inside its
    domain whatever the latitudes are. *)
Lemma haversine_c_nonneg (a b : Coords) : 0 <= haversine_c a b.
Proof.
  unfold haversine_c.
  set (p := toRad (lat a)). set (q := toRad (lat b)).
  replace (toRad (lat b - lat a) / 2) with ((q - p) / 2)
    by (unfold p, q, toRad; field).
  set (t := sin (toRad (lon b - lon a) / 2)).
  assert (Hhalf : sin ((q - p) / 2) * sin ((q - p) / 2)
                  = (1 - cos (q - p)) / 2).
  { replace (q - p) with (2 * ((q - p) / 2)) at 3 by field.
    rewrite cos_2a_sin. field. }
  rewrite Hhalf, cos_minus.
  pose proof (sin2_cos2 p) as Hp. pose proof (sin2_cos2 q) as Hq.
  pose proof (sin2_cos2 (toRad (lon b - lon a) / 2)) as Ht.
  fold t in Ht. unfold Rsqr in *.
  set (sp := sin p) in *. set (cp := cos p) in *.
  set (sq := sin q) in *. set (cq := cos q) in *.
  set (ct := cos (toRad (lon b - lon a) / 2)) in *.
  assert (Ht1 : 0 <= t * t <= 1).
  { pose proof (Rle_0_sqr t) as A. pose proof (Rle_0_sqr ct) as B.
    unfold Rsqr in A, B. lra. }
  assert (H1 : 0 <= 1 - cp * cq - sp * sq).
  { pose proof (Rle_0_sqr (cp - cq)) as A. pose proof (Rle_0_sqr (sp - sq)) as B.
    unfold Rsqr in A, B. lra. }
  assert (H2 : 0 <= 1 + cp * cq - sp * sq).
  { pose proof (Rle_0_sqr (cp + cq)) as A. pose proof (Rle_0_sqr (sp - sq)) as B.
    unfold Rsqr in A, B. lra. }
  replace ((1 - (cq * cp + sq * sp)) / 2 + cp * cq * t * t)
    with ((1 - t * t) * ((1 - cp * cq - sp * sq) / 2)
          + (t * t) * ((1 + cp * cq - sp * sq) / 2)) by field.
  apply Rplus_le_le_0_compat; apply Rmult_le_pos; lra.
Qed.

(** ** The nearest-maneuver loop *)

Lemma num_lt_true (d : R) (b : number) :
  num_lt d b = true <-> match b with Fin r => d < r | Infinity => True end.
Proof.
  destruct b as [r |]; simpl; [| tauto].
  destruct (Rlt_dec d r); split; intros; try discriminate; tauto.
Qed.

Lemma num_lt_false (d : R) (b : number) :
  num_lt d b = false <-> match b with Fin r => r <= d | Infinity => False end.
Proof.
  destruct b as [r |]; simpl.
  - destruct (Rlt_dec d r); split; intros; try discriminate; try lra; auto.
  - split; [discriminate | tauto].
Qed.

Lemma maneuver_dist_eq (c : Coords) (s : RouteStep) (m : Maneuver) :
  maneuver s = Some m ->
  maneuver_dist c s = Some (distanceToManeuver c (location m)).
Proof. intros H. unfold maneuver_dist. now rewrite H. Qed.

(** What the loop returns when entered at index [i] with a current best:
    either nothing in [rest] beats the current best, or the result is the
    first position of [rest] that attains the least distance of [rest], and
    that distance beats the current best. *)
Lemma nearest_loop_spec (c : Coords) (rest : list RouteStep) :
  forall (i bestIdx : Z) (bestDist : number),
    (nearest_loop c rest i bestIdx bestDist = (bestIdx, bestDist) /\
     forall s d, In s rest -> maneuver_dist c s = Some d ->
                 num_lt d bestDist = false)
    \/
    (exists (k : nat) (s : RouteStep) (d : R),
        nth_error rest k = Some s /\ maneuver_dist c s = Some d /\
        nearest_loop c rest i bestIdx bestDist
        = ((i + Z.of_nat k)%Z, Fin d) /\
        num_lt d bestDist = true /\
        forall (j : nat) (s' : RouteStep) (d' : R),
          nth_error rest j = Some s' -> maneuver_dist c s' = Some d' ->
          d <= d' /\ ((j < k)%nat -> d < d')).
Proof.
  induction rest as [| s rest IH]; intros i bestIdx bestDist.
  - left. split; [reflexivity | intros s d []].
  - simpl. destruct (maneuver s) as [m |] eqn:Hm.
    + pose proof (maneuver_dist_eq c s m Hm) as Hd0.
      set (d0 := distanceToManeuver c (location m)) in *.
      destruct (num_lt d0 bestDist) eqn:Hlt.
      * (* the head becomes the best *)
        destruct (IH (i + 1)%Z i (Fin d0))
          as [[Heq Hall] | (k & s1 & d & Hk & Hd & Heq & Hbeat & Hmin)].
        -- right. exists 0%nat, s, d0. rewrite Heq.
           repeat split; auto.
           ++ f_equal. lia.
           ++ destruct j as [| j]; simpl in H.
              ** injection H as <-. rewrite Hd0 in H0. injection H0 as <-. lra.
              ** apply nth_error_In in H.
                 specialize (Hall _ _ H H0). apply num_lt_false in Hall.
                 exact Hall.
           ++ intros Hj. lia.
        -- right. exists (S k), s1, d. rewrite Heq.
           apply num_lt_true in Hbeat. simpl in Hbeat.
           repeat split; auto.
           ++ f_equal. lia.
           ++ apply num_lt_true. apply num_lt_true in Hlt.
              destruct bestDist; [lra | exact I].
           ++ destruct j as [| j]; simpl in H.
              ** injection H as <-. rewrite Hd0 in H0. injection H0 as <-. lra.
              ** apply (Hmin j s' d' H H0).
           ++ intros Hj. destruct j as [| j]; simpl in H.
              ** injection H as <-. rewrite Hd0 in H0. injection H0 as <-. lra.
              ** apply (Hmin j s' d' H H0). lia.
      * (* the head does not beat the current best *)
        destruct (IH (i + 1)%Z bestIdx bestDist)
          as [[Heq Hall] | (k & s1 & d & Hk & Hd & Heq & Hbeat & Hmin)].
        -- left. split; [exact Heq |].
           intros s' d' [<- | Hin] Hd'.
           ++ rewrite Hd0 in Hd'. injection Hd' as <-. exact Hlt.
           ++ eauto.
        -- right. exists (S k), s1, d. rewrite Heq.
           assert (Hstrict : d < d0).
           { apply num_lt_true in Hbeat. apply num_lt_false in Hlt.
             destruct bestDist; [lra | contradiction]. }
           repeat split; auto.
           ++ f_equal. lia.
           ++ destruct j as [| j]; simpl in H.
              ** injection H as <-. rewrite Hd0 in H0. injection H0 as <-. lra.
              ** apply (Hmin j s' d' H H0).
           ++ intros Hj. destruct j as [| j]; simpl in H.
              ** injection H as <-. rewrite Hd0 in H0. injection H0 as <-. lra.
              ** apply (Hmin j s' d' H H0). lia.
    + (* no maneuver: continue *)
      assert (Hnone : maneuver_dist c s = None)
        by (unfold maneuver_dist; now rewrite Hm).
      destruct (IH (i + 1)%Z bestIdx bestDist)
        as [[Heq Hall] | (k & s1 & d & Hk & Hd & Heq & Hbeat & Hmin)].
      * left. split; [exact Heq |].
        intros s' d' [<- | Hin] Hd'; [congruence | eauto].
      * right. exists (S k), s1, d. rewrite Heq.
        repeat split; auto.
        -- f_equal. lia.
        -- destruct j as [| j]; simpl in H.
           ++ injection H as <-. congruence.
           ++ apply (Hmin j s' d' H H0).
        -- intros Hj. destruct j as [| j]; simpl in H.
           ++ injection H as <-. congruence.
           ++ apply (Hmin j s' d' H H0). lia.
Qed.

(** The selection as a whole: no maneuver gives [(-1, Infinity)]; otherwise
    the index is the first one whose maneuver is at the least distance. *)
Lemma nearest_spec (c : Coords) (steps : list RouteStep) :
  (nearest c steps = ((-1)%Z, Infinity) /\
   forall s, In s steps -> maneuver s = None)
  \/
  (exists (k : nat) (s : RouteStep) (d : R),
      nth_error steps k = Some s /\ maneuver_dist c s = Some d /\
      nearest c steps = (Z.of_nat k, Fin d) /\
      forall (j : nat) (s' : RouteStep) (d' : R),
        nth_error steps j = Some s' -> maneuver_dist c s' = Some d' ->
        d <= d' /\ ((j < k)%nat -> d < d')).
Proof.
  unfold nearest.
  destruct (nearest_loop_spec c steps 0 (-1) Infinity)
    as [[Heq Hall] | (k & s & d & Hk & Hd & Heq & _ & Hmin)].
  - left. split; [exact Heq |].
    intros s Hin. destruct (maneuver s) as [m |] eqn:Hm; [| reflexivity].
    specialize (Hall s _ Hin (maneuver_dist_eq c s m Hm)). discriminate.
  - right. exists k, s, d. rewrite Heq. simpl. auto.
Qed.

(** ** Effects and handlers *)

Section ComponentFacts.

Variable boundsView : list LatLng -> LatLng * R.

Lemma effect_frame_refl (st : State) : effect_frame st st.
Proof. constructor; reflexivity. Qed.

Lemma effect_frame_trans (a b c : State) :
  effect_frame a b -> effect_frame b c -> effect_frame a c.
Proof.
  intros [] []. constructor; congruence.
Qed.

Lemma stop_watch_frame (st : State) : effect_frame st (stop_watch st).
Proof. unfold stop_watch. destruct (watchIdRef st); constructor; reflexivity. Qed.

Lemma guidance_cleanup_frame (st : State) :
  effect_frame st (guidance_cleanup st).
Proof.
  unfold guidance_cleanup, stop_watch.
  destruct (guidanceCleanup st); [| apply effect_frame_refl].
  destruct (watchIdRef st); constructor; reflexivity.
Qed.

Lemma guidance_effect_frame (st : State) :
  effect_frame st (guidance_effect st).
Proof.
  unfold guidance_effect, stop_watch.
  destruct (coords st); destruct (routeSteps st); destruct (watchIdRef st);
    constructor; reflexivity.
Qed.

Lemma map_init_effect_frame (st : State) :
  effect_frame st (map_init_effect st).
Proof.
  unfold map_init_effect.
  destruct (coords st); destruct (mapRef st); constructor; reflexivity.
Qed.

Lemma markers_effect_frame (st : State) :
  effect_frame st (markers_effect boundsView st).
Proof.
  unfold markers_effect.
  destruct (mapRef st); [| apply effect_frame_refl].
  destruct (markersLayerRef st); [| apply effect_frame_refl].
  match goal with |- context [if ?b then _ else _] => destruct b end;
    [| constructor; reflexivity].
  match goal with |- context [fitBounds ?f ?p ?m] => destruct (fitBounds f p m) end;
    constructor; reflexivity.
Qed.

Lemma commit_frame (a b c : bool) (st : State) :
  effect_frame st (commit boundsView a b c st).
Proof.
  unfold commit.
  eapply effect_frame_trans with
    (b := if a || b then guidance_effect (guidance_cleanup st) else st).
  { destruct (a || b); [| apply effect_frame_refl].
    eapply effect_frame_trans;
      [apply guidance_cleanup_frame | apply guidance_effect_frame]. }
  set (st1 := if a || b then guidance_effect (guidance_cleanup st) else st).
  eapply effect_frame_trans with
    (b := if a then map_init_effect st1 else st1).
  { destruct a; [apply map_init_effect_frame | apply effect_frame_refl]. }
  destruct (c || a); [apply markers_effect_frame | apply effect_frame_refl].
Qed.

(** The guidance fields after the success callback, in the two cases of the
    loop's result. *)
Lemma on_position_none (steps : list RouteStep) (pos : Position) (st : State) :
  nearest (coords_of pos) steps = ((-1)%Z, Infinity) ->
  nextTurnText (on_position steps pos st) = None /\
  nextTurnDistance (on_position steps pos st) = None.
Proof.
  intros Heq. unfold on_position. rewrite Heq.
  destruct st as [? ? ? ? ? ? ? ? ? ? [m |] ? ? ? ? ? ? ? ? ?];
    split; reflexivity.
Qed.

Lemma on_position_some (steps : list RouteStep) (pos : Position) (st : State)
  (k : nat) (s : RouteStep) (d : R) :
  nearest (coords_of pos) steps = (Z.of_nat k, Fin d) ->
  nth_error steps k = Some s ->
  nextTurnText (on_position steps pos st) = Some (turn_text s) /\
  nextTurnDistance (on_position steps pos st)
  = Some (Fin (IZR (Math_round d))).
Proof.
  intros Heq Hk. unfold on_position. rewrite Heq.
  replace (0 <=? Z.of_nat k)%Z with true by (symmetry; apply Z.leb_le; lia).
  rewrite Nat2Z.id, Hk.
  destruct st as [? ? ? ? ? ? ? ? ? ? [m |] ? ? ? [mk |] ? ? ? ? ?];
    cbn -[turn_text Math_round Rmax]; destruct (maneuver s);
    split; reflexivity.
Qed.



(** When no step of the route carries a maneuver, a route of no step
    included, the loop ends with its initial index -1 and the callback puts
    null in both the guidance text and the distance; the callback is a total
    function, it raises nothing (claim C8). *)
Theorem C8_no_maneuver_empty_guidance :
  forall (steps : list RouteStep) (pos : Position) (st : State),
    (forall s, In s steps -> maneuver s = None) ->
    fst (nearest (coords_of pos) steps) = (-1)%Z /\
    nextTurnText (on_position steps pos st) = None /\
    nextTurnDistance (on_position steps pos st) = None /\
    forall (id : nat) (w : Watch),
      find_watch id (geo_watches st) = Some w -> w_steps w = steps ->
      let st' := handle boundsView (EvPosition id pos) st in
      nextTurnText st' = None /\ nextTurnDistance st' = None.
Proof.
  intros steps pos st Hnone.
  assert (Heq : nearest (coords_of pos) steps = ((-1)%Z, Infinity)).
  { destruct (nearest_spec (coords_of pos) steps)
      as [[Heq _] | (k & s & d & Hk & Hd & _)]; [exact Heq |].
    apply nth_error_In in Hk. unfold maneuver_dist in Hd.
    rewrite (Hnone s Hk) in Hd. discriminate. }
  destruct (on_position_none steps pos st Heq) as [Ht Hdist].
  split; [now rewrite Heq |]. split; [exact Ht |]. split; [exact Hdist |].
  intros id w Hw Hsteps. simpl. unfold handle. rewrite Hw, Hsteps.
  rewrite (fr_nextTurnText _ _ (commit_frame _ _ _ _)).
  rewrite (fr_nextTurnDistance _ _ (commit_frame _ _ _ _)).
  split; assumption.
Qed.

End ComponentFacts.

(** When several maneuvers are at the least distance, the loop keeps the one
    of lowest index: if [i] is the first index whose maneuver is at the
    least distance [d], the loop returns [i] and [d] (claim C10). *)
Theorem C10_tie_keeps_lowest_index :
  forall (c : Coords) (steps : list RouteStep) (i : nat) (s : RouteStep)
         (d : R),
    nth_error steps i = Some s ->
    maneuver_dist c s = Some d ->
    (forall k sk dk,
        nth_error steps k = Some sk -> maneuver_dist c sk = Some dk ->
        d <= dk /\ (dk = d -> (i <= k)%nat)) ->
    nearest c steps = (Z.of_nat i, Fin d).
Proof.
  intros c steps i s d Hi Hd Hleast.
  destruct (nearest_spec c steps)
    as [[_ Hnone] | (k & s1 & d1 & Hk & Hd1 & Heq & Hmin)].
  { apply nth_error_In in Hi. unfold maneuver_dist in Hd.
    rewrite (Hnone s Hi) in Hd. discriminate. }
  destruct (Hleast k s1 d1 Hk Hd1) as [Hle Hfirst].
  destruct (Hmin i s d Hi Hd) as [Hle' Hbefore].
  assert (d1 = d) by lra. subst d1.
  specialize (Hfirst eq_refl).
  assert (k = i).
  { destruct (Nat.eq_dec k i) as [| Hne]; [assumption |].
    assert (Hlt : (i < k)%nat) by lia. specialize (Hbefore Hlt). lra. }
  subst k. exact Heq.
Qed.

(** ** The discipline of the position watch *)

Section WatchDiscipline.

Variable boundsView : list LatLng -> LatLng * R.

Ltac break_match :=
  repeat match goal with
         | |- context [match ?x with _ => _ end] => destruct x
         end.

Lemma watch_frame_refl (st : State) : watch_frame st st.
Proof. constructor; reflexivity. Qed.

Lemma watch_frame_trans (a b c : State) :
  watch_frame a b -> watch_frame b c -> watch_frame a c.
Proof. intros [] []. constructor; congruence. Qed.

Lemma watch_inv_transport (st st' : State) :
  watch_frame st st' -> coords st' = coords st ->
  routeSteps st' = routeSteps st -> watch_inv st -> watch_inv st'.
Proof.
  intros [Hid Hws _ Hcl] Hc Hs. unfold watch_inv.
  rewrite Hid, Hws, Hcl, Hc, Hs. trivial.
Qed.

Lemma watch_weak_transport (st st' : State) :
  watch_frame st st' -> watch_weak st -> watch_weak st'.
Proof.
  intros [Hid Hws _ Hcl]. unfold watch_weak. rewrite Hid, Hws, Hcl. trivial.
Qed.

Lemma watch_inv_weak (st : State) : watch_inv st -> watch_weak st.
Proof.
  unfold watch_inv, watch_weak. destruct (watchIdRef st).
  - intros (Hws & Hcl & _). split; [eauto | exact Hcl].
  - tauto.
Qed.

Lemma map_init_effect_watch (st : State) :
  watch_frame st (map_init_effect st).
Proof.
  unfold map_init_effect.
  destruct (coords st); destruct (mapRef st); constructor; reflexivity.
Qed.

Lemma markers_effect_watch (st : State) :
  watch_frame st (markers_effect boundsView st).
Proof.
  unfold markers_effect. break_match; constructor; reflexivity.
Qed.

Lemma on_position_watch (steps : list RouteStep) (pos : Position)
  (st : State) :
  watch_frame st (on_position steps pos st).
Proof.
  unfold on_position. destruct (nearest (coords_of pos) steps) as [bi bd].
  destruct st. cbn -[turn_text Math_round Rmax nth_error].
  break_match; constructor; reflexivity.
Qed.

Lemma on_position_routeSteps (steps : list RouteStep) (pos : Position)
  (st : State) :
  routeSteps (on_position steps pos st) = routeSteps st.
Proof.
  unfold on_position. destruct (nearest (coords_of pos) steps) as [bi bd].
  destruct st. cbn -[turn_text Math_round Rmax nth_error].
  break_match; reflexivity.
Qed.

(** Stopping the watch the ref names leaves the service with none. *)
Lemma stop_watch_clears (st : State) :
  watch_weak st ->
  watchIdRef (stop_watch st) = None /\ geo_watches (stop_watch st) = [].
Proof.
  unfold watch_weak, stop_watch.
  destruct (watchIdRef st) as [id |] eqn:Hid.
  - intros [(captured & Hws) _]. simpl. rewrite Hws. simpl.
    rewrite Nat.eqb_refl. simpl. auto.
  - intros Hws. auto.
Qed.

(** The cleanup followed by the effect re-establishes the discipline. *)
Lemma guidance_restart (st : State) :
  watch_weak st -> watch_inv (guidance_effect (guidance_cleanup st)).
Proof.
  intros Hw.
  assert (Hclean : watchIdRef (guidance_cleanup st) = None /\
                   geo_watches (guidance_cleanup st) = [] /\
                   coords (guidance_cleanup st) = coords st /\
                   routeSteps (guidance_cleanup st) = routeSteps st).
  { pose proof (guidance_cleanup_frame st) as F.
    split; [| split; [| split; [apply F | apply F]]].
    - unfold guidance_cleanup. destruct (guidanceCleanup st) eqn:Hcl.
      + simpl. apply (stop_watch_clears st Hw).
      + unfold watch_weak in Hw. destruct (watchIdRef st); [| reflexivity].
        destruct Hw. congruence.
    - unfold guidance_cleanup. destruct (guidanceCleanup st) eqn:Hcl.
      + simpl. apply (stop_watch_clears st Hw).
      + unfold watch_weak in Hw. destruct (watchIdRef st); [| exact Hw].
        destruct Hw. congruence. }
  destruct Hclean as (Hid & Hws & Hc & Hs).
  set (st1 := guidance_cleanup st) in *.
  unfold guidance_effect, watch_inv, stop_watch. rewrite Hid.
  destruct (coords st1) as [c |] eqn:Hc1.
  - destruct (routeSteps st1) as [| s l] eqn:Hs1.
    + rewrite Hid, Hws, Hs1. auto.
    + simpl. rewrite Hws, Hc1, Hs1. simpl.
      repeat split; congruence.
  - rewrite Hid, Hws, Hc1. auto.
Qed.

Lemma commit_restart (a b c : bool) (st : State) :
  a || b = true -> watch_weak st -> watch_inv (commit boundsView a b c st).
Proof.
  intros Hab Hw. unfold commit. rewrite Hab.
  set (st1 := guidance_effect (guidance_cleanup st)).
  assert (H1 : watch_inv st1) by (apply guidance_restart; exact Hw).
  set (st2 := if a then map_init_effect st1 else st1).
  assert (H2 : watch_inv st2).
  { unfold st2. destruct a; [| exact H1].
    apply (watch_inv_transport st1);
      [apply map_init_effect_watch | apply map_init_effect_frame
       | apply map_init_effect_frame | exact H1]. }
  destruct (c || a); [| exact H2].
  apply (watch_inv_transport st2);
    [apply markers_effect_watch | apply markers_effect_frame
     | apply markers_effect_frame | exact H2].
Qed.

Lemma commit_places_only (st : State) :
  watch_inv st -> watch_inv (commit boundsView false false true st).
Proof.
  intros H. unfold commit. simpl.
  apply (watch_inv_transport st);
    [apply markers_effect_watch | apply markers_effect_frame
     | apply markers_effect_frame | exact H].
Qed.

Lemma fetch_route_log (mode : RoutingMode) (c : Coords) (place : Place)
  (answer : Fetched OSRMRouteResponse) (log : list Request) :
  snd (fetch_route mode c place answer log)
  = log ++ [OSRMRequest mode c (p_lon place) (p_lat place)].
Proof.
  unfold fetch_route, bind, fetch, res_json, ret, throw.
  destruct answer as [| res]; [reflexivity |]. simpl.
  destruct (ok res); simpl; [| reflexivity].
  destruct (body res) as [[| routes] |]; simpl; try reflexivity.
  destruct (first_route routes); reflexivity.
Qed.

Lemma fetchOverpassPlaces_log (c : Coords) (category : string) (radius : R)
  (answer : Fetched OverpassJson) (log : list Request) :
  snd (fetchOverpassPlaces c category radius answer log)
  = log ++ [OverpassRequest radius c category].
Proof.
  unfold fetchOverpassPlaces, bind, fetch, res_json, ret, throw.
  destruct answer as [| res]; [reflexivity |]. simpl.
  destruct (ok res); simpl; [| reflexivity].
  destruct (body res) as [[| elements] |]; reflexivity.
Qed.

Lemma handle_inv (ev : Event) (st : State) :
  watch_inv st -> watch_inv (handle boundsView ev st).
Proof.
  intros Hinv. pose proof (watch_inv_weak st Hinv) as Hweak.
  destruct ev as [pos | answer | key | mode | answer | place answer | | id pos
                 | id err]; simpl.
  - (* preload *)
    apply commit_restart; [reflexivity |].
    apply (watch_weak_transport st); [constructor; reflexivity | exact Hweak].
  - (* share location *)
    unfold requestLocation. destruct answer as [pos | message].
    + apply commit_restart; [reflexivity |].
      apply (watch_weak_transport st); [constructor; reflexivity | exact Hweak].
    + apply (watch_inv_transport st);
        [constructor; reflexivity | reflexivity | reflexivity | exact Hinv].
  - apply (watch_inv_transport st);
      [constructor; reflexivity | reflexivity | reflexivity | exact Hinv].
  - apply (watch_inv_transport st);
      [constructor; reflexivity | reflexivity | reflexivity | exact Hinv].
  - (* nearby *)
    unfold loadPOIs. destruct (coords st) as [c |] eqn:Hc.
    + destruct (fetchOverpassPlaces c (poiCategory (setLoadingPOI true st))
                  1500 answer (requests (setLoadingPOI true st)))
        as [[results | e] log].
      * apply commit_places_only.
        apply (watch_inv_transport st);
          [constructor; reflexivity | reflexivity | reflexivity | exact Hinv].
      * apply (watch_inv_transport st);
          [constructor; reflexivity | reflexivity | reflexivity | exact Hinv].
    + apply (watch_inv_transport st);
        [constructor; reflexivity | reflexivity | reflexivity | exact Hinv].
  - (* route *)
    unfold routeTo. destruct (coords st) as [c |] eqn:Hc;
      [destruct (mapRef st) as [m |] eqn:Hm |];
      try (apply (watch_inv_transport st);
           [constructor; reflexivity | reflexivity | reflexivity | exact Hinv]).
    destruct (fetch_route (routingMode st) c place answer (requests st))
      as [[route | e] log].
    + unfold apply_route. simpl mapRef. rewrite Hm.
      destruct (fitBounds boundsView (map swap_lonlat (coordinates route)) m)
        as [m' |].
      * apply commit_restart; [reflexivity |].
        apply (watch_weak_transport st);
          [constructor; reflexivity | exact Hweak].
      * apply (watch_inv_transport st);
          [constructor; reflexivity | reflexivity | reflexivity | exact Hinv].
    + apply (watch_inv_transport st);
        [constructor; reflexivity | reflexivity | reflexivity | exact Hinv].
  - (* clear *)
    apply commit_restart; [reflexivity |].
    unfold clearRoute.
    set (st1 := set_nextTurnMarkerRef None _).
    assert (Hw1 : watch_weak st1)
      by (apply (watch_weak_transport st);
          [constructor; reflexivity | exact Hweak]).
    destruct (stop_watch_clears st1 Hw1) as [Hid Hws].
    unfold watch_weak. rewrite Hid. exact Hws.
  - (* position *)
    destruct (find_watch id (geo_watches st)) as [w |]; [| exact Hinv].
    apply commit_restart; [reflexivity |].
    apply (watch_weak_transport st); [apply on_position_watch | exact Hweak].
  - (* position error *)
    destruct (find_watch id (geo_watches st)) as [w |]; [| exact Hinv].
    apply (watch_inv_transport st);
      [constructor; reflexivity | reflexivity | reflexivity | exact Hinv].
Qed.

Lemma reachable_inv (st : State) : reachable boundsView st -> watch_inv st.
Proof.
  induction 1 as [| ev st _ IH].
  - unfold watch_inv. simpl. auto.
  - apply handle_inv. exact IH.
Qed.

End WatchDiscipline.

Section Lifecycle.

Variable boundsView : list LatLng -> LatLng * R.

(** Once there are coordinates, no event takes them away. *)
Lemma handle_coords (ev : Event) (st : State) :
  coords st <> None -> coords (handle boundsView ev st) <> None.
Proof.
  intros Hc.
  destruct ev as [pos | answer | key | mode | answer | place answer | | id pos
                 | id err]; simpl.
  - rewrite (fr_coords _ _ (commit_frame _ _ _ _ _)). discriminate.
  - unfold requestLocation. destruct answer as [pos | message].
    + rewrite (fr_coords _ _ (commit_frame _ _ _ _ _)). discriminate.
    + exact Hc.
  - exact Hc.
  - exact Hc.
  - unfold loadPOIs. destruct (coords st) as [c |] eqn:Hc'; [| congruence].
    destruct (fetchOverpassPlaces c (poiCategory (setLoadingPOI true st))
                1500 answer (requests (setLoadingPOI true st)))
      as [[results | e] log].
    + rewrite (fr_coords _ _ (commit_frame _ _ _ _ _)). simpl. congruence.
    + simpl. congruence.
  - unfold routeTo. destruct (coords st) as [c |] eqn:Hc'; [| congruence].
    destruct (mapRef st) as [m |] eqn:Hm; [| simpl; congruence].
    destruct (fetch_route (routingMode st) c place answer (requests st))
      as [[route | e] log]; [| simpl; congruence].
    unfold apply_route. simpl mapRef. rewrite Hm.
    destruct (fitBounds boundsView (map swap_lonlat (coordinates route)) m).
    + rewrite (fr_coords _ _ (commit_frame _ _ _ _ _)). simpl. congruence.
    + simpl. congruence.
  - rewrite (fr_coords _ _ (commit_frame _ _ _ _ _)).
    unfold clearRoute. rewrite (fr_coords _ _ (stop_watch_frame _)). exact Hc.
  - destruct (find_watch id (geo_watches st)) as [w |]; [| exact Hc].
    rewrite (fr_coords _ _ (commit_frame _ _ _ _ _)).
    unfold on_position. destruct (nearest (coords_of pos) (w_steps w)).
    destruct st. cbn -[turn_text Math_round Rmax nth_error].
    repeat match goal with
           | |- context [match ?x with _ => _ end] => destruct x
           end; discriminate.
  - destruct (find_watch id (geo_watches st)); exact Hc.
Qed.

(** What [clearRoute] and the effects after it leave. *)
Lemma clear_route_fields (st : State) :
  let st1 := handle boundsView EvClearRoute st in
  routeSteps st1 = [] /\ nextTurnText st1 = None /\
  nextTurnDistance st1 = None /\ nextTurnMarkerRef st1 = None /\
  routePolylineRef st1 = None.
Proof.
  simpl. pose proof (commit_frame boundsView false true false (clearRoute st)) as F.
  destruct F. unfold clearRoute in *.
  pose proof (stop_watch_frame
                (set_nextTurnMarkerRef None
                   (setNextTurnDistance None
                      (setNextTurnText None
                         (setRouteSteps [] (set_routePolylineRef None st))))))
    as G.
  destruct G. simpl in *.
  repeat split; congruence.
Qed.



(** A position error is logged and nothing else: the guidance text, the
    distance, the marker, the coordinates, the steps and the watch are what
    they were.  And whatever the event, a watch that was running is still
    running after it unless the step list has become empty (claim C9). *)
Theorem C9_position_error_ignored :
  forall (st : State) (id : nat) (err : string),
    reachable boundsView st ->
    let st' := handle boundsView (EvPositionError id err) st in
    (st' = st \/ st' = console_warn ("watchPosition error " ++ err) st) /\
    (find_watch id (geo_watches st) <> None ->
     console st' = console st ++ [("watchPosition error " ++ err)%string]) /\
    nextTurnText st' = nextTurnText st /\
    nextTurnDistance st' = nextTurnDistance st /\
    nextTurnMarkerRef st' = nextTurnMarkerRef st /\
    coords st' = coords st /\
    routeSteps st' = routeSteps st /\
    watchIdRef st' = watchIdRef st /\
    geo_watches st' = geo_watches st /\
    forall ev : Event,
      watchIdRef st <> None ->
      watchIdRef (handle boundsView ev st) = None ->
      routeSteps (handle boundsView ev st) = [].
Proof.
  intros st id err Hreach. simpl.
  split; [| split].
  - destruct (find_watch id (geo_watches st)); auto.
  - destruct (find_watch id (geo_watches st)); [reflexivity | congruence].
  - destruct (find_watch id (geo_watches st)); simpl;
      repeat (split; [reflexivity |]).
    + intros ev Hactive Hstopped.
      pose proof (reachable_inv boundsView st Hreach) as Hinv.
      pose proof (handle_inv boundsView ev st Hinv) as Hinv'.
      unfold watch_inv in Hinv, Hinv'. rewrite Hstopped in Hinv'.
      destruct (watchIdRef st); [| congruence].
      destruct Hinv as (_ & _ & Hc & _).
      destruct Hinv' as [_ [Hnone | Hnil]]; [| exact Hnil].
      exfalso. apply (handle_coords ev st Hc). exact Hnone.
    + intros ev Hactive Hstopped.
      pose proof (reachable_inv boundsView st Hreach) as Hinv.
      pose proof (handle_inv boundsView ev st Hinv) as Hinv'.
      unfold watch_inv in Hinv, Hinv'. rewrite Hstopped in Hinv'.
      destruct (watchIdRef st); [| congruence].
      destruct Hinv as (_ & _ & Hc & _).
      destruct Hinv' as [_ [Hnone | Hnil]]; [| exact Hnil].
      exfalso. apply (handle_coords ev st Hc). exact Hnone.
Qed.

End Lifecycle.

(** ** The stable sort *)

Section StableSort.

Context {A : Type} (key : A -> Z).

Let cmp (a b : A) : Z := (key a - key b)%Z.

Lemma sort_insert_perm (x : A) (l : list A) :
  Permutation (sort_insert cmp x l) (x :: l).
Proof.
  induction l as [| y l IH]; simpl; [reflexivity |].
  destruct (cmp x y <=? 0)%Z; [reflexivity |].
  rewrite IH. apply perm_swap.
Qed.

Lemma Array_sort_perm (l : list A) : Permutation (Array_sort cmp l) l.
Proof.
  induction l as [| x l IH]; simpl; [reflexivity |].
  rewrite sort_insert_perm. now constructor.
Qed.

Lemma sort_insert_sorted (x : A) (l : list A) :
  StronglySorted (fun a b => (key a <= key b)%Z) l ->
  StronglySorted (fun a b => (key a <= key b)%Z) (sort_insert cmp x l).
Proof.
  induction 1 as [| y l Hs IH Hall]; simpl.
  - repeat constructor.
  - destruct (cmp x y <=? 0)%Z eqn:Hcmp; unfold cmp in Hcmp.
    + apply Z.leb_le in Hcmp.
      constructor; [now constructor |].
      constructor; [lia |].
      eapply Forall_impl; [| exact Hall]. simpl. intros; lia.
    + apply Z.leb_gt in Hcmp.
      constructor; [exact IH |].
      apply (Permutation_Forall (Permutation_sym (sort_insert_perm x l))).
      constructor; [lia | exact Hall].
Qed.

Lemma Array_sort_sorted (l : list A) :
  StronglySorted (fun a b => (key a <= key b)%Z) (Array_sort cmp l).
Proof.
  induction l as [| x l IH]; simpl; [constructor |].
  now apply sort_insert_sorted.
Qed.

(** Stability: the elements of one key come out in the order they went
    in. *)
Lemma sort_insert_stable (k : Z) (x : A) (l : list A) :
  filter (fun a => (key a =? k)%Z) (sort_insert cmp x l)
  = filter (fun a => (key a =? k)%Z) (x :: l).
Proof.
  induction l as [| y l IH]; [reflexivity |].
  simpl sort_insert.
  destruct (cmp x y <=? 0)%Z eqn:Hcmp; [reflexivity |].
  unfold cmp in Hcmp. apply Z.leb_gt in Hcmp.
  simpl in *. rewrite IH.
  destruct (key x =? k)%Z eqn:Hx; destruct (key y =? k)%Z eqn:Hy;
    try reflexivity.
  apply Z.eqb_eq in Hx, Hy. lia.
Qed.

Lemma Array_sort_stable (k : Z) (l : list A) :
  filter (fun a => (key a =? k)%Z) (Array_sort cmp l)
  = filter (fun a => (key a =? k)%Z) l.
Proof.
  induction l as [| x l IH]; [reflexivity |].
  simpl Array_sort. rewrite sort_insert_stable. simpl. now rewrite IH.
Qed.

End StableSort.

(** ** PlaceFinder *)

Lemma truthy_num_true (x : R) : truthy_num x = true <-> x <> 0.
Proof.
  unfold truthy_num. destruct (Req_dec_T x 0); split; intros;
    try discriminate; try contradiction; auto.
Qed.

Lemma place_located_spec (p : Place) :
  place_located p = true <-> p_lat p <> 0 /\ p_lon p <> 0.
Proof.
  unfold place_located. rewrite andb_true_iff, !truthy_num_true. tauto.
Qed.

Lemma located_place_distance (c : Coords) (category : string)
  (el : OverpassElement) :
  let p := place_of_element c category el in
  place_located p = true ->
  distanceMeters p
  = Some (Math_round (haversine c (mkCoords (p_lat p) (p_lon p)))).
Proof.
  simpl. unfold place_located. simpl. intros H. now rewrite H.
Qed.

Lemma by_distance_key :
  by_distance = fun a b =>
    (nullish (distanceMeters a) 0 - nullish (distanceMeters b) 0)%Z.
Proof. reflexivity. Qed.

(** The invariant of the list [fetchOverpassPlaces] resolves to: it holds
    the located candidates of the answer and only them, in ascending order
    of distance, places at one distance staying in the order of the answer;
    every place in it has a latitude and a longitude other than zero and a
    distance that is the rounded haversine distance from the centre; an
    element whose latitude or longitude resolves to zero, or is missing
    altogether, has no place in it (claim C3). *)
Theorem C3_findNearby_result_invariant :
  forall (c : Coords) (category : string) (radius : R)
         (answer : Fetched OverpassJson) (log log' : list Request)
         (ps : list Place),
    fetchOverpassPlaces c category radius answer log = (Resolved ps, log') ->
    exists (res : Response OverpassJson) (elements : list OverpassElement),
      answer = Answer res /\ ok res = true /\
      (body res = Some (OJ_value (Some elements)) \/
       (body res = Some (OJ_value None) /\ elements = [])) /\
      let candidates :=
        filter place_located (map (place_of_element c category) elements) in
      Permutation ps candidates /\
      StronglySorted closer_or_equal ps /\
      (forall k, at_distance k ps = at_distance k candidates) /\
      (forall p, In p ps ->
         p_lat p <> 0 /\ p_lon p <> 0 /\
         distanceMeters p
         = Some (Math_round (haversine c (mkCoords (p_lat p) (p_lon p))))) /\
      (forall el, In el elements ->
         el_coord (el_lat el) (el_center el) c_lat = 0 \/
         el_coord (el_lon el) (el_center el) c_lon = 0 ->
         ~ In (place_of_element c category el) ps) /\
      (forall el, In el elements ->
         (el_lat el = None /\ el_center el = None) \/
         (el_lon el = None /\ el_center el = None) ->
         ~ In (place_of_element c category el) ps).
Proof.
  intros c category radius answer log log' ps Hrun.
  unfold fetchOverpassPlaces, bind, fetch, res_json, ret, throw in Hrun.
  destruct answer as [| res]; [discriminate |].
  simpl in Hrun.
  destruct (ok res) eqn:Hok; simpl in Hrun; [| discriminate].
  destruct (body res) as [[| elements] |] eqn:Hbody; simpl in Hrun;
    try discriminate.
  injection Hrun as Hps _.
  exists res, (nullish elements []).
  split; [reflexivity |]. split; [exact Hok |].
  split; [destruct elements; simpl; auto |].
  set (els := nullish elements []) in *.
  set (candidates := filter place_located
                       (map (place_of_element c category) els)).
  assert (Hperm : Permutation ps candidates).
  { rewrite <- Hps. unfold places_of_elements. rewrite by_distance_key.
    apply (Array_sort_perm (fun p => nullish (distanceMeters p) 0%Z)). }
  assert (Hcand : forall p, In p candidates ->
            p_lat p <> 0 /\ p_lon p <> 0 /\
            distanceMeters p
            = Some (Math_round (haversine c (mkCoords (p_lat p) (p_lon p))))).
  { intros p Hin. apply filter_In in Hin. destruct Hin as [Hin Hloc].
    apply in_map_iff in Hin. destruct Hin as (el & <- & _).
    pose proof (located_place_distance c category el Hloc) as Hd.
    apply place_located_spec in Hloc. tauto. }
  assert (Hall : forall p, In p ps ->
            p_lat p <> 0 /\ p_lon p <> 0 /\
            distanceMeters p
            = Some (Math_round (haversine c (mkCoords (p_lat p) (p_lon p))))).
  { intros p Hin. apply Hcand. eapply Permutation_in; eauto. }
  assert (Hzero : forall el, In el els ->
            el_coord (el_lat el) (el_center el) c_lat = 0 \/
            el_coord (el_lon el) (el_center el) c_lon = 0 ->
            ~ In (place_of_element c category el) ps).
  { intros el _ Hz Hin. destruct (Hall _ Hin) as (Hlat & Hlon & _).
    simpl in Hlat, Hlon. tauto. }
  cbv zeta. fold candidates.
  split; [exact Hperm |]. split; [| split; [| split; [exact Hall | split]]].
  - (* ascending *)
    assert (Hsorted :
      StronglySorted
        (fun a b => (nullish (distanceMeters a) 0
                     <= nullish (distanceMeters b) 0)%Z) ps).
    { rewrite <- Hps. unfold places_of_elements. rewrite by_distance_key.
      apply (Array_sort_sorted (fun p => nullish (distanceMeters p) 0%Z)). }
    clear Hps Hperm Hzero. induction Hsorted as [| a l Hs IH Hfa].
    + constructor.
    + constructor.
      * apply IH. intros p Hp. apply Hall. now right.
      * rewrite Forall_forall in *. intros b Hb.
        specialize (Hfa b Hb). unfold closer_or_equal.
        destruct (Hall a (or_introl eq_refl)) as (_ & _ & Ha).
        destruct (Hall b (or_intror Hb)) as (_ & _ & Hb').
        rewrite Ha, Hb' in *. exact Hfa.
  - (* ties keep the order of the answer *)
    intros k. unfold at_distance.
    assert (Hkey : forall l : list Place,
               (forall p, In p l -> distanceMeters p <> None) ->
               filter (fun p => match distanceMeters p with
                                | Some d => (d =? k)%Z
                                | None => false
                                end) l
               = filter (fun p => (nullish (distanceMeters p) 0 =? k)%Z) l).
    { intros l Hl. apply filter_ext_in. intros p Hp.
      specialize (Hl p Hp). destruct (distanceMeters p); [reflexivity |].
      congruence. }
    rewrite (Hkey ps), (Hkey candidates).
    + rewrite <- Hps. unfold places_of_elements. rewrite by_distance_key.
      apply (Array_sort_stable (fun p => nullish (distanceMeters p) 0%Z)).
    + intros p Hp. destruct (Hcand p Hp) as (_ & _ & ->). discriminate.
    + intros p Hp. destruct (Hall p Hp) as (_ & _ & ->). discriminate.
  - exact Hzero.
  - intros el Hin Hmissing. apply (Hzero el Hin).
    unfold el_coord.
    destruct Hmissing as [[-> ->] | [-> ->]]; simpl; auto.
Qed.

(** ** RoutePlanner and the callers' error handling *)

Section Requests.

Variable boundsView : list LatLng -> LatLng * R.

(** The routing request fails on a non-success status and on an answer with
    no route alternative, and then [routeTo] changes neither the polyline
    nor the steps nor the guidance state: the only traces are the request
    in the log and one line in the chat (claim C4). *)
Theorem C4_route_failure_leaves_route :
  forall (st : State) (place : Place) (res : Response OSRMRouteResponse),
    ok res = false \/
    (exists routes, body res = Some (OSRM_value routes) /\
                    (routes = Some [] \/ routes = None)) ->
    (forall mode c log,
        exists e, fetch_route mode c place (Answer res) log
                  = (Rejected e,
                     log ++ [OSRMRequest mode c (p_lon place) (p_lat place)]))
    /\
    let st' := handle boundsView (EvRouteTo place (Answer res)) st in
    routePolylineRef st' = routePolylineRef st /\
    routeSteps st' = routeSteps st /\
    nextTurnText st' = nextTurnText st /\
    nextTurnDistance st' = nextTurnDistance st /\
    nextTurnMarkerRef st' = nextTurnMarkerRef st /\
    watchIdRef st' = watchIdRef st /\
    geo_watches st' = geo_watches st /\
    coords st' = coords st /\
    mapRef st' = mapRef st /\
    places st' = places st /\
    (coords st <> None -> mapRef st <> None ->
     messages st'
     = messages st ++ [mkMsg assistant "Could not draw route on the map."]).
Proof.
  intros st place res Hfail.
  assert (Hrej : forall mode c log,
             exists e, fetch_route mode c place (Answer res) log
                       = (Rejected e,
                          log ++ [OSRMRequest mode c (p_lon place)
                                    (p_lat place)])).
  { intros mode c log.
    unfold fetch_route, bind, fetch, res_json, ret, throw. simpl.
    destruct (ok res) eqn:Hok; simpl; [| eauto].
    destruct Hfail as [Hf | (routes & Hbody & Hroutes)]; [discriminate |].
    rewrite Hbody. simpl.
    destruct Hroutes as [-> | ->]; simpl; eauto. }
  split; [exact Hrej |].
  simpl. unfold routeTo.
  destruct (coords st) as [c |] eqn:Hc;
    [destruct (mapRef st) as [m |] eqn:Hm |].
  - destruct (Hrej (routingMode st) c (requests st)) as [e He].
    rewrite He. simpl. rewrite Hc, Hm. repeat split; reflexivity.
  - simpl. rewrite Hc, Hm. repeat split; try reflexivity.
    intros _ H. congruence.
  - simpl. rewrite Hc. repeat split; try reflexivity.
    intros H. congruence.
Qed.

(** A call of [routeTo] that succeeds used the first route of the answer
    and nothing of the others; the steps it installs are those of the first
    leg of that route; and the polyline it draws has, point for point, the
    second component of the answer's pair as latitude and the first as
    longitude (claim C6). *)
Theorem C6_route_applied :
  forall (st st2 : State) (place : Place)
         (answer : Fetched OSRMRouteResponse) (c : Coords) (m : LMap)
         (route : OSRMRoute) (log : list Request),
    coords st = Some c -> mapRef st = Some m ->
    fetch_route (routingMode st) c place answer (requests st)
    = (Resolved route, log) ->
    apply_route boundsView route (set_requests log st) = (Resolved tt, st2) ->
    let st' := handle boundsView (EvRouteTo place answer) st in
    (exists res others,
        answer = Answer res /\ ok res = true /\
        body res = Some (OSRM_value (Some (route :: others))) /\
        forall others',
          handle boundsView
            (EvRouteTo place
               (Answer (mkResponse true (status res)
                          (Some (OSRM_value (Some (route :: others')))))))
            st
          = st') /\
    routeSteps st' = first_leg_steps route /\
    (forall leg more ss,
        legs route = Some (leg :: more) -> steps leg = Some ss ->
        routeSteps st' = ss) /\
    exists latlngs,
      routePolylineRef st' = Some latlngs /\
      List.length latlngs = List.length (coordinates route) /\
      forall i lo la,
        nth_error (coordinates route) i = Some (lo, la) ->
        nth_error latlngs i = Some (la, lo).
Proof.
  intros st st2 place answer c m route log Hc Hm Hfetch Happly.
  assert (Hst' : handle boundsView (EvRouteTo place answer) st
                 = commit boundsView false true false st2).
  { simpl. unfold routeTo. rewrite Hc, Hm, Hfetch, Happly. reflexivity. }
  cbv zeta. rewrite Hst'.
  unfold apply_route in Happly. simpl mapRef in Happly. rewrite Hm in Happly.
  destruct (fitBounds boundsView (map swap_lonlat (coordinates route)) m)
    as [m' |] eqn:Hfit; [| discriminate].
  injection Happly as Hst2.
  assert (Hsteps : routeSteps (commit boundsView false true false st2)
                   = first_leg_steps route).
  { rewrite (fr_routeSteps _ _ (commit_frame _ _ _ _ _)).
    rewrite <- Hst2. reflexivity. }
  split; [| split; [exact Hsteps | split]].
  - unfold fetch_route, bind, fetch, res_json, ret, throw in Hfetch.
    destruct answer as [| res]; [discriminate |]. simpl in Hfetch.
    destruct (ok res) eqn:Hok; simpl in Hfetch; [| discriminate].
    destruct (body res) as [[| routes] |] eqn:Hbody; simpl in Hfetch;
      try discriminate.
    destruct routes as [[| r others] |]; simpl in Hfetch; try discriminate.
    injection Hfetch as Hr Hlog. subst r.
    exists res, others. repeat split; auto.
    intros others'. simpl. unfold routeTo. rewrite Hc, Hm.
    unfold fetch_route, bind, fetch, res_json, ret, throw. simpl.
    rewrite Hlog. unfold apply_route. simpl mapRef. rewrite Hm, Hfit.
    rewrite Hst2. reflexivity.
  - intros leg more ss Hlegs Hss. rewrite Hsteps.
    unfold first_leg_steps. rewrite Hlegs, Hss. reflexivity.
  - exists (map swap_lonlat (coordinates route)).
    split; [| split].
    + rewrite (fr_routePolylineRef _ _ (commit_frame _ _ _ _ _)).
      rewrite <- Hst2. reflexivity.
    + apply length_map.
    + intros i lo la Hi. rewrite nth_error_map, Hi. reflexivity.
Qed.

(** A body that parses to a value without an [elements] array is not an
    error of [fetchOverpassPlaces]: the [Array.isArray] guard reads it as an
    answer with no element. *)
Lemma fetchOverpassPlaces_no_elements (c : Coords) (category : string)
  (radius : R) (status : Z) (log : list Request) :
  fetchOverpassPlaces c category radius
    (Answer (mkResponse true status (Some (OJ_value None)))) log
  = (Resolved [], log ++ [OverpassRequest radius c category]).
Proof. reflexivity. Qed.


End Requests.

(** ** Instances *)

Lemma guiding_reachable (steps : list RouteStep) :
  reachable flat_view (guiding steps).
Proof.
  change (reachable flat_view
            (handle flat_view (EvRouteTo somewhere (route_answer steps))
               (handle flat_view (EvPreloadPosition (mkPosition 0 0))
                  initial))).
  apply reach_step, reach_step, reach_initial.
Defined.




Lemma C3_witness :
  exists ps log',
    fetchOverpassPlaces (mkCoords 0 0) "cafe" 1500 overpass_answer []
    = (Resolved ps, log') /\
    StronglySorted closer_or_equal ps /\
    forall p, In p ps -> p_lat p <> 0 /\ p_lon p <> 0.
Proof.
  exists (places_of_elements (mkCoords 0 0) "cafe"
            [located_element; bare_element]),
         [OverpassRequest 1500 (mkCoords 0 0) "cafe"].
  assert (Hrun : fetchOverpassPlaces (mkCoords 0 0) "cafe" 1500
                   overpass_answer []
                 = (Resolved (places_of_elements (mkCoords 0 0) "cafe"
                                [located_element; bare_element]),
                    [OverpassRequest 1500 (mkCoords 0 0) "cafe"]))
    by reflexivity.
  split; [exact Hrun |].
  destruct (C3_findNearby_result_invariant _ _ _ _ _ _ _ Hrun)
    as (res & els & _ & _ & _ & _ & Hsorted & _ & Hall & _).
  split; [exact Hsorted |].
  intros p Hp. destruct (Hall p Hp) as (Hlat & Hlon & _). split; assumption.
Defined.

Lemma C4_witness :
  let res := mkResponse false 500 (@None OSRMRouteResponse) in
  ok res = false /\
  routeSteps (handle flat_view (EvRouteTo somewhere (Answer res))
                (guiding [plain_step]))
  = routeSteps (guiding [plain_step]) /\
  routePolylineRef (handle flat_view (EvRouteTo somewhere (Answer res))
                      (guiding [plain_step]))
  = routePolylineRef (guiding [plain_step]).
Proof.
  cbv zeta.
  pose proof (C4_route_failure_leaves_route flat_view (guiding [plain_step])
                somewhere (mkResponse false 500 None)
                (or_introl eq_refl)) as [_ H].
  split; [reflexivity |]. split; apply H.
Defined.


Lemma C6_witness :
  routeSteps (handle flat_view
                (EvRouteTo somewhere (route_answer [tie_a; tie_b])) located)
  = [tie_a; tie_b] /\
  routePolylineRef (handle flat_view
                      (EvRouteTo somewhere (route_answer [tie_a; tie_b]))
                      located)
  = Some [(1, 2); (3, 4)].
Proof.
  pose proof (C6_route_applied flat_view located
                (setRouteSteps [tie_a; tie_b]
                   (set_mapRef (Some (mkMap (0, 0) 14))
                      (set_routePolylineRef (Some [(1, 2); (3, 4)])
                         (set_requests
                            [OSRMRequest walking (mkCoords 0 0) 1 1]
                            located))))
                somewhere (route_answer [tie_a; tie_b]) (mkCoords 0 0)
                (mkMap (0, 0) 14)
                (mkRoute [(2, 1); (4, 3)] (Some [mkLeg (Some [tie_a; tie_b])]))
                [OSRMRequest walking (mkCoords 0 0) 1 1]
                eq_refl eq_refl eq_refl eq_refl) as H.
  cbv zeta in H. destruct H as (_ & Hsteps & _ & latlngs & Hpoly & _).
  split; [exact Hsteps | reflexivity].
Defined.

Lemma C8_witness :
  (forall s, In s [plain_step] -> maneuver s = None) /\
  fst (nearest (coords_of (mkPosition 0 0)) [plain_step]) = (-1)%Z /\
  nextTurnText (on_position [plain_step] (mkPosition 0 0)
                  (guiding [plain_step])) = None.
Proof.
  assert (H : forall s, In s [plain_step] -> maneuver s = None)
    by (intros s [<- | []]; reflexivity).
  pose proof (C8_no_maneuver_empty_guidance flat_view [plain_step]
                (mkPosition 0 0) (guiding [plain_step]) H) as (H1 & H2 & _).
  split; [exact H |]. split; [exact H1 | exact H2].
Defined.

Lemma C9_witness :
  reachable flat_view (guiding [plain_step]) /\
  geo_watches (handle flat_view (EvPositionError 1 "timeout")
                 (guiding [plain_step]))
  = geo_watches (guiding [plain_step]) /\
  nextTurnText (handle flat_view (EvPositionError 1 "timeout")
                  (guiding [plain_step]))
  = nextTurnText (guiding [plain_step]).
Proof.
  pose proof (C9_position_error_ignored flat_view (guiding [plain_step])
                1%nat "timeout" (guiding_reachable [plain_step])) as H.
  cbv zeta in H.
  split; [apply guiding_reachable |]. split; apply H.
Defined.

Lemma C10_witness :
  nearest (mkCoords 0 0) [tie_a; tie_b]
  = (0%Z, Fin (haversine (mkCoords 0 0) (mkCoords 0 0))).
Proof.
  apply (C10_tie_keeps_lowest_index (mkCoords 0 0) [tie_a; tie_b] 0%nat tie_a
           (haversine (mkCoords 0 0) (mkCoords 0 0))).
  - reflexivity.
  - reflexivity.
  - intros k sk dk Hk Hd.
    destruct k as [| [| k]]; simpl in Hk.
    + injection Hk as <-. injection Hd as <-.
      split; [apply Rle_refl | intros _; apply Nat.le_refl].
    + injection Hk as <-. injection Hd as <-.
      split; [apply Rle_refl | intros _; apply Nat.le_0_l].
    + destruct k; discriminate.
Defined.

(* ------------------------------------------------------------------ *)
(** * Further properties of the distance *)

(** The half-chord lies between 0 and 1. *)
Lemma haversine_c_bounds (a b : Coords) : 0 <= haversine_c a b <= 1.
Proof.
  split; [apply haversine_c_nonneg |].
  unfold haversine_c.
  set (p := toRad (lat a)). set (q := toRad (lat b)).
  replace (toRad (lat b - lat a) / 2) with ((q - p) / 2)
    by (unfold p, q, toRad; field).
  set (t := sin (toRad (lon b - lon a) / 2)).
  assert (Hhalf : sin ((q - p) / 2) * sin ((q - p) / 2)
                  = (1 - cos (q - p)) / 2).
  { replace (q - p) with (2 * ((q - p) / 2)) at 3 by field.
    rewrite cos_2a_sin. field. }
  rewrite Hhalf, cos_minus.
  pose proof (sin2_cos2 p) as Hp. pose proof (sin2_cos2 q) as Hq.
  pose proof (sin2_cos2 (toRad (lon b - lon a) / 2)) as Ht.
  fold t in Ht. unfold Rsqr in *.
  set (sp := sin p) in *. set (cp := cos p) in *.
  set (sq := sin q) in *. set (cq := cos q) in *.
  set (ct := cos (toRad (lon b - lon a) / 2)) in *.
  assert (Ht1 : 0 <= t * t <= 1).
  { pose proof (Rle_0_sqr t) as A. pose proof (Rle_0_sqr ct) as B.
    unfold Rsqr in A, B. lra. }
  assert (H1 : 0 <= 1 + cp * cq + sp * sq).
  { pose proof (Rle_0_sqr (cp + cq)) as A. pose proof (Rle_0_sqr (sp + sq)) as B.
    unfold Rsqr in A, B. lra. }
  assert (H2 : 0 <= 1 - cp * cq + sp * sq).
  { pose proof (Rle_0_sqr (cp - cq)) as A. pose proof (Rle_0_sqr (sp + sq)) as B.
    unfold Rsqr in A, B. lra. }
  apply Rminus_le.
  replace ((1 - (cq * cp + sq * sp)) / 2 + cp * cq * t * t - 1)
    with (- ((1 - t * t) * ((1 + cp * cq + sp * sq) / 2)
             + (t * t) * ((1 - cp * cq + sp * sq) / 2))) by field.
  apply Rge_le, Ropp_0_le_ge_contravar.
  apply Rplus_le_le_0_compat; apply Rmult_le_pos; lra.
Qed.

Lemma sqrt_le_one (x : R) : 0 <= x <= 1 -> sqrt x <= 1.
Proof.
  intros [H0 H1]. rewrite <- sqrt_1. apply sqrt_le_1; lra.
Qed.

Lemma haversine_unclamped (a b : Coords) :
  haversine a b = 2 * EARTH_R * asin (sqrt (haversine_c a b)) /\
  haversine a b <= EARTH_R * PI.
Proof.
  pose proof (haversine_c_bounds a b) as Hc.
  assert (Heq : haversine a b
                = 2 * EARTH_R * asin (sqrt (haversine_c a b))).
  { unfold haversine. rewrite Rmin_right by (apply sqrt_le_one; exact Hc).
    reflexivity. }
  split; [exact Heq |].
  rewrite Heq. pose proof (asin_bound (sqrt (haversine_c a b))) as [_ Hb].
  unfold EARTH_R in *. lra.
Qed.

Lemma haversine_below (a b : Coords) : haversine a b < 20024053.
Proof.
  destruct (haversine_unclamped a b) as [_ Hle].
  pose proof PI_upper. unfold EARTH_R in *. lra.
Qed.


Lemma asin_abs_sin (x : R) :
  Rabs x <= PI / 2 -> asin (Rabs (sin x)) = Rabs x.
Proof.
  intros Hx.
  assert (Hs : Rabs (sin x) = sin (Rabs x)).
  { unfold Rabs at 2. destruct (Rcase_abs x) as [Hneg | Hpos].
    - rewrite sin_neg. apply Rabs_left1.
      rewrite <- (Ropp_involutive x), sin_neg.
      assert (0 <= sin (- x)).
      { apply sin_ge_0; [lra |].
        rewrite Rabs_left in Hx by exact Hneg. pose proof PI_RGT_0. lra. }
      lra.
    - apply Rabs_pos_eq. apply sin_ge_0; [lra |].
      rewrite Rabs_pos_eq in Hx by lra. pose proof PI_RGT_0. lra. }
  rewrite Hs. apply asin_sin.
  pose proof (Rabs_pos x). pose proof PI_RGT_0. lra.
Qed.

(** Along a meridian, and along the equator, the distance is the arc: the
    Earth radius times the difference of the angles in radians, for a
    difference of at most 180 degrees. *)
Theorem haversine_arc :
  (forall a b : Coords,
      lon a = lon b -> Rabs (lat b - lat a) <= 180 ->
      haversine a b = EARTH_R * (Rabs (lat b - lat a) * PI / 180)) /\
  (forall a b : Coords,
      lat a = 0 -> lat b = 0 -> Rabs (lon b - lon a) <= 180 ->
      haversine a b = EARTH_R * (Rabs (lon b - lon a) * PI / 180)).
Proof.
  assert (Hkey : forall delta : R,
             Rabs delta <= 180 ->
             2 * EARTH_R
             * asin (Rmin 1 (sqrt (sin (toRad delta / 2)
                                   * sin (toRad delta / 2))))
             = EARTH_R * (Rabs delta * PI / 180)).
  { intros delta Hd. pose proof PI_RGT_0 as Hpi.
    replace (sin (toRad delta / 2) * sin (toRad delta / 2))
      with (Rsqr (sin (toRad delta / 2))) by reflexivity.
    rewrite sqrt_Rsqr_abs.
    rewrite Rmin_right
      by (pose proof (SIN_bound (toRad delta / 2)); apply Rabs_le; lra).
    assert (Habs : Rabs (toRad delta / 2) = Rabs delta * PI / 360).
    { unfold toRad.
      replace (delta * PI / 180 / 2) with (delta * (PI / 360)) by field.
      rewrite Rabs_mult, (Rabs_pos_eq (PI / 360)) by lra. field. }
    rewrite asin_abs_sin; rewrite Habs; [field | nra]. }
  split.
  - intros a b Hlon Hd. unfold haversine, haversine_c.
    rewrite Hlon.
    replace (toRad (lon b - lon b) / 2) with 0 by (unfold toRad; field).
    rewrite sin_0.
    replace (sin (toRad (lat b - lat a) / 2) * sin (toRad (lat b - lat a) / 2)
             + cos (toRad (lat a)) * cos (toRad (lat b)) * 0 * 0)
      with (sin (toRad (lat b - lat a) / 2) * sin (toRad (lat b - lat a) / 2))
      by ring.
    apply Hkey. exact Hd.
  - intros a b Ha Hb Hd. unfold haversine, haversine_c.
    rewrite Ha, Hb.
    replace (toRad (0 - 0) / 2) with 0 by (unfold toRad; field).
    replace (toRad 0) with 0 by (unfold toRad; field).
    rewrite sin_0, cos_0.
    replace (0 * 0 + 1 * 1 * sin (toRad (lon b - lon a) / 2)
                     * sin (toRad (lon b - lon a) / 2))
      with (sin (toRad (lon b - lon a) / 2) * sin (toRad (lon b - lon a) / 2))
      by ring.
    apply Hkey. exact Hd.
Qed.

(** The distance depends on the longitudes through their difference only,
    and a full turn of 360 degrees on one longitude does not change it. *)
Theorem haversine_longitude_shift :
  forall (a b : Coords) (delta : R),
    haversine (mkCoords (lat a) (lon a + delta))
              (mkCoords (lat b) (lon b + delta))
    = haversine a b /\
    haversine a (mkCoords (lat b) (lon b + 360)) = haversine a b /\
    haversine a (mkCoords (lat b) (lon b - 360)) = haversine a b.
Proof.
  intros a b delta. unfold haversine, haversine_c; simpl.
  split; [| split].
  - replace (lon b + delta - (lon a + delta)) with (lon b - lon a) by ring.
    reflexivity.
  - replace (toRad (lon b + 360 - lon a) / 2)
      with (toRad (lon b - lon a) / 2 + PI) by (unfold toRad; field).
    rewrite neg_sin.
    replace (cos (toRad (lat a)) * cos (toRad (lat b))
             * - sin (toRad (lon b - lon a) / 2)
             * - sin (toRad (lon b - lon a) / 2))
      with (cos (toRad (lat a)) * cos (toRad (lat b))
            * sin (toRad (lon b - lon a) / 2)
            * sin (toRad (lon b - lon a) / 2)) by ring.
    reflexivity.
  - replace (toRad (lon b - lon a) / 2)
      with (toRad (lon b - 360 - lon a) / 2 + PI) by (unfold toRad; field).
    rewrite neg_sin.
    replace (cos (toRad (lat a)) * cos (toRad (lat b))
             * - sin (toRad (lon b - 360 - lon a) / 2)
             * - sin (toRad (lon b - 360 - lon a) / 2))
      with (cos (toRad (lat a)) * cos (toRad (lat b))
            * sin (toRad (lon b - 360 - lon a) / 2)
            * sin (toRad (lon b - 360 - lon a) / 2)) by ring.
    reflexivity.
Qed.

(* ------------------------------------------------------------------ *)
(** * Further properties of the component *)

Section ComponentInvariants.

Variable boundsView : list LatLng -> LatLng * R.

(** The cases of [handle], with the services' answers taken apart. *)
Ltac handle_cases ev st :=
  destruct ev as [pos | answer | key | mode | answer | place answer |
                  | id pos | id err];
  simpl handle;
  [ idtac
  | unfold requestLocation; destruct answer as [pos | message]
  | idtac
  | idtac
  | unfold loadPOIs; destruct (coords st) as [c |] eqn:Hc;
    [ destruct (fetchOverpassPlaces c (poiCategory (setLoadingPOI true st))
                  1500 answer (requests (setLoadingPOI true st)))
        as [[results | e] log] eqn:Hfetch
    | idtac ]
  | unfold routeTo; destruct (coords st) as [c |] eqn:Hc;
    [ destruct (mapRef st) as [m |] eqn:Hm;
      [ destruct (fetch_route (routingMode st) c place answer (requests st))
          as [[route | e] log] eqn:Hfetch;
        [ unfold apply_route; simpl mapRef; rewrite Hm;
          destruct (fitBounds boundsView
                      (map swap_lonlat (coordinates route)) m)
            as [m' |] eqn:Hfit
        | idtac ]
      | idtac ]
    | idtac ]
  | idtac
  | destruct (find_watch id (geo_watches st)) as [w |] eqn:Hw
  | destruct (find_watch id (geo_watches st)) as [w |] eqn:Hw ].

(** What the success callback leaves alone. *)
Lemma on_position_frame (steps : list RouteStep) (pos : Position)
  (st : State) :
  let st' := on_position steps pos st in
  messages st' = messages st /\ locError st' = locError st /\
  loadingPOI st' = loadingPOI st /\ places st' = places st /\
  poiCategory st' = poiCategory st /\ routingMode st' = routingMode st /\
  routeSteps st' = routeSteps st /\
  routePolylineRef st' = routePolylineRef st /\
  markersLayerRef st' = markersLayerRef st /\
  requests st' = requests st /\ console st' = console st /\
  coords st' = Some (coords_of pos) /\
  (mapRef st' = None <-> mapRef st = None).
Proof.
  unfold on_position. destruct (nearest (coords_of pos) steps) as [bi bd].
  destruct st. cbn -[turn_text Math_round Rmax nth_error].
  repeat match goal with
         | |- context [match ?x with _ => _ end] => destruct x
         end;
    cbn; repeat split; try reflexivity; try discriminate; auto.
Qed.

Lemma clearRoute_frame (st : State) :
  let st' := clearRoute st in
  messages st' = messages st /\ coords st' = coords st /\
  locError st' = locError st /\ loadingPOI st' = loadingPOI st /\
  places st' = places st /\ poiCategory st' = poiCategory st /\
  routingMode st' = routingMode st /\ mapRef st' = mapRef st /\
  markersLayerRef st' = markersLayerRef st /\
  requests st' = requests st /\ console st' = console st.
Proof.
  unfold clearRoute, stop_watch. destruct st. cbn.
  destruct watchIdRef0; cbn; repeat split; reflexivity.
Qed.

Lemma loading_flag_step (ev : Event) (st : State) :
  loadingPOI st = false -> loadingPOI (handle boundsView ev st) = false.
Proof.
  intros IH.
  handle_cases ev st;
    try rewrite (fr_loadingPOI _ _ (commit_frame _ _ _ _ _));
    try exact IH; try reflexivity.
  - rewrite (proj1 (proj2 (proj2 (proj2 (clearRoute_frame st))))). exact IH.
  - destruct (on_position_frame (w_steps w) pos st) as (_ & _ & -> & _).
    exact IH.
Qed.

Lemma handle_appends (ev : Event) (st : State) :
  messages (handle boundsView ev st) = messages st \/
  exists m, messages (handle boundsView ev st) = messages st ++ [m].
Proof.
  handle_cases ev st;
    try rewrite (fr_messages _ _ (commit_frame _ _ _ _ _));
    try (left; reflexivity); try (right; eexists; reflexivity).
  - left. apply (clearRoute_frame st).
  - left. apply (on_position_frame (w_steps w) pos st).
Qed.

(** A handler sends at most one request, the request starts from the
    current coordinates, and nothing is sent while there are none. *)
Theorem requests_need_location :
  forall (ev : Event) (st : State),
    (requests (handle boundsView ev st) = requests st \/
     exists c r, coords st = Some c /\ request_origin r = c /\
                 requests (handle boundsView ev st) = requests st ++ [r]) /\
    (coords st = None -> requests (handle boundsView ev st) = requests st).
Proof.
  intros ev st.
  assert (Hmain : requests (handle boundsView ev st) = requests st \/
                  exists c r, coords st = Some c /\ request_origin r = c /\
                              requests (handle boundsView ev st)
                              = requests st ++ [r]).
  { handle_cases ev st;
      try rewrite (fr_requests _ _ (commit_frame _ _ _ _ _));
      try (left; reflexivity).
    - right. exists c, (OverpassRequest 1500 c (poiCategory st)).
      pose proof (fetchOverpassPlaces_log c
                    (poiCategory (setLoadingPOI true st)) 1500 answer
                    (requests (setLoadingPOI true st))) as Hlog.
      rewrite Hfetch in Hlog. simpl in Hlog. subst log.
      repeat split; reflexivity.
    - right. exists c, (OverpassRequest 1500 c (poiCategory st)).
      pose proof (fetchOverpassPlaces_log c
                    (poiCategory (setLoadingPOI true st)) 1500 answer
                    (requests (setLoadingPOI true st))) as Hlog.
      rewrite Hfetch in Hlog. simpl in Hlog. subst log.
      repeat split; reflexivity.
    - right.
      exists c, (OSRMRequest (routingMode st) c (p_lon place) (p_lat place)).
      pose proof (fetch_route_log (routingMode st) c place answer
                    (requests st)) as Hlog.
      rewrite Hfetch in Hlog. simpl in Hlog. subst log.
      repeat split; reflexivity.
    - right.
      exists c, (OSRMRequest (routingMode st) c (p_lon place) (p_lat place)).
      pose proof (fetch_route_log (routingMode st) c place answer
                    (requests st)) as Hlog.
      rewrite Hfetch in Hlog. simpl in Hlog. subst log.
      repeat split; reflexivity.
    - right.
      exists c, (OSRMRequest (routingMode st) c (p_lon place) (p_lat place)).
      pose proof (fetch_route_log (routingMode st) c place answer
                    (requests st)) as Hlog.
      rewrite Hfetch in Hlog. simpl in Hlog. subst log.
      repeat split; reflexivity.
    - left. apply (clearRoute_frame st).
    - left. apply (on_position_frame (w_steps w) pos st). }
  split; [exact Hmain |].
  intros Hnone. destruct Hmain as [H | (c & r & Hc & _)]; [exact H |].
  congruence.
Qed.

(** ** The guidance display *)

Lemma guidance_kept (ev : Event) (st : State) :
  (forall id pos, ev <> EvPosition id pos) -> ev <> EvClearRoute ->
  nextTurnText (handle boundsView ev st) = nextTurnText st /\
  nextTurnDistance (handle boundsView ev st) = nextTurnDistance st /\
  nextTurnMarkerRef (handle boundsView ev st) = nextTurnMarkerRef st.
Proof.
  intros Hpos Hclear.
  handle_cases ev st;
    try rewrite (fr_nextTurnText _ _ (commit_frame _ _ _ _ _));
    try rewrite (fr_nextTurnDistance _ _ (commit_frame _ _ _ _ _));
    try rewrite (fr_nextTurnMarkerRef _ _ (commit_frame _ _ _ _ _));
    try (repeat split; reflexivity).
  - contradiction.
  - exfalso. apply (Hpos id pos). reflexivity.
Qed.

(** Only a position delivered to a running watch and the clearing of the
    route write the guidance text, the guidance distance or the next-turn
    marker.  A new route, in particular, leaves on display what the position
    callback last computed for the old one. *)
Theorem guidance_written_by_position_or_clear :
  forall (ev : Event) (st : State),
    (forall id pos, ev <> EvPosition id pos) -> ev <> EvClearRoute ->
    nextTurnText (handle boundsView ev st) = nextTurnText st /\
    nextTurnDistance (handle boundsView ev st) = nextTurnDistance st /\
    nextTurnMarkerRef (handle boundsView ev st) = nextTurnMarkerRef st.
Proof.
  intros ev st. apply guidance_kept.
Qed.

Lemma turn_text_not_empty (s : RouteStep) : turn_text s <> "".
Proof.
  unfold turn_text, step_action, str_or.
  destruct (maneuver s) as [m |]; [| discriminate].
  destruct (m_type m) as [[| a t] |]; discriminate.
Qed.

Lemma Math_round_nonneg (x : R) : 0 <= x -> (0 <= Math_round x)%Z.
Proof.
  intros Hx. unfold Math_round. apply Zfloor_lub. simpl. lra.
Qed.

Lemma on_position_paired (steps : list RouteStep) (pos : Position)
  (st : State) :
  guidance_paired (on_position steps pos st).
Proof.
  unfold guidance_paired.
  destruct (nearest_spec (coords_of pos) steps)
    as [[Heq _] | (k & s & d & Hk & Hd & Heq & _)].
  - destruct (on_position_none steps pos st Heq) as [-> ->]. exact I.
  - destruct (on_position_some steps pos st k s d Heq Hk) as [-> ->].
    split; [apply turn_text_not_empty |].
    exists (Math_round d). split; [| reflexivity].
    apply Math_round_nonneg.
    unfold maneuver_dist in Hd. destruct (maneuver s); [| discriminate].
    injection Hd as <-. apply haversine_nonneg.
Qed.

Lemma guidance_paired_step (ev : Event) (st : State) :
  guidance_paired st -> guidance_paired (handle boundsView ev st).
Proof.
  intros IH.
  destruct ev as [pos | answer | key | mode | answer | place answer |
                  | id pos | id err];
    try (match goal with
         | |- guidance_paired (handle _ ?e _) =>
             destruct (guidance_kept e st
                         ltac:(intros; discriminate) ltac:(discriminate))
               as (Ht & Hd & _)
         end;
         unfold guidance_paired; rewrite Ht, Hd; exact IH).
  - pose proof (clear_route_fields boundsView st) as Hclear.
    cbv zeta in Hclear. destruct Hclear as (_ & Ht & Hd & _).
    unfold guidance_paired. rewrite Ht, Hd. exact I.
  - simpl. destruct (find_watch id (geo_watches st)) as [w |]; [| exact IH].
    unfold guidance_paired.
    rewrite (fr_nextTurnText _ _ (commit_frame _ _ _ _ _)).
    rewrite (fr_nextTurnDistance _ _ (commit_frame _ _ _ _ _)).
    apply on_position_paired.
Qed.


Lemma unmount_clears (st : State) :
  watch_inv st ->
  geo_watches (unmount st) = [] /\ watchIdRef (unmount st) = None /\
  effect_frame st (unmount st).
Proof.
  intros Hinv. pose proof (watch_inv_weak st Hinv) as Hweak.
  unfold unmount. split; [| split; [| apply guidance_cleanup_frame]].
  - unfold guidance_cleanup. destruct (guidanceCleanup st) eqn:Hcl.
    + simpl. apply (stop_watch_clears st Hweak).
    + unfold watch_weak in Hweak. destruct (watchIdRef st); [| exact Hweak].
      destruct Hweak. congruence.
  - unfold guidance_cleanup. destruct (guidanceCleanup st) eqn:Hcl.
    + simpl. apply (stop_watch_clears st Hweak).
    + unfold watch_weak in Hweak. destruct (watchIdRef st); [| reflexivity].
      destruct Hweak. congruence.
Qed.

(** ** The map *)

(** The guidance effect and its cleanup do not touch the map. *)
Lemma guidance_keeps_map (st : State) :
  mapRef (guidance_effect (guidance_cleanup st)) = mapRef st /\
  markersLayerRef (guidance_effect (guidance_cleanup st))
  = markersLayerRef st.
Proof.
  unfold guidance_effect, guidance_cleanup, stop_watch. destruct st. cbn.
  repeat match goal with
         | |- context [match ?x with _ => _ end] => destruct x; cbn
         end; split; reflexivity.
Qed.

(** The marker effect on a state that has a map and a layer. *)
Lemma markers_effect_redraws (st : State) (m : LMap) (l : list CircleMarker) :
  mapRef st = Some m -> markersLayerRef st = Some l ->
  markersLayerRef (markers_effect boundsView st)
  = Some (markers_of (coords st) (places st)) /\
  mapRef (markers_effect boundsView st)
  = (if (2 <=? List.length (markers_of (coords st) (places st)))%nat
     then fitBounds boundsView
            (map cm_at (markers_of (coords st) (places st))) m
     else Some m).
Proof.
  intros Hm Hl. unfold markers_effect. rewrite Hm, Hl.
  change (match coords st with
          | Some c => [mkMarker (lat c, lon c) "#2563eb" "You are here"]
          | None => []
          end
          ++ map (fun p => mkMarker (p_lat p, p_lon p) "#10b981"
                             (p_name p ++ " (" ++ p_category p ++ ")"))
               (places st))
    with (markers_of (coords st) (places st)).
  rewrite length_map.
  destruct (2 <=? List.length (markers_of (coords st) (places st)))%nat
    eqn:Hlen.
  - destruct (fitBounds boundsView
                (map cm_at (markers_of (coords st) (places st))) m) eqn:Hfit.
    + split; reflexivity.
    + exfalso. unfold fitBounds in Hfit.
      destruct (map cm_at (markers_of (coords st) (places st))) eqn:Hpts;
        [| discriminate].
      apply map_eq_nil in Hpts. rewrite Hpts in Hlen. discriminate.
  - split; [reflexivity | exact Hm].
Qed.

Lemma fitBounds_some (pts : list LatLng) (m : LMap) :
  pts <> [] ->
  fitBounds boundsView pts m
  = Some (mkMap (fst (boundsView pts)) (snd (boundsView pts))).
Proof. destruct pts; [congruence | reflexivity]. Qed.

(** The effects after a change of coordinates bring the map in line. *)
Lemma commit_coords_synced (b p : bool) (st : State) (c : Coords) :
  coords st = Some c ->
  (mapRef st <> None -> markersLayerRef st <> None) ->
  map_synced (commit boundsView true b p st).
Proof.
  intros Hc Hlayer. unfold commit. simpl orb.
  rewrite orb_true_r.
  set (st1 := guidance_effect (guidance_cleanup st)).
  destruct (guidance_keeps_map st) as [Hm1 Hl1]. fold st1 in Hm1, Hl1.
  assert (Hc1 : coords st1 = Some c).
  { unfold st1.
    rewrite (fr_coords _ _ (guidance_effect_frame _)).
    rewrite (fr_coords _ _ (guidance_cleanup_frame _)). exact Hc. }
  assert (Hp1 : places st1 = places st).
  { unfold st1.
    rewrite (fr_places _ _ (guidance_effect_frame _)).
    now rewrite (fr_places _ _ (guidance_cleanup_frame _)). }
  set (st2 := map_init_effect st1).
  assert (H2 : exists m l, mapRef st2 = Some m /\ markersLayerRef st2 = Some l
                           /\ coords st2 = Some c /\ places st2 = places st).
  { unfold st2, map_init_effect. rewrite Hc1.
    destruct (mapRef st1) as [m |] eqn:Hm.
    - destruct (markersLayerRef st1) as [l |] eqn:Hl.
      + exists (setView (lat c, lon c) 14 m), l. simpl.
        repeat split; auto.
      + exfalso. apply Hlayer; congruence.
    - exists (mkMap (lat c, lon c) 14), []. simpl. repeat split; auto. }
  destruct H2 as (m & l & Hm2 & Hl2 & Hc2 & Hp2).
  destruct (markers_effect_redraws st2 m l Hm2 Hl2) as [Hl3 Hm3].
  pose proof (markers_effect_frame boundsView st2) as F.
  unfold map_synced. rewrite (fr_coords _ _ F), Hc2.
  rewrite Hl3, (fr_places _ _ F), Hc2. split; [| reflexivity].
  rewrite Hm3, Hc2.
  destruct (2 <=? List.length (markers_of (Some c) (places st2)))%nat;
    [| discriminate].
  rewrite fitBounds_some; [discriminate |]. simpl. discriminate.
Qed.

Lemma map_synced_layer (st : State) :
  map_synced st -> mapRef st <> None -> markersLayerRef st <> None.
Proof.
  unfold map_synced. destruct (coords st).
  - intros [_ ->] _. discriminate.
  - intros [-> _] H. contradiction.
Qed.

Lemma map_synced_transport (st st' : State) :
  coords st' = coords st -> places st' = places st ->
  markersLayerRef st' = markersLayerRef st ->
  (mapRef st' = None <-> mapRef st = None) ->
  map_synced st -> map_synced st'.
Proof.
  intros Hc Hp Hl Hm. unfold map_synced. rewrite Hc, Hp, Hl.
  destruct (coords st); intros [H1 H2]; split; auto; tauto.
Qed.

Lemma commit_steps_keeps_map (st : State) :
  mapRef (commit boundsView false true false st) = mapRef st /\
  markersLayerRef (commit boundsView false true false st)
  = markersLayerRef st.
Proof. unfold commit. simpl. apply guidance_keeps_map. Qed.

(** The marker effect after a change of places brings the layer in line. *)
Lemma commit_places_synced (st : State) (c : Coords) (m : LMap)
  (l : list CircleMarker) :
  coords st = Some c -> mapRef st = Some m -> markersLayerRef st = Some l ->
  map_synced (commit boundsView false false true st).
Proof.
  intros Hc Hm Hl. unfold commit. simpl orb. cbv iota.
  destruct (markers_effect_redraws st m l Hm Hl) as [Hl3 Hm3].
  pose proof (markers_effect_frame boundsView st) as F.
  unfold map_synced. rewrite (fr_coords _ _ F), Hc.
  rewrite Hl3, (fr_places _ _ F), Hc. split; [| reflexivity].
  rewrite Hm3, Hc.
  destruct (2 <=? List.length (markers_of (Some c) (places st)))%nat;
    [| discriminate].
  rewrite fitBounds_some; [discriminate |]. simpl. discriminate.
Qed.

Lemma map_synced_step (ev : Event) (st : State) :
  map_synced st -> map_synced (handle boundsView ev st).
Proof.
  intros IH.
  pose proof (map_synced_layer st IH) as Hlayer.
  handle_cases ev st;
    try exact IH;
    try (apply (map_synced_transport st);
         [reflexivity | reflexivity | reflexivity | simpl; tauto | exact IH]).
  - apply (commit_coords_synced _ _ _ (coords_of pos));
      [reflexivity | exact Hlayer].
  - apply (commit_coords_synced _ _ _ (coords_of pos));
      [reflexivity | exact Hlayer].
  - (* nearby, resolved *)
    unfold map_synced in IH. rewrite Hc in IH. destruct IH as [Hm Hl].
    destruct (mapRef st) as [m |] eqn:Hm'; [| contradiction].
    eapply commit_places_synced; [exact Hc | exact Hm' | exact Hl].
  - (* route drawn *)
    destruct (commit_steps_keeps_map
                (setRouteSteps (first_leg_steps route)
                   (set_mapRef (Some m')
                      (set_routePolylineRef
                         (Some (map swap_lonlat (coordinates route)))
                         (set_requests log st))))) as [Hm1 Hl1].
    apply (map_synced_transport st).
    + rewrite (fr_coords _ _ (commit_frame _ _ _ _ _)). reflexivity.
    + rewrite (fr_places _ _ (commit_frame _ _ _ _ _)). reflexivity.
    + rewrite Hl1. reflexivity.
    + rewrite Hm1. simpl. rewrite Hm. split; discriminate.
    + exact IH.
  - (* clear *)
    destruct (commit_steps_keeps_map (clearRoute st)) as [Hm1 Hl1].
    pose proof (clearRoute_frame st)
      as (_ & Hc' & _ & _ & Hp' & _ & _ & Hm' & Hl' & _).
    apply (map_synced_transport st).
    + rewrite (fr_coords _ _ (commit_frame _ _ _ _ _)). exact Hc'.
    + rewrite (fr_places _ _ (commit_frame _ _ _ _ _)). exact Hp'.
    + rewrite Hl1. exact Hl'.
    + rewrite Hm1, Hm'. tauto.
    + exact IH.
  - (* position *)
    pose proof (on_position_frame (w_steps w) pos st)
      as (_ & _ & _ & _ & _ & _ & _ & _ & Hl' & _ & _ & Hc' & Hm').
    apply (commit_coords_synced _ _ _ (coords_of pos)); [exact Hc' |].
    rewrite Hl'. intros Hne. apply Hlayer. tauto.
Qed.

(** ** Position updates *)

Lemma on_position_marker (steps : list RouteStep) (pos : Position)
  (st : State) (k : nat) (s : RouteStep) (mv : Maneuver) (d : R) :
  nearest (coords_of pos) steps = (Z.of_nat k, Fin d) ->
  nth_error steps k = Some s -> maneuver s = Some mv ->
  mapRef st <> None ->
  nextTurnMarkerRef (on_position steps pos st)
  = Some (mkMarker (snd (location mv), fst (location mv))
            (match nextTurnMarkerRef st with
             | Some old => cm_color old
             | None => "#f59e0b"
             end)
            (match nextTurnMarkerRef st with
             | Some old => cm_popup old
             | None => "Next turn"
             end)).
Proof.
  intros Heq Hk Hmv Hmap. unfold on_position. rewrite Heq.
  replace (0 <=? Z.of_nat k)%Z with true by (symmetry; apply Z.leb_le; lia).
  rewrite Nat2Z.id, Hk.
  destruct st as [? ? ? ? ? ? ? ? ? ? [m |] ? ? ? [mk |] ? ? ? ? ?];
    cbn -[turn_text Math_round Rmax] in *; try congruence;
    rewrite Hmv; reflexivity.
Qed.

(** The next-turn marker follows the guidance text: after a position
    delivered to a running watch whose route has a maneuver, with the map in
    place, the marker stands on the maneuver of the very step the text
    describes, at latitude the second and longitude the first component of
    its pair; it is created with the popup 'Next turn' the first time and
    only moved afterwards. *)
Theorem next_turn_marker_on_selected_maneuver :
  forall (st : State) (id : nat) (w : Watch) (pos : Position),
    find_watch id (geo_watches st) = Some w ->
    mapRef st <> None ->
    (exists s, In s (w_steps w) /\ maneuver s <> None) ->
    exists (i : nat) (s : RouteStep) (mv : Maneuver),
      nth_error (w_steps w) i = Some s /\ maneuver s = Some mv /\
      fst (nearest (coords_of pos) (w_steps w)) = Z.of_nat i /\
      let st' := handle boundsView (EvPosition id pos) st in
      nextTurnText st' = Some (turn_text s) /\
      exists mk, nextTurnMarkerRef st' = Some mk /\
                 cm_at mk = (snd (location mv), fst (location mv)) /\
                 cm_popup mk
                 = match nextTurnMarkerRef st with
                   | Some old => cm_popup old
                   | None => "Next turn"
                   end.
Proof.
  intros st id w pos Hw Hmap (s0 & Hin0 & Hm0).
  destruct (nearest_spec (coords_of pos) (w_steps w))
    as [[_ Hnone] | (k & s & d & Hk & Hd & Heq & _)].
  { exfalso. apply Hm0. now apply Hnone. }
  unfold maneuver_dist in Hd.
  destruct (maneuver s) as [mv |] eqn:Hmv; [| discriminate].
  exists k, s, mv. split; [exact Hk |]. split; [exact Hmv |].
  split; [now rewrite Heq |].
  simpl. rewrite Hw.
  rewrite (fr_nextTurnText _ _ (commit_frame _ _ _ _ _)).
  rewrite (fr_nextTurnMarkerRef _ _ (commit_frame _ _ _ _ _)).
  split; [apply (on_position_some _ _ _ _ _ _ Heq Hk) |].
  rewrite (on_position_marker _ _ _ _ _ _ _ Heq Hk Hmv Hmap).
  eexists. split; [reflexivity |]. split; reflexivity.
Qed.

Lemma view_after_position (st : State) (id : nat) (w : Watch)
  (pos : Position) :
  watch_inv st -> map_synced st ->
  find_watch id (geo_watches st) = Some w ->
  let st' := handle boundsView (EvPosition id pos) st in
  let here := (latitude pos, longitude pos) in
  coords st' = Some (coords_of pos) /\
  (places st = [] -> mapRef st' = Some (mkMap here 14)) /\
  (places st <> [] ->
   let pts := here :: map (fun p => (p_lat p, p_lon p)) (places st) in
   mapRef st'
   = Some (mkMap (fst (boundsView pts)) (snd (boundsView pts)))).
Proof.
  intros Hinv Hsync Hw.
  assert (Hws : geo_watches st <> []).
  { intros Hnil. rewrite Hnil in Hw. discriminate. }
  assert (Hc : exists c, coords st = Some c).
  { unfold watch_inv in Hinv. destruct (watchIdRef st).
    - destruct Hinv as (_ & _ & Hc & _). destruct (coords st); eauto.
      congruence.
    - destruct Hinv as [Hnil _]. contradiction. }
  destruct Hc as [c0 Hc0]. unfold map_synced in Hsync. rewrite Hc0 in Hsync.
  destruct Hsync as [Hmap Hlayer].
  destruct (mapRef st) as [m0 |] eqn:Hm0; [| contradiction].
  cbv zeta. simpl handle. rewrite Hw.
  pose proof (on_position_frame (w_steps w) pos st)
    as (_ & _ & _ & Hp1 & _ & _ & _ & _ & Hl1 & _ & _ & Hc1 & Hm1).
  cbv zeta in Hp1, Hl1, Hc1, Hm1.
  set (st1 := on_position (w_steps w) pos st) in *.
  unfold commit. simpl orb. cbv iota.
  set (st2 := guidance_effect (guidance_cleanup st1)).
  destruct (guidance_keeps_map st1) as [Hm2 Hl2]. fold st2 in Hm2, Hl2.
  assert (Hc2 : coords st2 = Some (coords_of pos)).
  { unfold st2. rewrite (fr_coords _ _ (guidance_effect_frame _)).
    rewrite (fr_coords _ _ (guidance_cleanup_frame _)). exact Hc1. }
  assert (Hp2 : places st2 = places st).
  { unfold st2. rewrite (fr_places _ _ (guidance_effect_frame _)).
    rewrite (fr_places _ _ (guidance_cleanup_frame _)). exact Hp1. }
  assert (Hm1ne : mapRef st1 <> None)
    by (intros Hn; apply Hm1 in Hn; congruence).
  destruct (mapRef st1) as [m1 |] eqn:Hm1'; [| congruence].
  set (st3 := map_init_effect st2).
  assert (H3 : mapRef st3 = Some (mkMap (latitude pos, longitude pos) 14) /\
               markersLayerRef st3 = markersLayerRef st /\
               coords st3 = Some (coords_of pos) /\
               places st3 = places st).
  { unfold st3, map_init_effect. rewrite Hc2, Hm2. simpl.
    rewrite Hl2, Hl1. repeat split; auto. }
  destruct H3 as (Hm3 & Hl3 & Hc3 & Hp3). rewrite Hlayer in Hl3.
  destruct (markers_effect_redraws st3 _ _ Hm3 Hl3) as [_ Hm4].
  pose proof (markers_effect_frame boundsView st3) as F.
  split; [rewrite (fr_coords _ _ F); exact Hc3 |].
  rewrite Hm4, Hc3, Hp3. split.
  - intros ->. reflexivity.
  - intros Hne. destruct (places st) as [| p ps]; [congruence |].
    simpl. rewrite map_map. reflexivity.
Qed.

End ComponentInvariants.

(** ** Nearby places: what the caller gets and shows *)

Lemma truthy_str_app (a b : string) :
  truthy_str (a ++ b) = truthy_str a || truthy_str b.
Proof. destruct a; reflexivity. Qed.

Lemma truthy_str_true (s : string) : truthy_str s = true <-> s <> "".
Proof. destruct s; simpl; split; congruence. Qed.

Lemma place_summary_truthy (p : Place) : truthy_str (place_summary p) = true.
Proof.
  unfold place_summary. rewrite truthy_str_app.
  destruct (truthy_str (p_name p)); reflexivity.
Qed.

Lemma concat_truthy (sep : string) (l : list string) :
  l <> [] -> (forall s, In s l -> truthy_str s = true) ->
  truthy_str (String.concat sep l) = true.
Proof.
  destruct l as [| x l]; [congruence |]. intros _ Hall.
  assert (Hx : truthy_str x = true) by (apply Hall; now left).
  simpl. destruct l; [exact Hx |].
  rewrite truthy_str_app, Hx. reflexivity.
Qed.

Lemma fetchOverpassPlaces_resolved (c : Coords) (category : string)
  (radius : R) (answer : Fetched OverpassJson) (log log' : list Request)
  (ps : list Place) :
  fetchOverpassPlaces c category radius answer log = (Resolved ps, log') ->
  exists elements, ps = places_of_elements c category elements.
Proof.
  unfold fetchOverpassPlaces, bind, fetch, res_json, ret, throw.
  destruct answer as [| res]; [discriminate |]. simpl.
  destruct (ok res); simpl; [| discriminate].
  destruct (body res) as [[| elements] |]; simpl; try discriminate.
  intros H. injection H as <- _. eauto.
Qed.

Lemma places_of_elements_In (c : Coords) (category : string)
  (elements : list OverpassElement) (p : Place) :
  In p (places_of_elements c category elements) <->
  exists el, In el elements /\ p = place_of_element c category el /\
             place_located p = true.
Proof.
  unfold places_of_elements. rewrite by_distance_key.
  pose proof (Array_sort_perm (fun q => nullish (distanceMeters q) 0%Z)
                (filter place_located
                   (map (place_of_element c category) elements))) as Hperm.
  split.
  - intros Hin. apply (Permutation_in _ Hperm) in Hin.
    apply filter_In in Hin. destruct Hin as [Hin Hloc].
    apply in_map_iff in Hin. destruct Hin as (el & <- & Hel). eauto.
  - intros (el & Hel & -> & Hloc).
    apply (Permutation_in _ (Permutation_sym Hperm)).
    apply filter_In. split; [| exact Hloc].
    apply in_map. exact Hel.
Qed.

Section NearbyCaller.

Variable boundsView : list LatLng -> LatLng * R.

(** A search that succeeds replaces the places wholesale by its result and
    lowers the loading flag; the chat gets 'No nearby ... found.' exactly
    when the result is empty, and otherwise one line that names the first
    five places of the result at most. *)
Theorem loadPOIs_replaces_places :
  forall (st : State) (c : Coords) (answer : Fetched OverpassJson)
         (ps : list Place) (log : list Request),
    coords st = Some c ->
    fetchOverpassPlaces c (poiCategory st) 1500 answer (requests st)
    = (Resolved ps, log) ->
    let st' := handle boundsView (EvLoadPOIs answer) st in
    places st' = ps /\
    loadingPOI st' = false /\
    messages st'
    = messages st
      ++ [mkMsg assistant
            match ps with
            | [] => "No nearby " ++ poiCategory st ++ " found."
            | _ :: _ =>
                "Nearby " ++ poiCategory st ++ ": "
                ++ String.concat ", " (map place_summary (firstn 5 ps))
            end].
Proof.
  intros st c answer ps log Hc Hrun. cbv zeta. simpl handle.
  unfold loadPOIs. rewrite Hc.
  change (poiCategory (setLoadingPOI true st)) with (poiCategory st).
  change (requests (setLoadingPOI true st)) with (requests st).
  rewrite Hrun.
  rewrite (fr_places _ _ (commit_frame _ _ _ _ _)).
  rewrite (fr_loadingPOI _ _ (commit_frame _ _ _ _ _)).
  rewrite (fr_messages _ _ (commit_frame _ _ _ _ _)).
  split; [reflexivity |]. split; [reflexivity |].
  simpl. f_equal. f_equal. f_equal.
  destruct ps as [| p ps]; [reflexivity |].
  rewrite concat_truthy; [reflexivity | discriminate |].
  intros s Hs. apply in_map_iff in Hs. destruct Hs as (q & <- & _).
  apply place_summary_truthy.
Qed.

(** A route without geometry is half applied.  The polyline is replaced
    before the bounds are fitted, and fitting the bounds of no point at all
    raises: the chat reports that the route could not be drawn, the steps,
    the watch and the guidance of the old route stay, but its polyline is
    gone, replaced by an empty one. *)
Theorem route_without_geometry_half_applied :
  forall (st : State) (place : Place) (answer : Fetched OSRMRouteResponse)
         (c : Coords) (m : LMap) (route : OSRMRoute) (log : list Request),
    coords st = Some c -> mapRef st = Some m ->
    fetch_route (routingMode st) c place answer (requests st)
    = (Resolved route, log) ->
    coordinates route = [] ->
    let st' := handle boundsView (EvRouteTo place answer) st in
    routePolylineRef st' = Some [] /\
    routeSteps st' = routeSteps st /\
    mapRef st' = Some m /\
    watchIdRef st' = watchIdRef st /\ geo_watches st' = geo_watches st /\
    nextTurnText st' = nextTurnText st /\
    nextTurnDistance st' = nextTurnDistance st /\
    nextTurnMarkerRef st' = nextTurnMarkerRef st /\
    messages st'
    = messages st ++ [mkMsg assistant "Could not draw route on the map."].
Proof.
  intros st place answer c m route log Hc Hm Hfetch Hgeo. cbv zeta.
  simpl handle. unfold routeTo. rewrite Hc, Hm, Hfetch.
  unfold apply_route. simpl mapRef. rewrite Hm, Hgeo.
  cbn [map fitBounds]. cbn. rewrite Hm.
  repeat split; reflexivity.
Qed.

Lemma cleared_state (st : State) :
  let st1 := handle boundsView EvClearRoute st in
  watchIdRef st1 = None /\ guidanceCleanup st1 = false /\
  routeSteps st1 = [] /\ nextTurnText st1 = None /\
  nextTurnDistance st1 = None /\ nextTurnMarkerRef st1 = None /\
  routePolylineRef st1 = None.
Proof.
  simpl handle.
  unfold commit, clearRoute, guidance_effect, guidance_cleanup, stop_watch.
  destruct st as [? co ? ? ? ? ? ? ? ? ? ? ? wid ? cl ? ? ? ?].
  destruct wid, cl, co; cbn; repeat split; reflexivity.
Qed.

Lemma clear_fixed_point (s : State) :
  watchIdRef s = None -> guidanceCleanup s = false ->
  routeSteps s = [] -> nextTurnText s = None ->
  nextTurnDistance s = None -> nextTurnMarkerRef s = None ->
  routePolylineRef s = None ->
  handle boundsView EvClearRoute s = s.
Proof.
  simpl handle.
  unfold commit, clearRoute, guidance_effect, guidance_cleanup, stop_watch.
  destruct s as [? co ? ? ? ? ? ? ? ? ? ? ? wid ? cl ? ? ? ?]. cbn.
  intros -> -> -> -> -> -> ->. destruct co; reflexivity.
Qed.

(** Clearing the route twice is clearing it once. *)
Theorem clear_route_idempotent :
  forall st : State,
    handle boundsView EvClearRoute (handle boundsView EvClearRoute st)
    = handle boundsView EvClearRoute st.
Proof.
  intros st. pose proof (cleared_state st) as H. cbv zeta in H.
  destruct H as (H1 & H2 & H3 & H4 & H5 & H6 & H7).
  apply clear_fixed_point; assumption.
Qed.

End NearbyCaller.

Lemma str_or_not_empty (o : option string) (d : string) :
  d <> "" -> str_or o d <> "".
Proof.
  intros Hd. unfold str_or. destruct o as [[| a v] |]; simpl; auto.
  discriminate.
Qed.


Lemma Math_round_error (x : R) :
  - / 2 <= IZR (Math_round x) - x <= / 2.
Proof.
  unfold Math_round. pose proof (Zfloor_bound (x + / 2)). lra.
Qed.

(** Every distance of a result is a whole number of metres between 0 and
    20,024,053, within half a metre of the haversine distance. *)
Theorem places_distance_range :
  forall (c : Coords) (category : string) (radius : R)
         (answer : Fetched OverpassJson) (log log' : list Request)
         (ps : list Place) (p : Place),
    fetchOverpassPlaces c category radius answer log = (Resolved ps, log') ->
    In p ps ->
    exists d : Z,
      distanceMeters p = Some d /\ (0 <= d <= 20024053)%Z /\
      Rabs (IZR d - haversine c (mkCoords (p_lat p) (p_lon p))) <= / 2.
Proof.
  intros c category radius answer log log' ps p Hrun Hin.
  destruct (fetchOverpassPlaces_resolved _ _ _ _ _ _ _ Hrun)
    as [elements ->].
  apply places_of_elements_In in Hin.
  destruct Hin as (el & _ & -> & Hloc).
  pose proof (located_place_distance c category el Hloc) as Hd.
  cbv zeta in Hd.
  set (p := place_of_element c category el) in *.
  set (h := haversine c (mkCoords (p_lat p) (p_lon p))) in *.
  exists (Math_round h). split; [exact Hd |].
  pose proof (Math_round_error h) as Herr.
  assert (H0 : 0 <= h) by apply haversine_nonneg.
  assert (H1 : h < 20024053) by apply haversine_below.
  split; [split |].
  - apply Math_round_nonneg. exact H0.
  - apply Z.lt_succ_r. apply lt_IZR.
    replace (IZR (Z.succ 20024053)) with 20024054
      by (rewrite succ_IZR; simpl; lra).
    lra.
  - apply Rabs_le. lra.
Qed.

(** The two displays of a distance disagree on a place less than half a
    metre away: the Nearby list reads a distance of 0 as no distance and
    says 'distance unknown', while the chat line says '0m'. From half a
    metre on, the list shows the rounded distance followed by 'm'. *)
Theorem zero_distance_shown_as_unknown :
  forall (c : Coords) (category : string) (radius : R)
         (answer : Fetched OverpassJson) (log log' : list Request)
         (ps : list Place) (p : Place),
    fetchOverpassPlaces c category radius answer log = (Resolved ps, log') ->
    In p ps ->
    let h := haversine c (mkCoords (p_lat p) (p_lon p)) in
    (h < / 2 ->
     place_distance_label p = "distance unknown" /\
     place_summary p
     = (p_name p ++ " (" ++ p_category p ++ ", 0m)")%string) /\
    (/ 2 <= h ->
     exists d : Z, (0 < d)%Z /\ distanceMeters p = Some d /\
                   place_distance_label p = (String_of_Z d ++ "m")%string).
Proof.
  intros c category radius answer log log' ps p Hrun Hin.
  destruct (fetchOverpassPlaces_resolved _ _ _ _ _ _ _ Hrun)
    as [elements ->].
  apply places_of_elements_In in Hin.
  destruct Hin as (el & _ & -> & Hloc).
  pose proof (located_place_distance c category el Hloc) as Hd.
  cbv zeta in Hd. cbv zeta.
  set (p := place_of_element c category el) in *.
  set (h := haversine c (mkCoords (p_lat p) (p_lon p))) in *.
  assert (H0 : 0 <= h) by apply haversine_nonneg.
  split.
  - intros Hh.
    assert (Hz : Math_round h = 0%Z).
    { unfold Math_round. apply Zfloor_eq. simpl. lra. }
    unfold place_distance_label, place_summary. rewrite Hd, Hz.
    split; reflexivity.
  - intros Hh. exists (Math_round h).
    assert (Hpos : (0 < Math_round h)%Z).
    { unfold Math_round.
      assert ((1 <= Zfloor (h + / 2))%Z) by (apply Zfloor_lub; simpl; lra).
      lia. }
    split; [exact Hpos |]. split; [exact Hd |].
    unfold place_distance_label. rewrite Hd.
    destruct (Math_round h =? 0)%Z eqn:Hz; [| reflexivity].
    apply Z.eqb_eq in Hz. lia.
Qed.

(* ------------------------------------------------------------------ *)
(** * The chat *)

Local Open Scope string_scope.

Lemma prefix_app (p b : string) : String.prefix p (p ++ b) = true.
Proof.
  induction p as [| c p IH]; simpl.
  - destruct b; reflexivity.
  - destruct (ascii_dec c c); [exact IH | congruence].
Qed.

Lemma contains_here (p s : string) :
  String.prefix p s = true -> contains p s = true.
Proof. intros H. destruct s; cbn [contains]; rewrite H; reflexivity. Qed.

Lemma contains_later (p : string) (c : ascii) (s : string) :
  contains p s = true -> contains p (String c s) = true.
Proof.
  intros H. cbn [contains].
  destruct (String.prefix p (String c s)); [reflexivity |].
  exact H.
Qed.

Lemma contains_app (p a b : string) : contains p (a ++ p ++ b) = true.
Proof.
  induction a as [| c a IH].
  - cbn [append]. apply contains_here, prefix_app.
  - cbn [append]. apply contains_later. exact IH.
Qed.

Lemma test_post_office_later (c : ascii) (s : string) :
  test_post_office s = true -> test_post_office (String c s) = true.
Proof.
  intros H. cbn [test_post_office].
  destruct (post_office_here (String c s)); [reflexivity |].
  exact H.
Qed.

Lemma trimStart_spaces (ws x : string) :
  all_space ws = true -> trimStart (ws ++ x) = trimStart x.
Proof.
  induction ws as [| c ws IH]; simpl; [reflexivity |].
  intros H. apply andb_true_iff in H. destruct H as [Hc Hws].
  rewrite Hc. apply IH. exact Hws.
Qed.

Lemma test_post_office_app (a ws b : string) :
  all_space ws = true ->
  test_post_office (a ++ "post" ++ ws ++ "office" ++ b) = true.
Proof.
  intros Hws. induction a as [| c a IH].
  - assert (Hhere : post_office_here ("post" ++ ws ++ "office" ++ b) = true).
    { unfold post_office_here. rewrite prefix_app.
      change (drop 4 ("post" ++ ws ++ "office" ++ b))
        with (ws ++ "office" ++ b).
      rewrite trimStart_spaces by exact Hws.
      assert (Ht : trimStart ("office" ++ b) = "office" ++ b)
        by reflexivity.
      rewrite Ht. apply (prefix_app "office" b). }
    change ("" ++ "post" ++ ws ++ "office" ++ b)
      with ("post" ++ ws ++ "office" ++ b).
    remember ("post" ++ ws ++ "office" ++ b) as s eqn:Hs.
    destruct s; cbn [test_post_office]; rewrite Hhere; reflexivity.
  - cbn [append]. apply test_post_office_later. exact IH.
Qed.

(** Whatever category the chat reads off a text is one the category menu
    offers, and never fast food: no keyword leads to it. *)
Theorem inferred_category_is_on_the_menu :
  forall (text category : string),
    infer_category text = Some category ->
    In category (map fst CATEGORIES) /\ category <> "fast_food".
Proof.
  intros text category. unfold infer_category.
  repeat match goal with
         | |- context [if ?b then _ else _] => destruct b
         end; intros H; inversion H; subst;
    (split; [simpl; auto 10 | discriminate]).
Qed.

(** A keyword counts wherever it stands in the text, inside a longer word
    too, and the post office keywords win over every other: a text that
    contains 'mail' or 'usps', or 'post' and 'office' with nothing but white
    space between them, is read as a post office request. *)
Theorem post_office_keywords_win :
  forall a b : string,
    infer_category (a ++ "mail" ++ b) = Some "post_office" /\
    infer_category (a ++ "usps" ++ b) = Some "post_office" /\
    forall ws, all_space ws = true ->
               infer_category (a ++ "post" ++ ws ++ "office" ++ b)
               = Some "post_office".
Proof.
  intros a b. unfold infer_category. split; [| split].
  - rewrite (contains_app "mail" a b). rewrite orb_true_r. reflexivity.
  - rewrite (contains_app "usps" a b). rewrite orb_true_r. reflexivity.
  - intros ws Hws. rewrite (test_post_office_app a ws b Hws). reflexivity.
Qed.

Lemma truthy_lower (v : string) : truthy_str (toLowerCase v) = truthy_str v.
Proof. destruct v; reflexivity. Qed.

Lemma opt_or_truthy (a b : option string) (v : string) :
  opt_or a (opt_or b None) = Some v -> v <> "".
Proof.
  unfold opt_or. destruct a as [x |]; [destruct (truthy_str x) eqn:Hx |].
  - intros H. injection H as <-. now apply truthy_str_true.
  - destruct b as [y |]; [| discriminate].
    destruct (truthy_str y) eqn:Hy; [| discriminate].
    intros H. injection H as <-. now apply truthy_str_true.
  - destruct b as [y |]; [| discriminate].
    destruct (truthy_str y) eqn:Hy; [| discriminate].
    intros H. injection H as <-. now apply truthy_str_true.
Qed.

(** When the provider is LocalAI the chat always counts as configured, for
    the base URL and the model fall back to defaults that are not empty;
    when it is OpenAI the chat is configured exactly when there is a key,
    and a key is never the empty string. *)
Theorem llm_configured_iff :
  forall (env : Env) (ls : Storage),
    (getLLMProvider env ls = localai ->
     hasLLMConfig env ls = true /\
     cfg_baseUrl (getLLMConfig env ls) <> "" /\
     cfg_model (getLLMConfig env ls) <> "") /\
    (getLLMProvider env ls = openai ->
     (hasLLMConfig env ls = true <-> getOpenAIKey env ls <> None)) /\
    (forall k, getOpenAIKey env ls = Some k -> k <> "").
Proof.
  intros env ls. split; [| split].
  - intros Hp. unfold hasLLMConfig, getLLMConfig. rewrite Hp. simpl.
    assert (H1 : str_or (getItem "localai_base_url" ls)
                   (str_or (VITE_LOCALAI_BASE_URL env)
                      "http://localhost:8080/v1") <> "").
    { apply str_or_not_empty, str_or_not_empty. discriminate. }
    assert (H2 : str_or (getItem "localai_model" ls)
                   (str_or (VITE_LOCALAI_MODEL env) "gpt-3.5-turbo") <> "").
    { apply str_or_not_empty, str_or_not_empty. discriminate. }
    split; [| split; assumption].
    apply truthy_str_true in H1. apply truthy_str_true in H2.
    rewrite H1, H2. reflexivity.
  - intros Hp. unfold hasLLMConfig, getLLMConfig. rewrite Hp. simpl.
    destruct (getOpenAIKey env ls) as [k |] eqn:Hk; simpl.
    + assert (k <> "") by (eapply opt_or_truthy; exact Hk).
      split; [discriminate |]. intros _. now apply truthy_str_true.
    + split; [discriminate | congruence].
  - intros k Hk. eapply opt_or_truthy. exact Hk.
Qed.

(** The two settings rank their sources in opposite orders.  A provider
    saved in the local storage hides the one of the environment; a key given
    by the environment hides the one saved in the local storage, so that
    saving or clearing a key in the settings then changes nothing. *)
Theorem settings_precedence :
  forall (env : Env) (ls : Storage),
    (forall v env',
        getItem "llm_provider" ls = Some v -> v <> "" ->
        getLLMProvider env ls = getLLMProvider env' ls) /\
    (forall k,
        VITE_OPENAI_API_KEY env = Some k -> k <> "" ->
        getOpenAIKey env ls = Some k /\
        forall s : Session,
          getOpenAIKey env (localStorage (saveOpenAIKey s)) = Some k).
Proof.
  intros env ls. split.
  - intros v env' Hv Hne. unfold getLLMProvider. rewrite Hv.
    apply truthy_str_true in Hne.
    assert (Hs : str_or (Some v) "" = v) by (simpl; now rewrite Hne).
    rewrite !Hs, truthy_lower, Hne. reflexivity.
  - intros k Hk Hne. apply truthy_str_true in Hne.
    assert (Hany : forall ls', getOpenAIKey env ls' = Some k).
    { intros ls'. unfold getOpenAIKey. rewrite Hk. simpl. now rewrite Hne. }
    split; [apply Hany | intros s; apply Hany].
Qed.

(** Saving the provider and reading it back: after Save, the provider in
    force is the one selected, whatever the environment says. *)
Theorem saved_provider_is_in_force :
  forall (env : Env) (s : Session),
    getLLMProvider env (localStorage (saveProvider s)) = provider s /\
    cfg_provider (getLLMConfig env (localStorage (saveProvider s)))
    = provider s.
Proof.
  intros env s.
  assert (H : getLLMProvider env (localStorage (saveProvider s))
              = provider s).
  { unfold getLLMProvider, saveProvider. simpl.
    unfold getItem, setItem. simpl.
    destruct (provider s); reflexivity. }
  split; [exact H |].
  unfold getLLMConfig. rewrite H. destruct (provider s); reflexivity.
Qed.


Section ChatFacts.

Variable Number_toString : R -> string.
Variable boundsView : list LatLng -> LatLng * R.
Variable env : Env.

(** The cases of [sendMessage] on a text that is not blank. *)
Ltac send_cases s poi llm Hne :=
  unfold sendMessage; rewrite Hne; cbn [negb];
  cbn [localStorage say setInput with_component component visionDesc
       llm_sent coords requests push_message];
  destruct (hasLLMConfig env (localStorage s)) eqn:Hcfg; cbn [negb];
  [ destruct (llmChat Number_toString env (localStorage s) (trim (input s))
                (coords (component s)) (visionDesc s) llm (llm_sent s))
      as [[reply | e] sent] eqn:Hchat
  | destruct (coords (component s)) as [c |] eqn:Hc;
    [ destruct (infer_category (toLowerCase (trim (input s))))
        as [cat |] eqn:Hcat;
      [ destruct (fetchOverpassPlaces c cat 1500 poi
                    (requests (component s)))
          as [[results | e] log] eqn:Hfetch
      | idtac ]
    | idtac ] ];
  cbn [localStorage say setInput set_llm_sent with_component component
       visionDesc llm_sent input].

Lemma llm_post_sent (req : LLMRequest) (prefix fallback : string)
  (answer : Fetched LLMJson) (sent : list LLMRequest) :
  snd (llm_post req prefix fallback answer sent) = (sent ++ [req])%list.
Proof.
  unfold llm_post. destruct answer as [| res]; [reflexivity |].
  destruct (ok res); simpl; [| reflexivity].
  destruct (body res) as [[| choices] |]; reflexivity.
Qed.

Lemma sendMessage_messages (poi : Fetched OverpassJson)
  (llm : Fetched LLMJson) (s : Session) :
  trim (input s) <> "" ->
  input (sendMessage Number_toString boundsView env poi llm s) = "" /\
  exists reply,
    messages (component (sendMessage Number_toString boundsView env poi llm s))
    = (messages (component s)
       ++ [mkMsg user (trim (input s)); mkMsg assistant reply])%list.
Proof.
  intros Hne. apply truthy_str_true in Hne.
  send_cases s poi llm Hne;
    (split; [reflexivity |]);
    try rewrite (fr_messages _ _ (commit_frame _ _ _ _ _));
    eexists; cbn [messages push_message setPlaces set_requests];
    rewrite <- app_assoc; reflexivity.
Qed.


(** The chat does not disturb navigation: whatever is typed and whatever
    the services answer, [sendMessage] leaves the coordinates, the route,
    the guidance text, distance and marker, the polyline, the watch and the
    loading flag as they were. *)
Theorem chat_leaves_navigation :
  forall (poi : Fetched OverpassJson) (llm : Fetched LLMJson) (s : Session),
    navigation_kept (component s) (component (sendMessage Number_toString boundsView env poi llm s)).
Proof.
  intros poi llm s.
  destruct (truthy_str (trim (input s))) eqn:Hne.
  - send_cases s poi llm Hne;
      try (constructor; reflexivity).
    pose proof (commit_frame boundsView false false true
                  (push_message
                     {| role := assistant;
                        content :=
                          if truthy_str
                               (concat ", "
                                  (map place_summary (firstn 5 results)))
                          then "Nearby " ++ replace_first "_" " " cat ++ ": "
                               ++ concat ", "
                                    (map place_summary (firstn 5 results))
                          else "No nearby " ++ replace_first "_" " " cat
                               ++ " found." |}
                     (setPlaces results
                        (set_requests log
                           (push_message
                              {| role := user; content := trim (input s) |}
                              (component s)))))) as F.
    set (st1 := push_message _ _) in *.
    assert (Hw : watch_frame st1 (commit boundsView false false true st1)).
    { unfold commit. simpl. apply markers_effect_watch. }
    destruct F, Hw. constructor; try congruence.
    + rewrite fr_coords0. reflexivity.
    + rewrite fr_routeSteps0. reflexivity.
    + rewrite fr_nextTurnText0. reflexivity.
    + rewrite fr_nextTurnDistance0. reflexivity.
    + rewrite fr_nextTurnMarkerRef0. reflexivity.
    + rewrite fr_routePolylineRef0. reflexivity.
    + rewrite wf_watchIdRef0. reflexivity.
    + rewrite wf_geo_watches0. reflexivity.
    + rewrite wf_guidanceCleanup0. reflexivity.
    + rewrite fr_loadingPOI0. reflexivity.
    + rewrite fr_locError0. reflexivity.
  - unfold sendMessage. rewrite Hne. constructor; reflexivity.
Qed.

(** One message costs at most one request.  With a model configured it goes
    to the model and no place is searched, whatever keywords the text holds;
    with none configured nothing is ever sent to a model. *)
Theorem chat_asks_one_service :
  forall (poi : Fetched OverpassJson) (llm : Fetched LLMJson) (s : Session),
    let s' := sendMessage Number_toString boundsView env poi llm s in
    (hasLLMConfig env (localStorage s) = true ->
     requests (component s') = requests (component s) /\
     places (component s') = places (component s) /\
     (trim (input s) <> "" -> exists r, llm_sent s' = (llm_sent s ++ [r])%list))
    /\
    (hasLLMConfig env (localStorage s) = false ->
     llm_sent s' = llm_sent s /\
     (requests (component s') = requests (component s) \/
      exists c cat,
        coords (component s) = Some c /\
        infer_category (toLowerCase (trim (input s))) = Some cat /\
        requests (component s')
        = (requests (component s) ++ [OverpassRequest 1500 c cat])%list)).
Proof.
  intros poi llm s. cbv zeta.
  destruct (truthy_str (trim (input s))) eqn:Hne.
  - assert (Hsent : forall got sent,
               llmChat Number_toString env (localStorage s) (trim (input s))
                 (coords (component s)) (visionDesc s) llm (llm_sent s)
               = (got, sent) ->
               hasLLMConfig env (localStorage s) = true ->
               exists r, sent = (llm_sent s ++ [r])%list).
    { intros got sent Hrun Hcfg. unfold llmChat in Hrun.
      rewrite Hcfg in Hrun. cbn [negb] in Hrun.
      match type of Hrun with
      | llm_post ?req ?a ?b ?c ?d = _ =>
          pose proof (llm_post_sent req a b c d) as Hs
      end.
      rewrite Hrun in Hs. simpl in Hs. eauto. }
    send_cases s poi llm Hne; split; intros Hcfg'; try discriminate;
      try (split; [reflexivity |]); try (split; [reflexivity |]);
      try (left; reflexivity).
    + intros _. eapply Hsent; reflexivity.
    + intros _. eapply Hsent; reflexivity.
    + right. exists c, cat.
      rewrite (fr_requests _ _ (commit_frame _ _ _ _ _)).
      pose proof (fetchOverpassPlaces_log c cat 1500 poi
                    (requests (component s))) as Hlog.
      rewrite Hfetch in Hlog. simpl in Hlog. subst log.
      repeat split; reflexivity.
    + right. exists c, cat.
      pose proof (fetchOverpassPlaces_log c cat 1500 poi
                    (requests (component s))) as Hlog.
      rewrite Hfetch in Hlog. simpl in Hlog. subst log.
      repeat split; reflexivity.
  - unfold sendMessage. rewrite Hne. cbn [negb].
    split; intros _.
    + repeat split; try reflexivity.
      intros Hx. apply truthy_str_true in Hx. congruence.
    + split; [reflexivity | left; reflexivity].
Qed.

End ChatFacts.

Section ChatAndCamera.

Variable Number_toString : R -> string.
Variable boundsView : list LatLng -> LatLng * R.
Variable env : Env.

(** A place search asked for in the chat, with no model configured.  When
    it succeeds the places are replaced by the result and the reply names
    the category with its first underscore turned into a space; when it
    fails the places stay and the reply is the chat's own fallback line, not
    the one of the Nearby button, and the loading flag is never raised. *)
Theorem chat_place_search :
  forall (poi : Fetched OverpassJson) (llm : Fetched LLMJson) (s : Session)
         (c : Coords) (cat : string),
    trim (input s) <> "" ->
    hasLLMConfig env (localStorage s) = false ->
    coords (component s) = Some c ->
    infer_category (toLowerCase (trim (input s))) = Some cat ->
    let s' := sendMessage Number_toString boundsView env poi llm s in
    let asked := mkMsg user (trim (input s)) in
    (forall ps log,
        fetchOverpassPlaces c cat 1500 poi (requests (component s))
        = (Resolved ps, log) ->
        places (component s') = ps /\
        messages (component s')
        = (messages (component s)
           ++ [asked;
               mkMsg assistant
                 match ps with
                 | [] => "No nearby " ++ replace_first "_" " " cat
                         ++ " found."
                 | _ :: _ =>
                     "Nearby " ++ replace_first "_" " " cat ++ ": "
                     ++ String.concat ", "
                          (map place_summary (firstn 5 ps))
                 end])%list) /\
    (forall e log,
        fetchOverpassPlaces c cat 1500 poi (requests (component s))
        = (Rejected e, log) ->
        places (component s') = places (component s) /\
        messages (component s')
        = (messages (component s)
           ++ [asked;
               mkMsg assistant
                 "Chat service is unavailable at the moment."])%list).
Proof.
  intros poi llm s c cat Hne Hcfg Hc Hcat. cbv zeta.
  apply truthy_str_true in Hne.
  unfold sendMessage. rewrite Hne. cbn [negb].
  cbn [localStorage say setInput with_component component visionDesc
       llm_sent coords requests push_message].
  rewrite Hcfg. cbn [negb]. rewrite Hc, Hcat.
  split.
  - intros ps log Hrun. rewrite Hrun.
    cbn [component with_component].
    rewrite (fr_places _ _ (commit_frame _ _ _ _ _)).
    rewrite (fr_messages _ _ (commit_frame _ _ _ _ _)).
    split; [reflexivity |].
    cbn [messages push_message setPlaces set_requests].
    rewrite <- app_assoc. cbn [app]. do 3 f_equal.
    destruct ps as [| p ps]; [reflexivity |].
    rewrite concat_truthy; [reflexivity | discriminate |].
    intros t Ht. apply in_map_iff in Ht. destruct Ht as (q & <- & _).
    apply place_summary_truthy.
  - intros e log Hrun. rewrite Hrun.
    cbn [component with_component say].
    split; [reflexivity |].
    cbn [messages push_message set_requests].
    rewrite <- app_assoc. reflexivity.
Qed.

Lemma last_app_singleton {A : Type} (l : list A) (x d : A) :
  last (l ++ [x])%list d = x.
Proof.
  induction l as [| y l IH]; [reflexivity |].
  simpl. destruct (l ++ [x])%list eqn:H; [| exact IH].
  destruct l; discriminate.
Qed.

(** The camera's description reaches the model.  With a model configured
    and a description in store that is not empty, a message sends exactly
    one request, to the chat completions of the configured base URL, whose
    user content ends with the line 'Vision: ' and the description.  The
    description in store may be the notice [analyzeFrame] puts there when
    no model is configured; a failed analysis keeps the one that was
    there. *)
Theorem vision_description_reaches_model :
  (forall (poi : Fetched OverpassJson) (llm : Fetched LLMJson) (s : Session)
          (d : string),
      trim (input s) <> "" ->
      hasLLMConfig env (localStorage s) = true ->
      visionDesc s = Some d -> d <> "" ->
      exists req parts,
        llm_sent (sendMessage Number_toString boundsView env poi llm s)
        = (llm_sent s ++ [req])%list /\
        rq_url req
        = cfg_baseUrl (getLLMConfig env (localStorage s))
          ++ "/chat/completions" /\
        rq_user req = UserText (String.concat newline parts) /\
        hd "" parts = trim (input s) /\
        last parts "" = "Vision: " ++ d) /\
  (forall (url : string) (answer : Fetched LLMJson) (s : Session),
      hasLLMConfig env (localStorage s) = false ->
      visionDesc (analyzeFrame env (Some url) answer s)
      = Some vision_placeholder /\
      llm_sent (analyzeFrame env (Some url) answer s) = llm_sent s) /\
  (forall (url : string) (answer : Fetched LLMJson) (s : Session),
      hasLLMConfig env (localStorage s) = true ->
      (visionDesc (analyzeFrame env (Some url) answer s) = visionDesc s \/
       exists desc,
         visionDesc (analyzeFrame env (Some url) answer s) = Some desc /\
         last (messages (component (analyzeFrame env (Some url) answer s)))
              (mkMsg assistant "")
         = mkMsg assistant ("Camera analysis: " ++ desc))).
Proof.
  split; [| split].
  - intros poi llm s d Hne Hcfg Hv Hd.
    apply truthy_str_true in Hne. apply truthy_str_true in Hd.
    unfold sendMessage. rewrite Hne. cbn [negb].
    cbn [localStorage say setInput with_component component visionDesc
         llm_sent coords requests push_message].
    rewrite Hcfg. cbn [negb].
    unfold llmChat. rewrite Hcfg. cbn [negb].
    match goal with
    | |- context [llm_post ?req ?a ?b ?c ?e] =>
        pose proof (llm_post_sent req a b c e) as Hs;
        destruct (llm_post req a b c e) as [[reply | err] sent];
        exists req,
          (contentParts Number_toString (trim (input s))
             (coords (component s)) (visionDesc s))
    end;
      simpl in Hs; subst sent;
      (split; [reflexivity |]); (split; [reflexivity |]);
      (split; [reflexivity |]);
      (split; [reflexivity |]);
      unfold contentParts; rewrite Hv; cbn [truthy_opt nullish];
      rewrite Hd; rewrite app_assoc; apply last_app_singleton.
  - intros url answer s Hcfg. unfold analyzeFrame. rewrite Hcfg.
    split; reflexivity.
  - intros url answer s Hcfg. unfold analyzeFrame. rewrite Hcfg. cbn [negb].
    match goal with
    | |- context [llm_post ?req ?a ?b ?c ?e] =>
        destruct (llm_post req a b c e) as [[desc | err] sent]
    end.
    + right. exists desc. split; [reflexivity |].
      cbn [component say with_component setVisionDesc set_llm_sent messages
           push_message].
      apply last_app_singleton.
    + left. reflexivity.
Qed.

Lemma navigation_kept_ok (st st' : State) :
  navigation_kept st st' ->
  places st' = places st -> mapRef st' = mapRef st ->
  markersLayerRef st' = markersLayerRef st ->
  component_ok st -> component_ok st'.
Proof.
  intros K Hp Hm Hl (Hw & Hmap & Hg & Hload).
  destruct K. split; [| split; [| split]].
  - unfold watch_inv in *.
    rewrite nk_watchIdRef0, nk_geo_watches0, nk_guidanceCleanup0,
      nk_coords0, nk_routeSteps0. exact Hw.
  - unfold map_synced in *. rewrite nk_coords0, Hm, Hl, Hp. exact Hmap.
  - unfold guidance_paired in *.
    rewrite nk_nextTurnText0, nk_nextTurnDistance0. exact Hg.
  - congruence.
Qed.

Lemma pushed_ok (m : ChatMessage) (st : State) :
  component_ok st -> component_ok (push_message m st).
Proof.
  apply navigation_kept_ok; try reflexivity. constructor; reflexivity.
Qed.

Lemma component_ok_step (ev : Event) (st : State) :
  component_ok st -> component_ok (handle boundsView ev st).
Proof.
  intros (Hw & Hmap & Hg & Hload). split; [| split; [| split]].
  - apply handle_inv. exact Hw.
  - apply map_synced_step. exact Hmap.
  - apply guidance_paired_step. exact Hg.
  - apply loading_flag_step. exact Hload.
Qed.

Lemma push_message_coords (m : ChatMessage) (st : State) :
  coords (push_message m st) = coords st.
Proof. reflexivity. Qed.

Lemma push_message_requests (m : ChatMessage) (st : State) :
  requests (push_message m st) = requests st.
Proof. reflexivity. Qed.

Lemma sendMessage_ok (poi : Fetched OverpassJson) (llm : Fetched LLMJson)
  (s : Session) :
  component_ok (component s) ->
  component_ok (component (sendMessage Number_toString boundsView env poi llm s)).
Proof.
  intros Hok.
  destruct (truthy_str (trim (input s))) eqn:Hne;
    [| unfold sendMessage; rewrite Hne; exact Hok].
  unfold sendMessage. rewrite Hne. cbn [negb].
  cbn [localStorage say setInput with_component component visionDesc
       llm_sent].
  rewrite !push_message_coords, ?push_message_requests.
  destruct (hasLLMConfig env (localStorage s)); cbn [negb].
  - destruct (llmChat Number_toString env (localStorage s) (trim (input s))
                (coords (component s)) (visionDesc s) llm (llm_sent s))
      as [[reply | e] sent];
      cbn [component say with_component set_llm_sent];
      exact (pushed_ok _ _ (pushed_ok _ _ Hok)).
  - destruct (coords (component s)) as [c |] eqn:Hc;
      [destruct (infer_category (toLowerCase (trim (input s))))
         as [cat |] |];
      try (cbn [component say with_component];
           exact (pushed_ok _ _ (pushed_ok _ _ Hok))).
    destruct (fetchOverpassPlaces c cat 1500 poi (requests (component s)))
      as [[results | e] log]; cbn [component say with_component].
    + set (st1 := push_message _ (setPlaces results _)).
      assert (K : navigation_kept (component s) st1)
        by (constructor; reflexivity).
      destruct Hok as (Hw & Hmap & Hg & Hload).
      assert (Hw1 : watch_inv st1).
      { apply (watch_inv_transport (component s));
          [constructor; reflexivity | reflexivity | reflexivity | exact Hw]. }
      unfold map_synced in Hmap. rewrite Hc in Hmap.
      destruct Hmap as [Hm Hl].
      destruct (mapRef (component s)) as [m |] eqn:Hm'; [| contradiction].
      pose proof (commit_frame boundsView false false true st1) as F.
      split; [| split; [| split]].
      * apply commit_places_only. exact Hw1.
      * eapply (commit_places_synced boundsView st1 c m);
          [exact Hc | exact Hm' | exact Hl].
      * unfold guidance_paired.
        rewrite (fr_nextTurnText _ _ F), (fr_nextTurnDistance _ _ F).
        exact Hg.
      * rewrite (fr_loadingPOI _ _ F). exact Hload.
    + refine (pushed_ok _ _ _).
      refine (navigation_kept_ok (component s) _ _ _ _ _ Hok);
        try reflexivity.
      constructor; reflexivity.
Qed.

(** The handlers of the chat, the settings and the camera keep what holds
    of the component. *)
Lemma session_component_ok :
  forall s : Session,
    session_reachable Number_toString boundsView env s ->
    watch_inv (component s) /\ map_synced (component s) /\
    guidance_paired (component s) /\ loadingPOI (component s) = false.
Proof.
  induction 1 as [ls | ev s _ IH].
  - repeat split; simpl; auto.
  - fold (component_ok (component s)) in IH.
    fold (component_ok
            (component (handle_session Number_toString boundsView env ev s))).
    destruct ev; cbn [handle_session]; try exact IH.
    + cbn [component with_component]. apply component_ok_step. exact IH.
    + apply sendMessage_ok. exact IH.
    + unfold saveOpenAIKey.
      destruct (truthy_str (trim (apiKeyInput s))); exact IH.
    + unfold toggleCamera. destruct (cameraActive s); [exact IH |].
      destruct granted; exact IH.
    + unfold analyzeFrame. destruct frame as [url |]; [| exact IH].
      destruct (hasLLMConfig env (localStorage s)); cbn [negb];
        [| exact IH].
      match goal with
      | |- context [llm_post ?req ?a ?b ?c ?e] =>
          destruct (llm_post req a b c e) as [[desc | err] sent]
      end; exact IH.
Qed.

End ChatAndCamera.

(* ------------------------------------------------------------------ *)
(** * The whole component

    What holds in every state the component reaches, whatever mixes of
    location, search, routing, guidance, chat, settings and camera events
    led to it. *)

Section WholeComponent.

Variable Number_toString : R -> string.
Variable boundsView : list LatLng -> LatLng * R.
Variable env : Env.

Local Open Scope list_scope.


(** Taking the component away stops the watch: the geolocation service is
    left holding none, and nothing but the watch is touched. *)
Theorem unmount_stops_watch :
  forall s : Session,
    session_reachable Number_toString boundsView env s ->
    let st := component s in
    geo_watches (unmount st) = [] /\ watchIdRef (unmount st) = None /\
    effect_frame st (unmount st).
Proof.
  intros s Hreach.
  apply unmount_clears.
  apply (session_component_ok Number_toString boundsView env s Hreach).
Qed.

(** Between two events the guidance text and the guidance distance are
    null together or set together; when set, the text is not empty and the
    distance is a whole number of metres that is not negative.  The banner
    never has to fall back on 'calculating...'. *)
Theorem guidance_text_and_distance_paired :
  forall s : Session,
    session_reachable Number_toString boundsView env s ->
    let st := component s in
    (nextTurnText st = None <-> nextTurnDistance st = None) /\
    (forall t, nextTurnText st = Some t -> t <> "") /\
    (forall d, nextTurnDistance st = Some d ->
               exists z : Z, (0 <= z)%Z /\ d = Fin (IZR z)).
Proof.
  intros s Hreach.
  destruct (session_component_ok Number_toString boundsView env s Hreach)
    as (_ & _ & Hg & _).
  cbv zeta. unfold guidance_paired in Hg.
  destruct (nextTurnText (component s)) as [t |];
    destruct (nextTurnDistance (component s)) as [[d |] |];
    try contradiction.
  - destruct Hg as [Ht (z & Hz & ->)].
    split; [split; discriminate |]. split.
    + intros t' H. injection H as <-. exact Ht.
    + intros d' H. injection H as <-. eauto.
  - split; [tauto |]. split; discriminate.
Qed.

(** Between two events the map exists exactly when there are coordinates,
    and its marker layer then holds the user's marker followed by one
    marker per place, in the order of the places. *)
Theorem map_follows_state :
  forall s : Session,
    session_reachable Number_toString boundsView env s ->
    let st := component s in
    (mapRef st = None <-> coords st = None) /\
    (markersLayerRef st = None <-> coords st = None) /\
    forall c, coords st = Some c ->
              markersLayerRef st
              = Some (user_marker c :: map place_marker (places st)).
Proof.
  intros s Hreach.
  destruct (session_component_ok Number_toString boundsView env s Hreach)
    as (_ & Hmap & _).
  cbv zeta. unfold map_synced in Hmap.
  destruct (coords (component s)) as [c |].
  - destruct Hmap as [Hm Hl]. rewrite Hl.
    split; [split; [contradiction | discriminate] |].
    split; [split; discriminate |].
    intros c' H. injection H as <-. reflexivity.
  - destruct Hmap as [-> ->]. split; [tauto |]. split; [tauto |].
    discriminate.
Qed.


(** Where the map looks after a position update.  The callback centres the
    map on the position with a zoom of at least 15, but the effects that
    follow the change of coordinates have the last word: with no place
    loaded the view ends on the position at zoom 14, and with places loaded
    it ends fitted to the bounds of the user's marker and the places'. *)
Theorem view_after_position_update :
  forall (s : Session) (id : nat) (w : Watch) (pos : Position),
    session_reachable Number_toString boundsView env s ->
    find_watch id (geo_watches (component s)) = Some w ->
    let st := component s in
    let st' := handle boundsView (EvPosition id pos) st in
    let here := (latitude pos, longitude pos) in
    coords st' = Some (coords_of pos) /\
    (places st = [] -> mapRef st' = Some (mkMap here 14)) /\
    (places st <> [] ->
     let pts := here :: map (fun p => (p_lat p, p_lon p)) (places st) in
     mapRef st'
     = Some (mkMap (fst (boundsView pts)) (snd (boundsView pts)))).
Proof.
  intros s id w pos Hreach Hw.
  destruct (session_component_ok Number_toString boundsView env s Hreach)
    as (Hinv & Hmap & _).
  apply (view_after_position boundsView (component s) id w pos Hinv Hmap Hw).
Qed.

Lemma handle_session_appends (ev : SessionEvent) (s : Session) :
  exists l,
    messages (component (handle_session Number_toString boundsView env ev s))
    = messages (component s) ++ l /\ (List.length l <= 2)%nat.
Proof.
  assert (Hnone : forall ms : list ChatMessage,
             ms = messages (component s) ->
             exists l, ms = messages (component s) ++ l
                       /\ (List.length l <= 2)%nat).
  { intros ms H. exists []. rewrite app_nil_r. split; [exact H | simpl; lia]. }
  assert (Hone : forall (ms : list ChatMessage) m,
             ms = messages (component s) ++ [m] ->
             exists l, ms = messages (component s) ++ l
                       /\ (List.length l <= 2)%nat).
  { intros ms m H. exists [m]. split; [exact H | simpl; lia]. }
  destruct ev; cbn [handle_session];
    try (apply Hnone; reflexivity);
    try (eapply Hone; reflexivity).
  - cbn [component with_component].
    destruct (handle_appends boundsView ev (component s)) as [H | [m H]];
      [apply Hnone | apply (Hone _ m)]; exact H.
  - destruct (truthy_str (trim (input s))) eqn:Hne.
    + apply truthy_str_true in Hne.
      destruct (sendMessage_messages Number_toString boundsView env poi llm
                  s Hne) as [_ [reply Hmsgs]].
      eexists. split; [exact Hmsgs | simpl; lia].
    + unfold sendMessage. rewrite Hne. apply Hnone. reflexivity.
  - unfold saveOpenAIKey. destruct (truthy_str (trim (apiKeyInput s)));
      eapply Hone; reflexivity.
  - unfold toggleCamera. destruct (cameraActive s);
      [apply Hnone; reflexivity |].
    destruct granted; [apply Hnone | eapply Hone]; reflexivity.
  - unfold analyzeFrame. destruct frame as [url |];
      [| apply Hnone; reflexivity].
    destruct (hasLLMConfig env (localStorage s)); cbn [negb];
      [| eapply Hone; reflexivity].
    match goal with
    | |- context [llm_post ?req ?a ?b ?c ?e] =>
        destruct (llm_post req a b c e) as [[desc | err] sent]
    end; eapply Hone; reflexivity.
Qed.

(** The chat only grows.  No handler removes or rewrites a line: each one
    appends at most two, so the chat of every state starts with the
    greeting. *)
Theorem chat_append_only :
  (forall (ev : SessionEvent) (s : Session),
      exists l,
        messages
          (component (handle_session Number_toString boundsView env ev s))
        = messages (component s) ++ l /\ (List.length l <= 2)%nat) /\
  (forall s : Session,
      session_reachable Number_toString boundsView env s ->
      exists rest, messages (component s) = messages initial ++ rest).
Proof.
  split; [exact handle_session_appends |].
  induction 1 as [ls | ev s _ [rest IH]].
  - exists []. now rewrite app_nil_r.
  - destruct (handle_session_appends ev s) as (l & Hl & _).
    exists (rest ++ l). rewrite Hl, IH. now rewrite app_assoc.
Qed.

End WholeComponent.

(* ------------------------------------------------------------------ *)
(** * Instances of the further properties *)

Local Open Scope list_scope.

Lemma run_session_reachable (evs : list SessionEvent) (s : Session) :
  session_reachable zero_text flat_view bare_env s ->
  session_reachable zero_text flat_view bare_env (run_session evs s).
Proof.
  revert s. induction evs as [| ev evs IH]; intros s Hs; [exact Hs |].
  apply (IH (handle_session zero_text flat_view bare_env ev s)).
  apply sreach_step. exact Hs.
Qed.

Lemma touring_reachable :
  session_reachable zero_text flat_view bare_env touring.
Proof. apply run_session_reachable, sreach_initial. Qed.

Lemma haversine_here (a : Coords) : haversine a a = 0.
Proof.
  unfold haversine. rewrite haversine_c_refl, sqrt_0.
  rewrite Rmin_right by lra. rewrite asin_0. ring.
Qed.

Lemma overpass_answer_run (c : Coords) (category : string)
  (log : list Request) :
  fetchOverpassPlaces c category 1500 overpass_answer log
  = (Resolved (places_of_elements c category [located_element; bare_element]),
     log ++ [OverpassRequest 1500 c category]).
Proof. reflexivity. Qed.

Lemma located_element_kept (c : Coords) (category : string) :
  In (place_of_element c category located_element)
     (places_of_elements c category [located_element; bare_element]).
Proof.
  apply places_of_elements_In. exists located_element.
  split; [left; reflexivity |]. split; [reflexivity |].
  apply place_located_spec. simpl. split; lra.
Qed.

Lemma haversine_arc_witness :
  Rabs (lat (mkCoords 90 0) - lat (mkCoords 0 0)) <= 180 /\
  haversine (mkCoords 0 0) (mkCoords 90 0)
  = EARTH_R * (Rabs (lat (mkCoords 90 0) - lat (mkCoords 0 0)) * PI / 180).
Proof.
  assert (H : Rabs (lat (mkCoords 90 0) - lat (mkCoords 0 0)) <= 180).
  { simpl. rewrite Rabs_pos_eq; lra. }
  split; [exact H |].
  apply (proj1 haversine_arc (mkCoords 0 0) (mkCoords 90 0) eq_refl H).
Defined.

Lemma requests_need_location_witness :
  coords initial = None /\
  requests (handle flat_view (EvLoadPOIs overpass_answer) initial)
  = requests initial.
Proof.
  split; [reflexivity |].
  apply (proj2 (requests_need_location flat_view (EvLoadPOIs overpass_answer)
                  initial)).
  reflexivity.
Defined.

Lemma guidance_written_witness :
  let st := guiding [tie_a] in
  let st' := handle flat_view (EvRouteTo somewhere (route_answer [tie_b])) st in
  routeSteps st = [tie_a] /\ routeSteps st' = [tie_b] /\
  nextTurnText st' = nextTurnText st /\
  nextTurnDistance st' = nextTurnDistance st /\
  nextTurnMarkerRef st' = nextTurnMarkerRef st.
Proof.
  cbv zeta. split; [reflexivity |]. split; [reflexivity |].
  apply (guidance_written_by_position_or_clear flat_view
           (EvRouteTo somewhere (route_answer [tie_b])) (guiding [tie_a])).
  - intros id pos. discriminate.
  - discriminate.
Defined.

Lemma next_turn_marker_witness :
  find_watch 1 (geo_watches (guiding [tie_a])) = Some (mkWatch 1 [tie_a]) /\
  mapRef (guiding [tie_a]) <> None /\
  (exists s, In s [tie_a] /\ maneuver s <> None) /\
  exists mk,
    nextTurnMarkerRef
      (handle flat_view (EvPosition 1 (mkPosition 0 0)) (guiding [tie_a]))
    = Some mk /\
    cm_at mk = (0, 0) /\ cm_popup mk = "Next turn".
Proof.
  assert (Hw : find_watch 1 (geo_watches (guiding [tie_a]))
               = Some (mkWatch 1 [tie_a])) by reflexivity.
  assert (Hm : mapRef (guiding [tie_a]) <> None) by discriminate.
  assert (Hs : exists s, In s (w_steps (mkWatch 1 [tie_a]))
                         /\ maneuver s <> None).
  { exists tie_a. split; [left; reflexivity | discriminate]. }
  split; [exact Hw |]. split; [exact Hm |]. split; [exact Hs |].
  destruct (next_turn_marker_on_selected_maneuver flat_view (guiding [tie_a])
              1%nat (mkWatch 1 [tie_a]) (mkPosition 0 0) Hw Hm Hs)
    as (i & s & mv & Hi & Hmv & _ & H).
  cbv zeta in H. destruct H as (_ & mk & Hmk & Hat & Hpop).
  exists mk. split; [exact Hmk |].
  destruct i as [| [| i]]; simpl in Hi; try discriminate.
  injection Hi as <-. injection Hmv as <-.
  split; [exact Hat | exact Hpop].
Defined.

Lemma loadPOIs_witness :
  let ps := places_of_elements (mkCoords 0 0) "restaurant"
              [located_element; bare_element] in
  coords located = Some (mkCoords 0 0) /\
  fetchOverpassPlaces (mkCoords 0 0) (poiCategory located) 1500
    overpass_answer (requests located)
  = (Resolved ps, [OverpassRequest 1500 (mkCoords 0 0) "restaurant"]) /\
  places (handle flat_view (EvLoadPOIs overpass_answer) located) = ps /\
  loadingPOI (handle flat_view (EvLoadPOIs overpass_answer) located) = false.
Proof.
  cbv zeta. split; [reflexivity |]. split; [reflexivity |].
  pose proof (loadPOIs_replaces_places flat_view located (mkCoords 0 0)
                overpass_answer
                (places_of_elements (mkCoords 0 0) "restaurant"
                   [located_element; bare_element])
                [OverpassRequest 1500 (mkCoords 0 0) "restaurant"]
                eq_refl eq_refl) as H.
  cbv zeta in H. destruct H as (Hp & Hl & _). split; [exact Hp | exact Hl].
Defined.


Lemma places_distance_range_witness :
  let ps := places_of_elements (mkCoords 0 0) "cafe"
              [located_element; bare_element] in
  let p := place_of_element (mkCoords 0 0) "cafe" located_element in
  fetchOverpassPlaces (mkCoords 0 0) "cafe" 1500 overpass_answer []
  = (Resolved ps, [OverpassRequest 1500 (mkCoords 0 0) "cafe"]) /\
  In p ps /\
  exists d : Z, distanceMeters p = Some d /\ (0 <= d <= 20024053)%Z.
Proof.
  cbv zeta. split; [reflexivity |].
  split; [apply located_element_kept |].
  destruct (places_distance_range (mkCoords 0 0) "cafe" 1500 overpass_answer
              [] [OverpassRequest 1500 (mkCoords 0 0) "cafe"] _
              (place_of_element (mkCoords 0 0) "cafe" located_element)
              (overpass_answer_run (mkCoords 0 0) "cafe" [])
              (located_element_kept (mkCoords 0 0) "cafe"))
    as (d & Hd & Hrange & _).
  exists d. split; [exact Hd | exact Hrange].
Defined.

Lemma zero_distance_witness :
  let ps := places_of_elements (mkCoords 1 1) "cafe"
              [located_element; bare_element] in
  fetchOverpassPlaces (mkCoords 1 1) "cafe" 1500 overpass_answer []
  = (Resolved ps, [OverpassRequest 1500 (mkCoords 1 1) "cafe"]) /\
  In place_underfoot ps /\
  haversine (mkCoords 1 1)
    (mkCoords (p_lat place_underfoot) (p_lon place_underfoot)) < / 2 /\
  place_distance_label place_underfoot = "distance unknown" /\
  place_summary place_underfoot = "Unknown (cafe, 0m)"%string.
Proof.
  cbv zeta. split; [reflexivity |].
  split; [apply located_element_kept |].
  assert (Hh : haversine (mkCoords 1 1)
                 (mkCoords (p_lat place_underfoot) (p_lon place_underfoot))
               < / 2).
  { change (haversine (mkCoords 1 1) (mkCoords 1 1) < / 2).
    rewrite haversine_here. lra. }
  split; [exact Hh |].
  pose proof (zero_distance_shown_as_unknown (mkCoords 1 1) "cafe" 1500
                overpass_answer [] [OverpassRequest 1500 (mkCoords 1 1) "cafe"]
                _ place_underfoot
                (overpass_answer_run (mkCoords 1 1) "cafe" [])
                (located_element_kept (mkCoords 1 1) "cafe")) as H.
  cbv zeta in H. destruct H as [H _]. destruct (H Hh) as [Hlabel Hsum].
  split; [exact Hlabel | exact Hsum].
Defined.

Lemma inferred_category_witness :
  infer_category "a coffee, please" = Some "cafe"%string /\
  In "cafe"%string (map fst CATEGORIES) /\ "cafe"%string <> "fast_food"%string.
Proof.
  split; [reflexivity |].
  apply (inferred_category_is_on_the_menu "a coffee, please" "cafe").
  reflexivity.
Defined.

Lemma post_office_witness :
  all_space "  " = true /\
  infer_category "where is the post  office for food?"
  = Some "post_office"%string.
Proof.
  split; [reflexivity |].
  apply (proj2 (proj2 (post_office_keywords_win "where is the "
                         " for food?")) "  ").
  reflexivity.
Defined.

Lemma llm_configured_witness :
  getLLMProvider bare_env localai_storage = localai /\
  hasLLMConfig bare_env localai_storage = true /\
  getLLMProvider bare_env empty_storage = openai /\
  getOpenAIKey bare_env empty_storage = None /\
  hasLLMConfig bare_env empty_storage <> true.
Proof.
  split; [reflexivity |]. split.
  - apply (proj1 (llm_configured_iff bare_env localai_storage)). reflexivity.
  - split; [reflexivity |]. split; [reflexivity |].
    intros H.
    apply (proj1 (proj2 (llm_configured_iff bare_env empty_storage)))
      in H; [| reflexivity].
    apply H. reflexivity.
Defined.

Lemma settings_precedence_witness :
  getItem "llm_provider" localai_storage = Some "localai"%string /\
  getLLMProvider keyed_env localai_storage
  = getLLMProvider bare_env localai_storage /\
  VITE_OPENAI_API_KEY keyed_env = Some "sk-env"%string /\
  getOpenAIKey keyed_env
    (localStorage (saveOpenAIKey (initial_session keyed_env empty_storage)))
  = Some "sk-env"%string.
Proof.
  destruct (settings_precedence keyed_env localai_storage) as [Hp Hk].
  split; [reflexivity |]. split.
  - apply (Hp "localai"%string bare_env); [reflexivity | discriminate].
  - split; [reflexivity |].
    apply (Hk "sk-env"%string); [reflexivity | discriminate].
Defined.



Lemma chat_asks_one_service_witness :
  hasLLMConfig bare_env (localStorage touring) = false /\
  llm_sent (sendMessage zero_text flat_view bare_env overpass_answer
              NetworkError touring)
  = llm_sent touring.
Proof.
  split; [reflexivity |].
  pose proof (chat_asks_one_service zero_text flat_view bare_env
                overpass_answer NetworkError touring) as H.
  cbv zeta in H. destruct H as [_ H]. apply H. reflexivity.
Defined.

Lemma chat_place_search_witness :
  trim (input touring) <> ""%string /\
  hasLLMConfig bare_env (localStorage touring) = false /\
  coords (component touring) = Some (mkCoords 0 0) /\
  infer_category (toLowerCase (trim (input touring))) = Some "cafe"%string /\
  places (component (sendMessage zero_text flat_view bare_env overpass_answer
                       NetworkError touring))
  = places_of_elements (mkCoords 0 0) "cafe" [located_element; bare_element].
Proof.
  assert (Hne : trim (input touring) <> ""%string) by discriminate.
  split; [exact Hne |]. split; [reflexivity |]. split; [reflexivity |].
  split; [reflexivity |].
  pose proof (chat_place_search zero_text flat_view bare_env overpass_answer
                NetworkError touring (mkCoords 0 0) "cafe" Hne eq_refl eq_refl
                eq_refl) as H.
  cbv zeta in H. destruct H as [H _].
  apply (H _ _ (overpass_answer_run (mkCoords 0 0) "cafe"
                  (requests (component touring)))).
Defined.

Lemma vision_description_witness :
  trim (input keyed) <> ""%string /\
  hasLLMConfig bare_env (localStorage keyed) = true /\
  visionDesc keyed = Some vision_placeholder /\
  exists req parts,
    llm_sent (sendMessage zero_text flat_view bare_env overpass_answer
                NetworkError keyed)
    = llm_sent keyed ++ [req] /\
    rq_user req = UserText (String.concat newline parts) /\
    last parts ""%string = ("Vision: " ++ vision_placeholder)%string.
Proof.
  assert (Hne : trim (input keyed) <> ""%string) by discriminate.
  split; [exact Hne |]. split; [reflexivity |]. split; [reflexivity |].
  destruct (proj1 (vision_description_reaches_model zero_text flat_view
                     bare_env)
              overpass_answer NetworkError keyed vision_placeholder Hne
              eq_refl eq_refl ltac:(discriminate))
    as (req & parts & Hsent & _ & Huser & _ & Hlast).
  exists req, parts. split; [exact Hsent |]. split; [exact Huser | exact Hlast].
Defined.


Lemma unmount_witness :
  session_reachable zero_text flat_view bare_env touring /\
  geo_watches (component touring) <> [] /\
  geo_watches (unmount (component touring)) = [].
Proof.
  split; [exact touring_reachable |]. split; [discriminate |].
  pose proof (unmount_stops_watch zero_text flat_view bare_env touring
                touring_reachable) as H.
  cbv zeta in H. apply H.
Defined.

Lemma guidance_paired_witness :
  let s := handle_session zero_text flat_view bare_env
             (SevComponent (EvPosition 1 (mkPosition 0 0))) touring in
  session_reachable zero_text flat_view bare_env s /\
  (nextTurnText (component s) = None <->
   nextTurnDistance (component s) = None).
Proof.
  cbv zeta.
  assert (Hs : session_reachable zero_text flat_view bare_env
                 (handle_session zero_text flat_view bare_env
                    (SevComponent (EvPosition 1 (mkPosition 0 0))) touring))
    by (apply sreach_step; exact touring_reachable).
  split; [exact Hs |].
  pose proof (guidance_text_and_distance_paired zero_text flat_view bare_env
                _ Hs) as H.
  cbv zeta in H. apply H.
Defined.

Lemma map_follows_witness :
  session_reachable zero_text flat_view bare_env touring /\
  coords (component touring) = Some (mkCoords 0 0) /\
  markersLayerRef (component touring)
  = Some (user_marker (mkCoords 0 0)
          :: map place_marker (places (component touring))).
Proof.
  split; [exact touring_reachable |]. split; [reflexivity |].
  pose proof (map_follows_state zero_text flat_view bare_env touring
                touring_reachable) as H.
  cbv zeta in H. destruct H as (_ & _ & H). apply H. reflexivity.
Defined.


Lemma view_after_position_witness :
  session_reachable zero_text flat_view bare_env touring /\
  find_watch 1 (geo_watches (component touring))
  = Some (mkWatch 1 [tie_a]) /\
  places (component touring) = [] /\
  mapRef (handle flat_view (EvPosition 1 (mkPosition 2 3))
            (component touring))
  = Some (mkMap (2, 3) 14).
Proof.
  split; [exact touring_reachable |]. split; [reflexivity |].
  split; [reflexivity |].
  pose proof (view_after_position_update zero_text flat_view bare_env touring
                1%nat (mkWatch 1 [tie_a]) (mkPosition 2 3) touring_reachable
                eq_refl) as H.
  cbv zeta in H. destruct H as (_ & H & _). apply H. reflexivity.
Defined.

Lemma chat_append_only_witness :
  session_reachable zero_text flat_view bare_env touring /\
  exists rest,
    messages (component touring) = messages initial ++ rest.
Proof.
  split; [exact touring_reachable |].
  apply (proj2 (chat_append_only zero_text flat_view bare_env)).
  exact touring_reachable.
Defined.

Lemma route_without_geometry_witness :
  let st' := handle flat_view (EvRouteTo somewhere hollow_answer)
               (guiding [tie_a]) in
  routePolylineRef (guiding [tie_a]) = Some [(1, 2); (3, 4)] /\
  routePolylineRef st' = Some [] /\
  routeSteps st' = [tie_a].
Proof.
  cbv zeta. split; [reflexivity |].
  pose proof (route_without_geometry_half_applied flat_view (guiding [tie_a])
                somewhere hollow_answer (mkCoords 0 0) (mkMap (0, 0) 14)
                (mkRoute [] (Some [mkLeg (Some [tie_b])]))
                (requests (guiding [tie_a])
                 ++ [OSRMRequest walking (mkCoords 0 0) 1 1])
                eq_refl eq_refl eq_refl eq_refl) as H.
  cbv zeta in H. destruct H as (Hpoly & Hsteps & _).
  split; [exact Hpoly | exact Hsteps].
Defined.
